(** * Smart lock (ART-Pi 2): keypad entry, passcode check and display refresh

    A shallow embedding of [main.c] (the two RT-Thread task loops and
    [string_chek]) and the properties of the entry / verification /
    actuation state machine.

    Conventions.
    - A [u8] is a [Z] in [0, 256); arithmetic that the C code stores back
      into a [u8] goes through [wrap8], a [u16] argument through [wrap16].
    - A C array is a [list Z]; a read or write outside the array is
      undefined behaviour and is modelled by [None].
    - The collaborators ([lock], the LCD primitives, [rt_thread_mdelay])
      only act on the outside world: each call is appended to a trace.
    - One iteration of a task loop is one transition of the model. *)

From stdpp Require Import base tactics option list numbers relations.
From Stdlib Require Import ZArith Lia.

Local Open Scope Z_scope.

(** ** Machine integers and arrays *)

Definition wrap8 (z : Z) : Z := z mod 256.

Definition wrap16 (z : Z) : Z := z mod 65536.

Definition is_u8 (z : Z) : Prop := 0 <= z < 256.

(** [a[i]] as an rvalue. *)
Definition load (a : list Z) (i : Z) : option Z :=
  if decide (0 <= i) then a !! Z.to_nat i else None.

(** [a[i] = v]. *)
Definition store (a : list Z) (i v : Z) : option (list Z) :=
  if decide (0 <= i < Z.of_nat (length a)) then Some (<[Z.to_nat i := v]> a)
  else None.

(** ** [string_chek]

    [while (len--) { if (string1[len] == string2[len]) ; else return 0; }
     return 1;]

    The counter is tested, then decremented, and the body runs with the
    decremented value: with [n = S n'] on entry the body compares index
    [n'].  The recursion is on the counter itself.  (The decrement that
    follows the last, failing test wraps [len] to 255, a value that is never
    read.) *)
Fixpoint string_chek_from (n : nat) (string1 string2 : list Z) : option Z :=
  match n with
  | O => Some 1
  | S n' =>
      a ← string1 !! n';
      b ← string2 !! n';
      if decide (a = b) then string_chek_from n' string1 string2
      else Some 0
  end.

Definition string_chek (string1 string2 : list Z) (len : Z) : option Z :=
  string_chek_from (Z.to_nat len) string1 string2.

(** ** Collaborators

    [lock] (timer.h: [enable = 1] locks, [enable = 0] unlocks), the LCD
    primitives of lcd.h and the RT-Thread delay.  The pictures of pic.h and
    the one prompt text the tasks draw are named, not spelled out. *)

Inductive Image := gImage_1 | gImage_2 | gImage_3 | gImage_4.

(** The prompt "door locked, please enter the passcode". *)
Inductive Text := prompt_locked_enter_password.

Definition WHITE : Z := 0xFFFF.
Definition BLUE : Z := 0x001F.
Definition RED : Z := 0xF800.
Definition YELLOW : Z := 0xFFE0.

Inductive Cmd :=
| lock (enable : Z)
| LCD_Fill (xsta ysta xend yend color : Z)
| LCD_ShowChar (x y num fc bc sizey mode : Z)
| LCD_ShowChinese (x y : Z) (s : Text) (fc bc sizey mode : Z)
| LCD_ShowPicture (x y length width : Z) (pic : Image)
| rt_thread_mdelay (ms : Z).

(** ** Program state

    The four globals of main.c, [key_old] (the local of
    [key_process_thread_entry] that survives from one loop iteration to the
    next) and the trace of collaborator calls made so far.  The other locals
    ([key_val], [key_down], [i], [num], [j]) are assigned before every use
    and are not part of the state. *)

Record State := mkState {
  password : list Z;
  key_temp : list Z;
  key_index : Z;
  key_index_old : Z;
  key_old : Z;
  trace : list Cmd
}.

Definition set_key_temp (v : list Z) (st : State) : State :=
  mkState (password st) v (key_index st) (key_index_old st) (key_old st)
          (trace st).

Definition set_key_index (v : Z) (st : State) : State :=
  mkState (password st) (key_temp st) v (key_index_old st) (key_old st)
          (trace st).

Definition set_key_index_old (v : Z) (st : State) : State :=
  mkState (password st) (key_temp st) (key_index st) v (key_old st)
          (trace st).

Definition set_key_old (v : Z) (st : State) : State :=
  mkState (password st) (key_temp st) (key_index st) (key_index_old st) v
          (trace st).

(** A call to a collaborator. *)
Definition call (c : Cmd) (st : State) : State :=
  mkState (password st) (key_temp st) (key_index st) (key_index_old st)
          (key_old st) (trace st ++ [c]).

(** The initialisers of the globals, [key_old = 0], nothing called yet. *)
Definition initial_state : State :=
  mkState [1; 2; 3; 4; 5; 6] [0; 0; 0; 0; 0; 0; 0] 0 255 0 [].

(** [for (i = from; i < from + n; i++) body(i)]. *)
Fixpoint for_range (from : Z) (n : nat) (body : Z → State → option State)
    (st : State) : option State :=
  match n with
  | O => Some st
  | S n' => st' ← body from st; for_range (from + 1) n' body st'
  end.

(** ** The key task: [key_process_thread_entry] *)

(** [key_down = key_val & (key_val ^ key_old);] *)
Definition edge_detect (key_val key_old : Z) : Z :=
  wrap8 (Z.land key_val (Z.lxor key_val key_old)).

(** [if (key_index < 6) { key_temp[key_index] = num; key_index++; }] *)
Definition append_digit (num : Z) (st : State) : option State :=
  if decide (key_index st < 6) then
    kt ← store (key_temp st) (key_index st) num;
    Some (set_key_index (wrap8 (key_index st + 1)) (set_key_temp kt st))
  else Some st.

(** Cases 1, 2, 3, 5, 6, 7, 9, 10, 11: the digit keys 1 to 9. *)
Definition digit_key (key_down : Z) (st : State) : option State :=
  let num :=
    if decide (key_down <= 3) then wrap8 key_down
    else if decide (key_down <= 7) then wrap8 (key_down - 1)
    else wrap8 (key_down - 2) in
  append_digit num st.

(** [for (i = 0; i < 7; i++) key_temp[i] = 0;] *)
Definition clear_key_temp (st : State) : option State :=
  for_range 0 7
    (λ i st, kt ← store (key_temp st) i 0; Some (set_key_temp kt st)) st.

(** Case 13: the clear key. *)
Definition clear_key (st : State) : option State :=
  clear_key_temp (set_key_index 0 st).

Definition unlock_sequence : list Cmd :=
  [ lock 0;
    LCD_ShowPicture 0 0 128 128 gImage_3;
    rt_thread_mdelay 5000;
    lock 1;
    LCD_ShowPicture 0 0 128 128 gImage_2;
    LCD_ShowChinese 0 0 prompt_locked_enter_password BLUE WHITE 16 0 ].

Definition alarm_sequence : list Cmd :=
  [ lock 1;
    LCD_ShowPicture 0 0 128 128 gImage_4;
    rt_thread_mdelay 1000;
    LCD_ShowPicture 0 0 128 128 gImage_2;
    LCD_ShowChinese 0 0 prompt_locked_enter_password BLUE WHITE 16 0 ].

Definition calls (cs : list Cmd) (st : State) : State :=
  foldl (λ st c, call c st) st cs.

(** Case 15: the confirm key. *)
Definition confirm_key (st : State) : option State :=
  let st := set_key_index 0 st in
  ok ← string_chek (key_temp st) (password st) 6;
  let st := if decide (ok ≠ 0) then calls unlock_sequence st
            else calls alarm_sequence st in
  clear_key_temp st.

(** [switch (key_down) { ... }] *)
Definition switch_key_down (key_down : Z) (st : State) : option State :=
  match key_down with
  | 1 | 2 | 3 | 5 | 6 | 7 | 9 | 10 | 11 => digit_key key_down st
  | 14 => append_digit 0 st
  | 13 => clear_key st
  | 15 => confirm_key st
  | _ => Some st
  end.

(** One iteration of the [while (1)] of the key task, [key_val] being what
    [key_read ()] returned. *)
Definition key_process_loop_body (key_val : Z) (st : State) : option State :=
  let key_down := edge_detect key_val (key_old st) in
  let st := set_key_old key_val st in
  st ← (if decide (key_down ≠ 0) then switch_key_down key_down st
        else Some st);
  Some (call (rt_thread_mdelay 10) st).

(** The key task run for as many iterations as there are scan results. *)
Fixpoint key_process_thread_entry (key_reads : list Z) (st : State)
    : option State :=
  match key_reads with
  | [] => Some st
  | key_val :: rest =>
      st' ← key_process_loop_body key_val st;
      key_process_thread_entry rest st'
  end.

(** ** The display task: [lcd_refresh_thread_entry] *)

(** [LCD_ShowChar (20 + 16*j, 45, key_temp[j] + 48, RED, YELLOW, 16, 0);] *)
Definition show_digit (j : Z) (st : State) : option State :=
  c ← load (key_temp st) j;
  Some (call (LCD_ShowChar (wrap16 (20 + 16 * j)) 45 (wrap8 (c + 48)) RED YELLOW 16 0)
             st).

(** One iteration of the [while (1)] of the display task. *)
Definition lcd_refresh_loop_body (st : State) : option State :=
  st ← (if decide (key_index st ≠ key_index_old st) then
          let st := call (LCD_Fill 16 45 112 60 YELLOW) st in
          let st := if decide (key_index st > 6) then set_key_index 6 st
                    else st in
          st ← for_range 0 (Z.to_nat (key_index st)) show_digit st;
          Some (set_key_index_old (key_index st) st)
        else Some st);
  Some (call (rt_thread_mdelay 100) st).

(** ** The two tasks together

    The scheduler interleaves the tasks; a transition is one whole loop
    iteration of either task, the key task reading any [u8] scan code. *)

Inductive step : State → State → Prop :=
| step_key key_val st st' :
    is_u8 key_val →
    key_process_loop_body key_val st = Some st' →
    step st st'
| step_lcd st st' :
    lcd_refresh_loop_body st = Some st' →
    step st st'.

Definition reachable (st : State) : Prop := rtc step initial_state st.

(** ** Notions used in the statements *)

(** The key codes the switch treats as a digit key (1 to 9, then 0). *)
Definition is_digit_code (key_down : Z) : Prop :=
  key_down ∈ [1; 2; 3; 5; 6; 7; 9; 10; 11; 14].

(** The key events of a run of the scan: the successive values of
    [key_down], starting from a given [key_old]. *)
Fixpoint key_down_events (key_old : Z) (key_reads : list Z) : list Z :=
  match key_reads with
  | [] => []
  | key_val :: rest =>
      edge_detect key_val key_old :: key_down_events key_val rest
  end.

(** The key events delivered to the switch one after the other. *)
Fixpoint switch_key_downs (key_downs : list Z) (st : State) : option State :=
  match key_downs with
  | [] => Some st
  | key_down :: rest =>
      st' ← switch_key_down key_down st; switch_key_downs rest st'
  end.

(** The arguments of the [lock] calls of a trace, oldest first. *)
Definition lock_calls (tr : list Cmd) : list Z :=
  omap (λ c, match c with lock enable => Some enable | _ => None end) tr.

(** The actuator position after a trace: the argument of the last [lock]. *)
Definition lock_position (tr : list Cmd) : option Z := last (lock_calls tr).

(** The glyphs of the first [n] slots of a buffer: one per slot, 16 pixels
    apart from x = 20, the digit turned into its ASCII character. *)
Definition digit_glyphs (n : nat) (buf : list Z) : list Cmd :=
  imap (λ j c, LCD_ShowChar (wrap16 (20 + 16 * Z.of_nat j)) 45 (wrap8 (c + 48))
                            RED YELLOW 16 0)
       (take n buf).

(** The display task redrew the entry area between [st] and [st']. *)
Definition redrawn (st st' : State) : Prop :=
  ∃ glyphs, trace st' =
            trace st ++ LCD_Fill 16 45 112 60 YELLOW :: glyphs
                     ++ [rt_thread_mdelay 100].

(** The shapes the C types impose on a state. *)
Definition arrays_ok (st : State) : Prop :=
  length (key_temp st) = 7%nat ∧ length (password st) = 6%nat.

(** The invariant of the two tasks. *)
Definition inv (st : State) : Prop :=
  arrays_ok st ∧ 0 <= key_index st <= 6.

(** ** Notions used in the further properties of the key task *)

(** The digit each digit key stands for, as the comments of the switch give
    it: the first three rows hold 1 to 9, code 14 is 0. *)
Definition digit_of (key_down : Z) : option Z :=
  match key_down with
  | 1 => Some 1 | 2 => Some 2 | 3 => Some 3
  | 5 => Some 4 | 6 => Some 5 | 7 => Some 6
  | 9 => Some 7 | 10 => Some 8 | 11 => Some 9
  | 14 => Some 0
  | _ => None
  end.

(** [codes] are digit keys and [digits] the digits they stand for. *)
Definition digits_of (codes digits : list Z) : Prop :=
  Forall2 (λ code d, digit_of code = Some d) codes digits.

(** The entry is empty: the state after start-up, a clear or a confirm. *)
Definition cleared (st : State) : Prop :=
  key_index st = 0 ∧ key_temp st = [0; 0; 0; 0; 0; 0; 0].

(** What the six compared slots hold after the digits [digits] were typed
    into an empty entry. *)
Definition entered (digits : list Z) : list Z :=
  take 6 (digits ++ replicate 6 0).

(** The entry buffer as the key task keeps it: the passcode is the compiled
    one, every slot holds a digit, the slots from [key_index] on hold 0. *)
Definition entry_ok (st : State) : Prop :=
  password st = [1; 2; 3; 4; 5; 6]
  ∧ Forall (λ d, 0 <= d <= 9) (key_temp st)
  ∧ ∀ i : nat, (Z.to_nat (key_index st) ≤ i < 7)%nat →
               key_temp st !! i = Some 0.

(** ** Notions used for the key task under one key at a time *)

(** The 10 ms sleep that ends each iteration of the key task. *)
Definition is_tick (c : Cmd) : bool :=
  match c with
  | rt_thread_mdelay ms => bool_decide (ms = 10)
  | _ => false
  end.

(** The calls of a trace other than these sleeps. *)
Definition actions (tr : list Cmd) : list Cmd :=
  filter (λ c, is_tick c = false) tr.

(** Two states with the same passcode, entry, counts and actions: they may
    differ in [key_old] and in the sleeps of the key task. *)
Definition same_entry (a b : State) : Prop :=
  password a = password b
  ∧ key_temp a = key_temp b
  ∧ key_index a = key_index b
  ∧ key_index_old a = key_index_old b
  ∧ actions (trace a) = actions (trace b).

(** The scans of keys pressed one at a time: a press [(code, (h, r))] is read
    as [code] on [S h] scans in a row, then no key is read on [S r] scans. *)
Definition press_scans (presses : list (Z * (nat * nat))) : list Z :=
  presses ≫= λ p, replicate (S p.2.1) p.1 ++ replicate (S p.2.2) 0.

(** ** The keypad scan: [key_read] (key.c)

    The function drives one row low at a time and reads the four column
    pins.  [col_low r c] tells whether the pin of column [c] reads
    [PIN_LOW] while row [r] is driven low, that is, whether the key at row
    [r], column [c] is held.  The sixteen tests are made in the order of the
    source; a later test that succeeds overwrites [temp]. *)
Definition key_read (col_low : Z → Z → bool) : Z :=
  let temp := 0 in
  let temp := if col_low 1 4 then 1 else temp in
  let temp := if col_low 1 3 then 2 else temp in
  let temp := if col_low 1 2 then 3 else temp in
  let temp := if col_low 1 1 then 4 else temp in
  let temp := if col_low 2 4 then 5 else temp in
  let temp := if col_low 2 3 then 6 else temp in
  let temp := if col_low 2 2 then 7 else temp in
  let temp := if col_low 2 1 then 8 else temp in
  let temp := if col_low 3 4 then 9 else temp in
  let temp := if col_low 3 3 then 10 else temp in
  let temp := if col_low 3 2 then 11 else temp in
  let temp := if col_low 3 1 then 12 else temp in
  let temp := if col_low 4 4 then 13 else temp in
  let temp := if col_low 4 3 then 14 else temp in
  let temp := if col_low 4 2 then 15 else temp in
  let temp := if col_low 4 1 then 16 else temp in
  temp.

(** The code [key_read] gives the key at row [r], column [c]. *)
Definition key_code (r c : Z) : Z := 4 * (r - 1) + (5 - c).

(** A row or column number of the keypad. *)
Definition is_line (n : Z) : Prop := 1 <= n <= 4.

(** Only the key at row [r], column [c] is held. *)
Definition only_key (r c : Z) : Z → Z → bool :=
  λ r' c', bool_decide (r' = r ∧ c' = c).

(** ** The actuator driver: [TIM2_PWM_Init] and [lock] (timer.c)

    [servo_dev] is the static device handle, [true] when it is not
    [RT_NULL]; [found] tells whether [rt_device_find] finds the PWM device.
    The driver acts on the PWM channel, the console and the clock only. *)

Definition PWM_DEV_CHANNEL : Z := 3.
Definition PWM_PERIOD_NS : Z := 20000000.
Definition PWM_MIN_NS : Z := 500000.
Definition PWM_90_NS : Z := 1500000.

Inductive Msg :=
| msg_cant_find | msg_init_success | msg_door_locked | msg_door_unlocked.

Inductive Pwm :=
| rt_pwm_enable (channel : Z)
| rt_pwm_set (channel period pulse : Z)
| rt_kprintf (m : Msg)
| pwm_mdelay (ms : Z).

Module timer.

(** [lock] from the test of [enable] on, the handle being valid. *)
Definition lock_drive (enable : Z) : list Pwm :=
  (if decide (enable = 1) then
     [rt_pwm_set PWM_DEV_CHANNEL PWM_PERIOD_NS PWM_MIN_NS;
      rt_kprintf msg_door_locked]
   else
     [rt_pwm_set PWM_DEV_CHANNEL PWM_PERIOD_NS PWM_90_NS;
      rt_kprintf msg_door_unlocked])
  ++ [pwm_mdelay 300].

(** The handle after the call and the calls made.  The [lock (1)] inside
    runs with a valid handle, hence from the test of [enable] on. *)
Definition TIM2_PWM_Init (found : bool) : bool * list Pwm :=
  if found then
    (true, rt_pwm_enable PWM_DEV_CHANNEL :: lock_drive 1
             ++ [rt_kprintf msg_init_success])
  else (false, [rt_kprintf msg_cant_find]).

Definition lock (enable : Z) (found servo_dev : bool) : bool * list Pwm :=
  if servo_dev then (true, lock_drive enable)
  else
    let '(servo_dev, out) := TIM2_PWM_Init found in
    if servo_dev then (true, out ++ lock_drive enable)
    else (false, out).

End timer.

(** ** Start-up: [main] (main.c)

    The calls [main] makes, those of the tasks wrapped in [task_cmd];
    [key_created] and [lcd_created] tell whether [rt_thread_create] returned
    a thread.  The result is [RT_EOK], that is 0. *)

Inductive BootText := text_starting | text_started.

Inductive Thread := key_logic | lcd_show.

Inductive MainCall :=
| key_init
| TIM2_PWM_Init
| LCD_Init_RTT
| LCD_DrawLine (x1 y1 x2 y2 color : Z)
| boot_ShowChinese (x y : Z) (s : BootText) (fc bc sizey mode : Z)
| task_cmd (c : Cmd)
| rt_thread_create (name : Thread) (stack_size priority tick : Z)
| rt_thread_startup (name : Thread).

Definition main (key_created lcd_created : bool) : Z * list MainCall :=
  (0,
   [ key_init; TIM2_PWM_Init; task_cmd (lock 1);
     LCD_Init_RTT; task_cmd (LCD_Fill 0 0 127 127 WHITE);
     boot_ShowChinese 20 50 text_starting RED WHITE 16 0 ]
   ++ (seqZ 0 128 ≫= λ i, [ LCD_DrawLine i 100 i 128 RED;
                             task_cmd (rt_thread_mdelay 10) ])
   ++ [ boot_ShowChinese 20 50 text_started RED WHITE 16 0;
        task_cmd (rt_thread_mdelay 500);
        task_cmd (LCD_ShowPicture 0 0 128 128 gImage_1);
        task_cmd (rt_thread_mdelay 1000);
        task_cmd (LCD_ShowPicture 0 0 128 128 gImage_2);
        task_cmd (LCD_ShowChinese 0 0 prompt_locked_enter_password
                                  BLUE WHITE 16 0);
        task_cmd (LCD_Fill 16 45 112 60 YELLOW) ]
   ++ rt_thread_create key_logic 2048 20 10
   :: (if key_created then [rt_thread_startup key_logic] else [])
   ++ rt_thread_create lcd_show 2048 21 10
   :: (if lcd_created then [rt_thread_startup lcd_show] else [])).

(** What [key_process_thread_entry] calls before its loop. *)
Definition key_process_thread_init : list MainCall :=
  [key_init; TIM2_PWM_Init].

(** The calls of a run on the actuator driver: each [TIM2_PWM_Init] and each
    [lock] of the list, in order, from the handle [servo_dev]. *)
Fixpoint drive (found : bool) (cs : list MainCall) (servo_dev : bool)
    : bool * list Pwm :=
  match cs with
  | [] => (servo_dev, [])
  | c :: rest =>
      let '(dev, out) :=
        match c with
        | TIM2_PWM_Init => timer.TIM2_PWM_Init found
        | task_cmd (lock enable) => timer.lock enable found servo_dev
        | _ => (servo_dev, [])
        end in
      let '(dev', out') := drive found rest dev in
      (dev', out ++ out')
  end.

(** The pulse width the servo was last given. *)
Definition servo_pulse (out : list Pwm) : option Z :=
  last (omap (λ e, match e with
                   | rt_pwm_set _ _ pulse => Some pulse
                   | _ => None
                   end) out).

(** All calls from reset to a state of the tasks. *)
Definition calls_since_reset (key_created lcd_created : bool) (st : State)
    : list MainCall :=
  (main key_created lcd_created).2 ++ key_process_thread_init
    ++ (task_cmd <$> trace st).

(** ** The LCD driver (lcd.c)

    What the driver does to the panel: the levels it gives the control pins
    and the bytes it sends over SPI.  A [u16] is a [Z] in [0, 65536), a
    [u32] a [Z] in [0, 2 ^ 32). *)

Definition wrap32 (z : Z) : Z := z mod 2 ^ 32.

Definition is_u16 (z : Z) : Prop := 0 <= z < 65536.

Inductive Bus :=
| LCD_DC (high : bool)
| LCD_RES (high : bool)
| LCD_BLK (high : bool)
| rt_spi_send (bytes : list Z)
| lcd_mdelay (ms : Z).

Module lcd.

Definition USE_HORIZONTAL : Z := 1.

Definition LCD_Writ_Bus (dat : Z) : list Bus := [rt_spi_send [dat]].

Definition LCD_WR_DATA8 (dat : Z) : list Bus :=
  LCD_DC true :: LCD_Writ_Bus dat.

(** [buf[0] = dat >> 8; buf[1] = dat & 0xff;] *)
Definition LCD_WR_DATA (dat : Z) : list Bus :=
  [LCD_DC true;
   rt_spi_send [wrap8 (Z.shiftr dat 8); wrap8 (Z.land dat 0xff)]].

Definition LCD_WR_REG (dat : Z) : list Bus :=
  LCD_DC false :: LCD_Writ_Bus dat.

(** The window registers, with the offsets of the orientation. *)
Definition set_window (dx dy x1 y1 x2 y2 : Z) : list Bus :=
  LCD_WR_REG 0x2a ++ LCD_WR_DATA (wrap16 (x1 + dx))
    ++ LCD_WR_DATA (wrap16 (x2 + dx))
    ++ LCD_WR_REG 0x2b ++ LCD_WR_DATA (wrap16 (y1 + dy))
    ++ LCD_WR_DATA (wrap16 (y2 + dy))
    ++ LCD_WR_REG 0x2c.

Definition LCD_Address_Set (x1 y1 x2 y2 : Z) : list Bus :=
  if decide (USE_HORIZONTAL = 0) then set_window 2 1 x1 y1 x2 y2
  else if decide (USE_HORIZONTAL = 1) then set_window 2 3 x1 y1 x2 y2
  else if decide (USE_HORIZONTAL = 2) then set_window 1 2 x1 y1 x2 y2
  else set_window 3 2 x1 y1 x2 y2.

(** [for (i = ysta; i < yend; i++) for (j = xsta; j < xend; j++)
      LCD_WR_DATA (color);] *)
Definition LCD_Fill (xsta ysta xend yend color : Z) : list Bus :=
  LCD_Address_Set xsta ysta (wrap16 (xend - 1)) (wrap16 (yend - 1))
    ++ (seqZ ysta (yend - ysta) ≫= λ i,
        seqZ xsta (xend - xsta) ≫= λ j, LCD_WR_DATA color).

Definition LCD_DrawPoint (x y color : Z) : list Bus :=
  LCD_Address_Set x y x y ++ LCD_WR_DATA color.

(** The loop of [LCD_DrawLine]: the points handed to [LCD_DrawPoint], as the
    [u16] arguments they become.  [t] is a [u16], the other variables are
    [int]s, which stay far from the bounds of the type.  The loop may not
    end: [None] when [fuel] iterations did not reach its exit. *)
Fixpoint DrawLine_loop (fuel : nat) (t delta_x delta_y distance incx incy
    xerr yerr uRow uCol : Z) : option (list (Z * Z)) :=
  match fuel with
  | O => None
  | S fuel' =>
      if decide (t < distance + 1) then
        let point := (wrap16 uRow, wrap16 uCol) in
        let xerr := xerr + delta_x in
        let yerr := yerr + delta_y in
        let '(xerr, uRow) :=
          if decide (xerr > distance) then (xerr - distance, uRow + incx)
          else (xerr, uRow) in
        let '(yerr, uCol) :=
          if decide (yerr > distance) then (yerr - distance, uCol + incy)
          else (yerr, uCol) in
        rest ← DrawLine_loop fuel' (wrap16 (t + 1)) delta_x delta_y distance
                 incx incy xerr yerr uRow uCol;
        Some (point :: rest)
      else Some []
  end.

(** The points of [LCD_DrawLine].  In the last case of the second test the
    source assigns [-delta_x] to [delta_y]. *)
Definition DrawLine_points (fuel : nat) (x1 y1 x2 y2 : Z)
    : option (list (Z * Z)) :=
  let delta_x := x2 - x1 in
  let delta_y := y2 - y1 in
  let uRow := x1 in
  let uCol := y1 in
  let '(incx, delta_x) :=
    if decide (delta_x > 0) then (1, delta_x)
    else if decide (delta_x = 0) then (0, delta_x)
    else (-1, - delta_x) in
  let '(incy, delta_y) :=
    if decide (delta_y > 0) then (1, delta_y)
    else if decide (delta_y = 0) then (0, delta_y)
    else (-1, - delta_x) in
  let distance := if decide (delta_x > delta_y) then delta_x else delta_y in
  DrawLine_loop fuel 0 delta_x delta_y distance incx incy 0 0 uRow uCol.

Definition LCD_DrawLine (fuel : nat) (x1 y1 x2 y2 color : Z)
    : option (list Bus) :=
  points ← DrawLine_points fuel x1 y1 x2 y2;
  Some (points ≫= λ p, LCD_DrawPoint p.1 p.2 color).

(** [u32 result = 1; while (n--) result *= m;] *)
Fixpoint mypow_from (n : nat) (m result : Z) : Z :=
  match n with
  | O => result
  | S n' => mypow_from n' m (wrap32 (result * m))
  end.

Definition mypow (m n : Z) : Z := mypow_from (Z.to_nat n) m 1.

(** The loop of [LCD_ShowIntNum], [n] iterations from [t] on; the glyphs
    are the calls to [LCD_ShowChar].  A division by 0 is undefined. *)
Fixpoint ShowIntNum_loop (n : nat) (t enshow x y num len fc bc sizey : Z)
    : option (list Cmd) :=
  match n with
  | O => Some []
  | S n' =>
      let sizex := sizey / 2 in
      let p := mypow 10 (wrap8 (len - t - 1)) in
      if decide (p = 0) then None
      else
        let temp := wrap8 ((num / p) mod 10) in
        if decide (enshow = 0 ∧ t < len - 1) then
          if decide (temp = 0) then
            rest ← ShowIntNum_loop n' (t + 1) enshow x y num len fc bc sizey;
            Some (LCD_ShowChar (wrap16 (x + t * sizex)) y 32 fc bc sizey 0
                    :: rest)
          else
            rest ← ShowIntNum_loop n' (t + 1) 1 x y num len fc bc sizey;
            Some (LCD_ShowChar (wrap16 (x + t * sizex)) y (wrap8 (temp + 48))
                               fc bc sizey 0 :: rest)
        else
          rest ← ShowIntNum_loop n' (t + 1) enshow x y num len fc bc sizey;
          Some (LCD_ShowChar (wrap16 (x + t * sizex)) y (wrap8 (temp + 48))
                             fc bc sizey 0 :: rest)
  end.

Definition LCD_ShowIntNum (x y num len fc bc sizey : Z) : option (list Cmd) :=
  ShowIntNum_loop (Z.to_nat len) 0 0 x y num len fc bc sizey.

(** The loop of [LCD_ShowString] on the bytes of the string that are left,
    the terminating 0 not included: an empty list is the terminator.  The
    glyphs are the calls to [LCD_ShowChar]. *)
Fixpoint ShowString_loop (p : list Z) (x y temp fc bc sizey mode : Z)
    : list Cmd :=
  match p with
  | [] => []
  | c :: p1 =>
      if decide (c = 0) then []
      else
        let glyph := LCD_ShowChar x y c fc bc sizey mode in
        let x := wrap16 (x + sizey / 2) in
        let '(x, y) :=
          if decide (x > 120) then (temp, wrap16 (y + sizey)) else (x, y) in
        glyph :: ShowString_loop p1 x y temp fc bc sizey mode
  end.

Definition LCD_ShowString (x y : Z) (p : list Z) (fc bc sizey mode : Z)
    : list Cmd :=
  ShowString_loop p x y x fc bc sizey mode.

(** [n] runs of a loop body. *)
Fixpoint times {S : Type} (n : nat) (body : S → option S) (s : S) : option S :=
  match n with
  | O => Some s
  | S n' => s' ← body s; times n' body s'
  end.

(** [LCD_WR_DATA8 (pic[k*2]); LCD_WR_DATA8 (pic[k*2+1]); k++;] on the pair
    of [k] and the bytes sent so far. *)
Definition ShowPicture_body (pic : list Z) (s : Z * list Bus)
    : option (Z * list Bus) :=
  a ← load pic (s.1 * 2);
  b ← load pic (s.1 * 2 + 1);
  Some (wrap16 (s.1 + 1), s.2 ++ LCD_WR_DATA8 a ++ LCD_WR_DATA8 b).

Definition LCD_ShowPicture (x y length width : Z) (pic : list Z)
    : option (list Bus) :=
  s ← times (Z.to_nat length) (times (Z.to_nat width) (ShowPicture_body pic))
        (0, LCD_Address_Set x y (wrap16 (x + length - 1))
                            (wrap16 (y + width - 1)));
  Some s.2.

(** One byte of a glyph in the mode that overwrites: bit [t] of [temp]
    chooses the colour of pixel [t]. *)
Definition ShowChar_byte (temp fc bc : Z) : list Bus :=
  seqZ 0 8 ≫= λ t,
    if decide (Z.land temp (Z.shiftl 1 t) ≠ 0) then LCD_WR_DATA fc
    else LCD_WR_DATA bc.

(** One byte of a glyph in the mode that overlays, at most [n] bits from bit
    [t] on: the set bits are drawn as points, [x] and [y] walk over the cell
    and the loop is left at the end of a pixel row. *)
Fixpoint ShowChar_overlay (n : nat) (t temp x y x0 sizex fc : Z)
    : Z * Z * list Bus :=
  match n with
  | O => (x, y, [])
  | S n' =>
      let out :=
        if decide (Z.land temp (Z.shiftl 1 t) ≠ 0) then LCD_DrawPoint x y fc
        else [] in
      let x := wrap16 (x + 1) in
      if decide (x - x0 = sizex) then (x0, wrap16 (y + 1), out)
      else
        let '(x', y', rest) :=
          ShowChar_overlay n' (t + 1) temp x y x0 sizex fc in
        (x', y', out ++ rest)
  end.

(** The loop of [LCD_ShowChar] over the bytes [i], [i + 1], ... of the
    glyph, [n] of them; [font16] and [font32] are the tables [ascii_1608]
    and [ascii_3216] of the font header. *)
Fixpoint ShowChar_loop (font16 font32 : list (list Z)) (n : nat)
    (i x y x0 num fc bc sizey sizex mode : Z) : option (list Bus) :=
  match n with
  | O => Some []
  | S n' =>
      if decide (sizey = 16 ∨ sizey = 32) then
        row ← (if decide (sizey = 16) then font16 else font32)
                !! Z.to_nat num;
        temp ← load row i;
        if decide (mode = 0) then
          rest ← ShowChar_loop font16 font32 n' (i + 1) x y x0 num fc bc
                   sizey sizex mode;
          Some (ShowChar_byte temp fc bc ++ rest)
        else
          let '(x', y', out) := ShowChar_overlay 8 0 temp x y x0 sizex fc in
          rest ← ShowChar_loop font16 font32 n' (i + 1) x' y' x0 num fc bc
                   sizey sizex mode;
          Some (out ++ rest)
      else Some []
  end.

Definition LCD_ShowChar (font16 font32 : list (list Z))
    (x y num fc bc sizey mode : Z) : option (list Bus) :=
  let sizex := sizey / 2 in
  let TypefaceNum := wrap16 (sizex / 8 * sizey) in
  let num := wrap8 (num - 32) in
  rest ← ShowChar_loop font16 font32 (Z.to_nat TypefaceNum) 0 x y x num
           fc bc sizey sizex mode;
  Some (LCD_Address_Set x y (wrap16 (x + sizex - 1)) (wrap16 (y + sizey - 1))
          ++ rest).

(** The calls [LCD_ShowChinese] makes: the glyph routine of the size, with
    the position and the offset in the string of the character to draw. *)
Inductive Glyph :=
| LCD_ShowChinese16x16 (x y offset fc bc sizey mode : Z)
| LCD_ShowChinese24x24 (x y offset fc bc sizey mode : Z)
| LCD_ShowChinese32x32 (x y offset fc bc sizey mode : Z).

(** The loop of [LCD_ShowChinese] on the bytes of the string that are left,
    the terminating 0 not included: an empty list is the terminator.  The
    step [s += 2] on a single byte left passes the terminator, and the next
    test reads outside the string. *)
Fixpoint ShowChinese_loop (s : list Z) (offset x y temp fc bc sizey mode : Z)
    : option (list Glyph) :=
  match s with
  | [] => Some []
  | c :: s1 =>
      if decide (c = 0) then Some []
      else if decide (sizey = 16 ∨ sizey = 24 ∨ sizey = 32) then
        let glyph :=
          if decide (sizey = 16) then
            LCD_ShowChinese16x16 x y offset fc bc sizey mode
          else if decide (sizey = 24) then
            LCD_ShowChinese24x24 x y offset fc bc sizey mode
          else LCD_ShowChinese32x32 x y offset fc bc sizey mode in
        let x := wrap16 (x + sizey) in
        let '(x, y) :=
          if decide (x > 120) then (temp, wrap16 (y + sizey)) else (x, y) in
        match s1 with
        | [] => None
        | _ :: s2 =>
            rest ← ShowChinese_loop s2 (offset + 2) x y temp fc bc sizey mode;
            Some (glyph :: rest)
        end
      else Some []
  end.

Definition LCD_ShowChinese (x y : Z) (s : list Z) (fc bc sizey mode : Z)
    : option (list Glyph) :=
  ShowChinese_loop s 0 x y x fc bc sizey mode.

(** [LCD_DrawRectangle]: four lines. *)
Definition DrawRectangle_points (fuel : nat) (x1 y1 x2 y2 : Z)
    : option (list (Z * Z)) :=
  top ← DrawLine_points fuel x1 y1 x2 y1;
  left ← DrawLine_points fuel x1 y1 x1 y2;
  bottom ← DrawLine_points fuel x1 y2 x2 y2;
  right ← DrawLine_points fuel x2 y1 x2 y2;
  Some (top ++ left ++ bottom ++ right).

Definition LCD_DrawRectangle (fuel : nat) (x1 y1 x2 y2 color : Z)
    : option (list Bus) :=
  points ← DrawRectangle_points fuel x1 y1 x2 y2;
  Some (points ≫= λ p, LCD_DrawPoint p.1 p.2 color).

End lcd.

Import lcd (Glyph, LCD_ShowChinese16x16, LCD_ShowChinese24x24,
            LCD_ShowChinese32x32).

(** The call [LCD_ShowChinese] makes for one character of size [sizey]. *)
Definition chinese_glyph (sizey x y offset fc bc mode : Z) : Glyph :=
  if decide (sizey = 16) then LCD_ShowChinese16x16 x y offset fc bc sizey mode
  else if decide (sizey = 24) then
    LCD_ShowChinese24x24 x y offset fc bc sizey mode
  else LCD_ShowChinese32x32 x y offset fc bc sizey mode.

(** The 16-bit words a piece of SPI traffic carries as data. *)
Definition bus_words (out : list Bus) : list Z :=
  omap (λ e, match e with
             | rt_spi_send [hi; lo] => Some (hi * 256 + lo)
             | _ => None
             end) out.

(** The value of a glyph of [LCD_ShowIntNum]: a blank counts as 0. *)
Definition glyph_digit (c : Cmd) : Z :=
  match c with
  | LCD_ShowChar _ _ num _ _ _ _ => if decide (num = 32) then 0 else num - 48
  | _ => 0
  end.

(** The number a row of decimal digits writes. *)
Definition decimal (digits : list Z) : Z :=
  foldl (λ acc d, 10 * acc + d) 0 digits.

(** ** Properties of [string_chek] *)

Section StringChek.
Implicit Types (s t : list Z) (n i : nat).

Lemma string_chek_from_defined n s t :
  (n ≤ length s)%nat → (n ≤ length t)%nat →
  string_chek_from n s t = Some 1 ∨ string_chek_from n s t = Some 0.
Proof.
  induction n as [|n IH]; intros H1 H2; simpl; [by left|].
  destruct (lookup_lt_is_Some_2 s n) as [a ->]; [lia|].
  destruct (lookup_lt_is_Some_2 t n) as [b ->]; [lia|].
  simpl. case_decide; [apply IH; lia | by right].
Qed.

Lemma string_chek_from_match n s t :
  (n ≤ length s)%nat → (n ≤ length t)%nat →
  string_chek_from n s t = Some 1 ↔
  ∀ i, (i < n)%nat → s !! i = t !! i.
Proof.
  induction n as [|n IH]; intros H1 H2; simpl.
  { split; [intros _ i Hi; lia | done]. }
  destruct (lookup_lt_is_Some_2 s n) as [a Ha]; [lia|].
  destruct (lookup_lt_is_Some_2 t n) as [b Hb]; [lia|].
  rewrite Ha, Hb. simpl. case_decide as Hab.
  - subst b. rewrite IH by lia. split.
    + intros Hlt i Hi. destruct (decide (i = n)) as [->|Hne].
      * by rewrite Ha, Hb.
      * apply Hlt. lia.
    + intros Hall i Hi. apply Hall. lia.
  - split; [done|]. intros Hall. exfalso. apply Hab.
    specialize (Hall n ltac:(lia)). rewrite Ha, Hb in Hall. by inversion Hall.
Qed.

Lemma string_chek_from_mismatch n s t i :
  (n ≤ length s)%nat → (n ≤ length t)%nat →
  (i < n)%nat → s !! i ≠ t !! i →
  string_chek_from n s t = Some 0.
Proof.
  intros H1 H2 Hi Hne.
  destruct (string_chek_from_defined n s t H1 H2) as [Hok|]; [|done].
  exfalso. apply Hne. by apply (string_chek_from_match n s t H1 H2).
Qed.
End StringChek.

(** C1.  For a [u8] length [n] and buffers that hold at least [n] elements,
    [string_chek entered reference n] returns 1 exactly when the buffers agree
    at every index below [n], and returns 0 as soon as one position differs,
    in particular position 0 or position [n - 1]; it always returns one of
    the two. *)
Theorem string_chek_correct (entered reference : list Z) (n : Z) :
  is_u8 n →
  n <= Z.of_nat (length entered) →
  n <= Z.of_nat (length reference) →
  (string_chek entered reference n = Some 1 ↔
     ∀ i : nat, (i < Z.to_nat n)%nat → entered !! i = reference !! i)
  ∧ (∀ i : nat, (i < Z.to_nat n)%nat → entered !! i ≠ reference !! i →
       string_chek entered reference n = Some 0)
  ∧ (0 < n → entered !! 0%nat ≠ reference !! 0%nat →
       string_chek entered reference n = Some 0)
  ∧ (0 < n → entered !! Z.to_nat (n - 1) ≠ reference !! Z.to_nat (n - 1) →
       string_chek entered reference n = Some 0)
  ∧ (string_chek entered reference n = Some 1
     ∨ string_chek entered reference n = Some 0).
Proof.
  intros _ H1 H2. unfold string_chek.
  assert (Z.to_nat n ≤ length entered)%nat as L1 by lia.
  assert (Z.to_nat n ≤ length reference)%nat as L2 by lia.
  split; [by apply string_chek_from_match|].
  split; [intros i; by apply string_chek_from_mismatch|].
  split; [intros Hn; apply string_chek_from_mismatch; [done|done|lia]|].
  split; [intros Hn; apply string_chek_from_mismatch; [done|done|lia]|].
  by apply string_chek_from_defined.
Qed.

Lemma string_chek_correct_witness :
  string_chek [1; 2; 3; 4; 5; 6; 0] [1; 2; 3; 4; 5; 6] 6 = Some 1
  ∧ string_chek [9; 2; 3; 4; 5; 6; 0] [1; 2; 3; 4; 5; 6] 6 = Some 0
  ∧ string_chek [1; 2; 3; 4; 5; 9; 0] [1; 2; 3; 4; 5; 6] 6 = Some 0.
Proof.
  split; [|split].
  - destruct (string_chek_correct [1; 2; 3; 4; 5; 6; 0] [1; 2; 3; 4; 5; 6] 6)
      as [Hiff _]; [unfold is_u8; lia | simpl; lia | simpl; lia |].
    apply Hiff. intros i Hi.
    do 6 (destruct i as [|i]; [reflexivity|]). simpl in Hi. lia.
  - destruct (string_chek_correct [9; 2; 3; 4; 5; 6; 0] [1; 2; 3; 4; 5; 6] 6)
      as (_ & _ & Hfirst & _); [unfold is_u8; lia | simpl; lia | simpl; lia |].
    apply Hfirst; [lia | simpl; congruence].
  - destruct (string_chek_correct [1; 2; 3; 4; 5; 9; 0] [1; 2; 3; 4; 5; 6] 6)
      as (_ & _ & _ & Hlast & _);
      [unfold is_u8; lia | simpl; lia | simpl; lia |].
    apply Hlast; [lia | simpl; congruence].
Defined.

(** C10.  With length 0 the loop body never runs: [string_chek] returns 1
    whatever the two buffers hold. *)
Theorem string_chek_zero_length (entered reference : list Z) :
  string_chek entered reference 0 = Some 1.
Proof. reflexivity. Qed.


(** ** Basic facts about the state operations *)

Lemma calls_unfold (cs : list Cmd) (st : State) :
  calls cs st =
  mkState (password st) (key_temp st) (key_index st) (key_index_old st)
          (key_old st) (trace st ++ cs).
Proof.
  unfold calls. revert st.
  induction cs as [|c cs IH]; intros st; simpl.
  - rewrite app_nil_r. by destruct st.
  - rewrite IH. simpl. by rewrite <- app_assoc.
Qed.

Lemma store_in_range (a : list Z) (i v : Z) :
  0 <= i < Z.of_nat (length a) → store a i v = Some (<[Z.to_nat i := v]> a).
Proof. intros Hi. unfold store. by rewrite decide_True. Qed.

(** The clearing loop writes all seven slots of a seven-slot buffer. *)
Lemma clear_key_temp_zeroes (st : State) :
  length (key_temp st) = 7%nat →
  clear_key_temp st = Some (set_key_temp [0; 0; 0; 0; 0; 0; 0] st).
Proof.
  destruct st as [pw kt ki kio ko tr]. simpl. intros Hlen.
  do 7 (destruct kt as [|? kt]; [simpl in Hlen; lia|]).
  destruct kt as [|? kt]; [|simpl in Hlen; lia].
  reflexivity.
Qed.

(** ** Edge detection *)

Lemma wrap8_small (z : Z) : is_u8 z → wrap8 z = z.
Proof. intros Hz. unfold wrap8. by apply Z.mod_small. Qed.

Lemma edge_detect_held (code : Z) : edge_detect code code = 0.
Proof.
  unfold edge_detect. by rewrite Z.lxor_nilpotent, Z.land_0_r.
Qed.

Lemma edge_detect_release (key_old : Z) : edge_detect 0 key_old = 0.
Proof. unfold edge_detect. by rewrite Z.land_0_l. Qed.

Lemma edge_detect_press (code : Z) : is_u8 code → edge_detect code 0 = code.
Proof.
  intros Hc. unfold edge_detect.
  rewrite Z.lxor_0_r, Z.land_diag. by apply wrap8_small.
Qed.

(** A key pressed after a scan that read no key: the switch receives the
    code of that key. *)
Lemma key_process_loop_body_press (key_val : Z) (st : State) :
  key_old st = 0 → is_u8 key_val → key_val ≠ 0 →
  key_process_loop_body key_val st =
  switch_key_down key_val (set_key_old key_val st)
    ≫= λ st', Some (call (rt_thread_mdelay 10) st').
Proof.
  intros Hold Hu8 Hnz. unfold key_process_loop_body.
  rewrite Hold, edge_detect_press by done. by rewrite decide_True.
Qed.

Lemma key_down_events_app (key_old : Z) (xs ys : list Z) :
  key_down_events key_old (xs ++ ys) =
  key_down_events key_old xs ++ key_down_events (default key_old (last xs)) ys.
Proof.
  revert key_old. induction xs as [|x xs IH]; intros key_old; [done|].
  simpl. rewrite IH, last_cons. do 3 f_equal.
  by destruct (last xs).
Qed.

Lemma key_down_events_held (code : Z) (n : nat) :
  key_down_events code (replicate n code) = replicate n 0.
Proof.
  induction n as [|n IH]; [done|].
  simpl. by rewrite edge_detect_held, IH.
Qed.

(** While the scan keeps returning the code it returned last, an iteration of
    the key task does nothing but sleep. *)
Lemma key_process_held (code : Z) (n : nat) (st : State) :
  key_old st = code →
  key_process_thread_entry (replicate n code) st =
  Some (calls (replicate n (rt_thread_mdelay 10)) st).
Proof.
  revert st. induction n as [|n IH]; intros st Hold; [done|].
  cbn [replicate key_process_thread_entry].
  unfold key_process_loop_body. rewrite Hold, edge_detect_held.
  rewrite decide_False by auto. cbn [mbind option_bind].
  rewrite IH by done. f_equal.
  destruct st; simpl in *; subst; reflexivity.
Qed.

Lemma last_replicate_default (code : Z) (n : nat) :
  default code (last (replicate n code)) = code.
Proof.
  destruct n as [|n]; [done|].
  replace (replicate (S n) code) with (replicate n code ++ [code]).
  - by rewrite last_snoc.
  - clear. induction n as [|n IH]; [done|]. simpl. by rewrite IH.
Qed.

(** C2.  The edge detection is wrong when the scan code changes from one
    nonzero code to another: with code 1 held and code 3 read next, the event
    is 2, not 3, and the key task records the digit 2 after the digit 1; with
    code 3 held and code 1 read next, no event fires at all. *)
Theorem edge_detect_second_key_misread :
  edge_detect 3 1 = 2
  ∧ edge_detect 1 3 = 0
  ∧ ∃ st', key_process_thread_entry [1; 3] initial_state = Some st'
           ∧ key_temp st' = [1; 2; 0; 0; 0; 0; 0]
           ∧ key_index st' = 2.
Proof.
  split; [reflexivity|]. split; [reflexivity|].
  eexists. split; [vm_compute; reflexivity|]. split; reflexivity.
Qed.

(** ** The switch, case by case *)

Lemma switch_key_down_cases (key_down : Z) (st : State) :
  (∃ num, switch_key_down key_down st = append_digit num st)
  ∨ switch_key_down key_down st = clear_key st
  ∨ switch_key_down key_down st = confirm_key st
  ∨ switch_key_down key_down st = Some st.
Proof.
  destruct key_down as [|p|p]; [by do 3 right| |by do 3 right].
  do 4 (try destruct p as [p|p|]); try (by do 3 right).
  all: try (by right; right; left).
  all: try (by right; left).
  all: left; eexists; reflexivity.
Qed.

(** ** The key task on a run of one code *)

Lemma for_range_key_old (n : nat) :
  ∀ (from : Z) (body : Z → State → option State) (st st' : State),
    (∀ i s s', body i s = Some s' → key_old s' = key_old s) →
    for_range from n body st = Some st' → key_old st' = key_old st.
Proof.
  induction n as [|n IH]; intros from body st st' Hbody Hrun.
  - by injection Hrun as <-.
  - cbn [for_range] in Hrun.
    destruct (body from st) as [s|] eqn:Hs; [|done].
    cbn [mbind option_bind] in Hrun.
    rewrite (IH _ _ _ _ Hbody Hrun). by eapply Hbody.
Qed.

Lemma clear_key_temp_key_old (st st' : State) :
  clear_key_temp st = Some st' → key_old st' = key_old st.
Proof.
  unfold clear_key_temp. apply for_range_key_old. intros i s s' Hs.
  destruct (store (key_temp s) i 0) as [kt|]; [|done].
  by injection Hs as <-.
Qed.

Lemma append_digit_key_old (num : Z) (st st' : State) :
  append_digit num st = Some st' → key_old st' = key_old st.
Proof.
  unfold append_digit. case_decide; [|by intros [= <-]].
  destruct (store (key_temp st) (key_index st) num) as [kt|]; [|done].
  by intros [= <-].
Qed.

Lemma confirm_key_key_old (st st' : State) :
  confirm_key st = Some st' → key_old st' = key_old st.
Proof.
  unfold confirm_key. cbn [key_temp password set_key_index].
  destruct (string_chek (key_temp st) (password st) 6) as [ok|]; [|done].
  cbn [mbind option_bind]. intros Hclear%clear_key_temp_key_old.
  rewrite Hclear. case_decide; by rewrite calls_unfold.
Qed.

(** The switch does not write [key_old]. *)
Lemma switch_key_down_key_old (key_down : Z) (st st' : State) :
  switch_key_down key_down st = Some st' → key_old st' = key_old st.
Proof.
  intros Hsw.
  destruct (switch_key_down_cases key_down st) as [[num Hc]|[Hc|[Hc|Hc]]];
    rewrite Hc in Hsw.
  - by eapply append_digit_key_old.
  - unfold clear_key in Hsw. by apply clear_key_temp_key_old in Hsw.
  - by apply confirm_key_key_old.
  - by injection Hsw as <-.
Qed.

(** After an iteration of the key task [key_old] is the code it scanned. *)
Lemma key_process_loop_body_key_old (key_val : Z) (st st' : State) :
  key_process_loop_body key_val st = Some st' → key_old st' = key_val.
Proof.
  unfold key_process_loop_body. cbv zeta. intros Hbody.
  destruct (decide (edge_detect key_val (key_old st) ≠ 0)).
  - destruct (switch_key_down _ _) as [s|] eqn:Hs; [|done].
    injection Hbody as <-. cbn [key_old call].
    by rewrite (switch_key_down_key_old _ _ _ Hs).
  - by injection Hbody as <-.
Qed.

Lemma key_process_thread_entry_app (xs ys : list Z) (st : State) :
  key_process_thread_entry (xs ++ ys) st =
  key_process_thread_entry xs st ≫= key_process_thread_entry ys.
Proof.
  revert st. induction xs as [|x xs IH]; intros st; [done|].
  cbn [app key_process_thread_entry].
  destruct (key_process_loop_body x st) as [st1|]; [|done].
  cbn [mbind option_bind]. apply IH.
Qed.

(** After a run of the key task [key_old] is the last code scanned. *)
Lemma key_process_thread_entry_key_old (key_reads : list Z) (st st' : State) :
  key_process_thread_entry key_reads st = Some st' →
  key_old st' = default (key_old st) (last key_reads).
Proof.
  revert st. induction key_reads as [|x xs IH]; intros st Hrun.
  - by injection Hrun as <-.
  - cbn [key_process_thread_entry] in Hrun.
    destruct (key_process_loop_body x st) as [st1|] eqn:Hbody; [|done].
    cbn [mbind option_bind] in Hrun.
    rewrite (IH _ Hrun), (key_process_loop_body_key_old _ _ _ Hbody).
    rewrite last_cons. by destruct (last xs).
Qed.

Lemma key_down_events_lookup (key_reads : list Z) :
  ∀ (key_old : Z) (k : nat) (key_val : Z),
    key_reads !! k = Some key_val →
    key_down_events key_old key_reads !! k =
    Some (edge_detect key_val (default key_old (last (take k key_reads)))).
Proof.
  induction key_reads as [|x xs IH]; intros key_old k key_val Hk; [done|].
  destruct k as [|k].
  - by injection Hk as ->.
  - cbn [key_down_events lookup list_lookup take] in Hk |- *.
    etrans; [exact (IH x k key_val Hk)|].
    rewrite last_cons. by destruct (last (take k xs)).
Qed.

(** [key_down_events] lists the values of [key_down] in the key task:
    iteration [k] of the task, which starts in the state the first [k]
    iterations have reached, runs the switch on event [k] of the list when
    that event is not 0, and only stores the code and sleeps when it is. *)
Lemma key_process_loop_body_event (key_reads : list Z) (st stk : State)
    (k : nat) (key_val : Z) :
  key_process_thread_entry (take k key_reads) st = Some stk →
  key_reads !! k = Some key_val →
  ∃ key_down,
    key_down_events (key_old st) key_reads !! k = Some key_down
    ∧ key_process_loop_body key_val stk =
      (if decide (key_down ≠ 0)
       then switch_key_down key_down (set_key_old key_val stk)
       else Some (set_key_old key_val stk))
        ≫= λ s, Some (call (rt_thread_mdelay 10) s).
Proof.
  intros Hrun Hk. exists (edge_detect key_val (key_old stk)).
  split; [|reflexivity].
  rewrite (key_down_events_lookup _ _ _ _ Hk).
  by rewrite (key_process_thread_entry_key_old _ _ _ Hrun).
Qed.

(** From any state and after any scans, the ticks of a run that follow its
    first tick only sleep. *)
Lemma key_process_run (before after : list Z) (code : Z) (n : nat)
    (st : State) :
  key_process_thread_entry (before ++ replicate (S n) code ++ after) st =
  key_process_thread_entry (before ++ [code]) st
    ≫= λ st1, key_process_thread_entry after
                (calls (replicate n (rt_thread_mdelay 10)) st1).
Proof.
  replace (before ++ replicate (S n) code ++ after)
    with ((before ++ [code]) ++ replicate n code ++ after)
    by (by rewrite <- app_assoc).
  rewrite key_process_thread_entry_app.
  destruct (key_process_thread_entry (before ++ [code]) st) as [st1|] eqn:Hrun;
    [|done].
  cbn [mbind option_bind]. rewrite key_process_thread_entry_app.
  rewrite key_process_held; [done|].
  rewrite (key_process_thread_entry_key_old _ _ _ Hrun).
  by rewrite last_snoc.
Qed.

(** C6.  The key task fires at most one event per run of one code, for every
    sequence of scan codes and from every state.  The key task run on a
    sequence that holds a run of [S n] scans of one code does what it does up
    to the first scan of the run, then sleeps [n] times, then goes on with
    the scans after the run: no iteration after the first of a run executes
    the switch.  The values of [key_down] in the task are the list
    [key_down_events]: iteration [k] runs the switch on event [k] exactly
    when that event is not 0; in that list a run yields an event on its first
    tick at most and 0 on the following ticks.  While the scan repeats the
    code it returned last, the key task only sleeps; seven scans of one digit
    key from the initial state record exactly one digit. *)
Theorem one_key_event_per_run :
  (∀ (st : State) (before after : list Z) (code : Z) (n : nat),
     key_process_thread_entry (before ++ replicate (S n) code ++ after) st =
     key_process_thread_entry (before ++ [code]) st
       ≫= λ st1, key_process_thread_entry after
                   (calls (replicate n (rt_thread_mdelay 10)) st1))
  ∧ (∀ (key_reads : list Z) (st stk : State) (k : nat) (key_val : Z),
       key_process_thread_entry (take k key_reads) st = Some stk →
       key_reads !! k = Some key_val →
       ∃ key_down,
         key_down_events (key_old st) key_reads !! k = Some key_down
         ∧ key_process_loop_body key_val stk =
           (if decide (key_down ≠ 0)
            then switch_key_down key_down (set_key_old key_val stk)
            else Some (set_key_old key_val stk))
             ≫= λ s, Some (call (rt_thread_mdelay 10) s))
  ∧ (∀ (key_old : Z) (before after : list Z) (code : Z) (n : nat),
       key_down_events key_old (before ++ replicate (S n) code ++ after) =
       key_down_events key_old before
         ++ edge_detect code (default key_old (last before))
         :: replicate n 0
         ++ key_down_events code after)
  ∧ (∀ (st : State) (code : Z) (n : nat),
       key_process_thread_entry (replicate n code) (set_key_old code st) =
       Some (calls (replicate n (rt_thread_mdelay 10)) (set_key_old code st)))
  ∧ (∀ code : Z, is_digit_code code →
       key_down_events 0 (replicate 7 code) = code :: replicate 6 0
       ∧ ∃ st' digit,
           key_process_thread_entry (replicate 7 code) initial_state = Some st'
           ∧ key_index st' = 1
           ∧ 0 <= digit <= 9
           ∧ key_temp st' = [digit; 0; 0; 0; 0; 0; 0]).
Proof.
  split; [|split; [|split; [|split]]].
  - intros st before after code n. apply key_process_run.
  - intros key_reads st stk k key_val.
    apply key_process_loop_body_event.
  - intros key_old before after code n.
    rewrite key_down_events_app. f_equal.
    cbn [replicate app key_down_events]. f_equal.
    rewrite key_down_events_app, key_down_events_held.
    by rewrite last_replicate_default.
  - intros st code n. by apply key_process_held.
  - intros code Hcode. unfold is_digit_code in Hcode.
    rewrite !elem_of_cons, elem_of_nil in Hcode.
    repeat (destruct Hcode as [->|Hcode]); [..|done];
      (split; [reflexivity|]);
      eexists _, _; (split; [vm_compute; reflexivity|]);
      (split; [reflexivity|]); (split; [|reflexivity]); lia.
Qed.

Lemma one_key_event_per_run_witness :
  key_process_thread_entry ([5; 5; 5; 0; 0] ++ replicate 3 7 ++ [0; 0])
    initial_state
  = Some (mkState [1; 2; 3; 4; 5; 6] [4; 6; 0; 0; 0; 0; 0] 2 255 0
            (replicate 10 (rt_thread_mdelay 10)))
  ∧ (∃ key_down,
       key_down_events 0 [5; 5; 5; 0; 0; 7; 7; 7; 0; 0] !! 6%nat
       = Some key_down
       ∧ key_down = 0)
  ∧ key_down_events 0 (replicate 7 5) = 5 :: replicate 6 0.
Proof.
  destruct one_key_event_per_run as (Hrun & Hevent & _ & _ & Hseven).
  split; [|split].
  - rewrite (Hrun initial_state [5; 5; 5; 0; 0] [0; 0] 7 2%nat).
    vm_compute. reflexivity.
  - destruct (Hevent [5; 5; 5; 0; 0; 7; 7; 7; 0; 0] initial_state
                (mkState [1; 2; 3; 4; 5; 6] [4; 6; 0; 0; 0; 0; 0] 2 255 7
                   (replicate 6 (rt_thread_mdelay 10)))
                6%nat 7)
      as (key_down & Hk & _); [vm_compute; reflexivity|reflexivity|].
    exists key_down. split; [exact Hk|].
    vm_compute in Hk. by injection Hk as <-.
  - destruct (Hseven 5) as [Hev _]; [|exact Hev].
    unfold is_digit_code. rewrite !elem_of_cons. auto 10.
Defined.

(** ** The switch keeps the invariant *)

Lemma append_digit_inv (num : Z) (st : State) :
  inv st → ∃ st', append_digit num st = Some st' ∧ inv st'.
Proof.
  intros Hinv. pose proof Hinv as [[Hkt Hpw] Hki].
  unfold append_digit. case_decide as Hlt.
  - rewrite store_in_range by lia. simpl. eexists. split; [done|].
    unfold inv, arrays_ok. simpl. rewrite length_insert.
    rewrite wrap8_small by (unfold is_u8; lia). repeat split; try done; lia.
  - by exists st.
Qed.

Lemma clear_key_spec (st : State) :
  length (key_temp st) = 7%nat →
  clear_key st =
  Some (mkState (password st) [0; 0; 0; 0; 0; 0; 0] 0 (key_index_old st)
                (key_old st) (trace st)).
Proof.
  intros Hkt. unfold clear_key. by rewrite clear_key_temp_zeroes.
Qed.

Lemma confirm_key_spec (st : State) :
  arrays_ok st →
  ∃ ok, string_chek (key_temp st) (password st) 6 = Some ok
        ∧ (ok = 1 ∨ ok = 0)
        ∧ confirm_key st =
          Some (mkState (password st) [0; 0; 0; 0; 0; 0; 0] 0
                        (key_index_old st) (key_old st)
                        (trace st ++ if decide (ok ≠ 0) then unlock_sequence
                                     else alarm_sequence)).
Proof.
  intros [Hkt Hpw].
  destruct (string_chek_from_defined 6 (key_temp st) (password st))
    as [Hok|Hok]; [lia|lia| |].
  - exists 1. split; [done|]. split; [by left|].
    unfold confirm_key. cbn [key_temp password set_key_index].
    unfold string_chek. change (Z.to_nat 6) with 6%nat. rewrite Hok.
    cbn [mbind option_bind]. rewrite !decide_True by done.
    rewrite clear_key_temp_zeroes by (by rewrite calls_unfold).
    by rewrite calls_unfold.
  - exists 0. split; [done|]. split; [by right|].
    unfold confirm_key. cbn [key_temp password set_key_index].
    unfold string_chek. change (Z.to_nat 6) with 6%nat. rewrite Hok.
    cbn [mbind option_bind]. rewrite !decide_False by auto.
    rewrite clear_key_temp_zeroes by (by rewrite calls_unfold).
    by rewrite calls_unfold.
Qed.

Lemma switch_key_down_inv (key_down : Z) (st : State) :
  inv st → ∃ st', switch_key_down key_down st = Some st' ∧ inv st'.
Proof.
  intros Hinv.
  destruct (switch_key_down_cases key_down st)
    as [[num Hsw] | [Hsw | [Hsw | Hsw]]]; rewrite Hsw.
  - by apply append_digit_inv.
  - destruct Hinv as [[Hkt Hpw] Hki]. rewrite clear_key_spec by done.
    eexists. split; [done|]. repeat split; try done; simpl; lia.
  - destruct Hinv as [[Hkt Hpw] Hki].
    destruct (confirm_key_spec st) as (ok & _ & _ & ->); [done|].
    eexists. split; [done|]. repeat split; try done; simpl; lia.
  - by exists st.
Qed.

Lemma key_process_loop_body_inv (key_val : Z) (st : State) :
  inv st → ∃ st', key_process_loop_body key_val st = Some st' ∧ inv st'.
Proof.
  intros Hinv. unfold key_process_loop_body.
  assert (inv (set_key_old key_val st)) as Hinv' by done.
  case_decide.
  - destruct (switch_key_down_inv
                (edge_detect key_val (key_old st)) _ Hinv')
      as (st' & -> & Hst').
    by eexists.
  - by eexists.
Qed.

(** ** The display loop *)

Lemma show_digit_in_range (k : nat) (c : Z) (st : State) :
  key_temp st !! k = Some c →
  show_digit (Z.of_nat k) st =
  Some (call (LCD_ShowChar (wrap16 (20 + 16 * Z.of_nat k)) 45 (wrap8 (c + 48))
                           RED YELLOW 16 0) st).
Proof.
  intros Hc. unfold show_digit, load.
  rewrite decide_True by lia. by rewrite Nat2Z.id, Hc.
Qed.

Lemma show_digits_from (n k : nat) (st : State) :
  (k + n ≤ length (key_temp st))%nat →
  for_range (Z.of_nat k) n show_digit st =
  Some (calls (imap (λ j c, LCD_ShowChar (wrap16 (20 + 16 * Z.of_nat (k + j))) 45
                                         (wrap8 (c + 48)) RED YELLOW 16 0)
                    (take n (drop k (key_temp st))))
              st).
Proof.
  revert k st. induction n as [|n IH]; intros k st Hlen; [done|].
  cbn [for_range].
  destruct (lookup_lt_is_Some_2 (key_temp st) k) as [c Hc]; [lia|].
  rewrite (show_digit_in_range k c st Hc). cbn [mbind option_bind].
  replace (Z.of_nat k + 1) with (Z.of_nat (S k)) by lia.
  rewrite IH by (simpl; lia). f_equal.
  rewrite (drop_S _ _ _ Hc). cbn [take]. rewrite imap_cons.
  rewrite Nat.add_0_r. cbn [key_temp call].
  unfold calls. cbn [foldl]. f_equal.
  apply imap_ext. intros j x _. simpl. do 3 f_equal. lia.
Qed.

Lemma lcd_refresh_redraw (st : State) :
  length (key_temp st) = 7%nat →
  key_index st ≠ key_index_old st →
  let shown := if decide (key_index st > 6) then 6 else key_index st in
  lcd_refresh_loop_body st =
  Some (mkState (password st) (key_temp st) shown shown (key_old st)
          (trace st ++ LCD_Fill 16 45 112 60 YELLOW
             :: digit_glyphs (Z.to_nat shown) (key_temp st)
             ++ [rt_thread_mdelay 100])).
Proof.
  intros Hkt Hne shown. unfold lcd_refresh_loop_body.
  rewrite decide_True by done. cbn [key_index call].
  fold shown.
  assert (Z.to_nat shown ≤ 7)%nat as Hshown.
  { unfold shown. case_decide; lia. }
  set (st1 := if decide (key_index st > 6)
              then set_key_index 6 (call (LCD_Fill 16 45 112 60 YELLOW) st)
              else call (LCD_Fill 16 45 112 60 YELLOW) st).
  assert (st1 = mkState (password st) (key_temp st) shown (key_index_old st)
                        (key_old st)
                        (trace st ++ [LCD_Fill 16 45 112 60 YELLOW])) as ->.
  { unfold st1, shown. by case_decide. }
  cbn [key_index].
  rewrite (show_digits_from (Z.to_nat shown) 0) by (simpl; lia).
  cbn [mbind option_bind key_temp]. rewrite drop_0, calls_unfold.
  unfold set_key_index_old, call, digit_glyphs. simpl.
  by rewrite <- !app_assoc.
Qed.

Lemma lcd_refresh_idle (st : State) :
  key_index st = key_index_old st →
  lcd_refresh_loop_body st = Some (call (rt_thread_mdelay 100) st).
Proof.
  intros Heq. unfold lcd_refresh_loop_body. by rewrite decide_False by auto.
Qed.

Lemma lcd_refresh_loop_body_inv (st : State) :
  inv st → ∃ st', lcd_refresh_loop_body st = Some st' ∧ inv st'.
Proof.
  intros [[Hkt Hpw] Hki].
  destruct (decide (key_index st = key_index_old st)) as [Heq|Hne].
  - rewrite lcd_refresh_idle by done. eexists. split; [done|].
    repeat split; try done; simpl; lia.
  - rewrite lcd_refresh_redraw by done. eexists. split; [done|].
    rewrite decide_False by lia. repeat split; try done; simpl; lia.
Qed.

(** ** Reachable states *)

Lemma initial_state_inv : inv initial_state.
Proof. repeat split; simpl; lia. Qed.

Lemma step_inv (st st' : State) : step st st' → inv st → inv st'.
Proof.
  intros [key_val s s' _ Hbody|s s' Hbody] Hinv.
  - destruct (key_process_loop_body_inv key_val s Hinv) as (s'' & Heq & ?).
    congruence.
  - destruct (lcd_refresh_loop_body_inv s Hinv) as (s'' & Heq & ?).
    congruence.
Qed.

Lemma reachable_inv (st : State) : reachable st → inv st.
Proof.
  unfold reachable. intros Hreach.
  revert st Hreach.
  apply (rtc_ind_r (R := step) (λ s, inv s) initial_state);
    [apply initial_state_inv|].
  intros y z _ Hstep Hy. by eapply step_inv.
Qed.

(** No task gets stuck in a reachable state: every array access of the next
    iteration is in bounds. *)
Lemma reachable_progress (st : State) :
  reachable st →
  (∀ key_val, is_Some (key_process_loop_body key_val st))
  ∧ is_Some (lcd_refresh_loop_body st).
Proof.
  intros Hinv%reachable_inv. split.
  - intros key_val.
    destruct (key_process_loop_body_inv key_val st Hinv) as (st' & -> & _).
    by eexists.
  - destruct (lcd_refresh_loop_body_inv st Hinv) as (st' & -> & _).
    by eexists.
Qed.

(** ** The actuator *)

Lemma lock_calls_app (tr cs : list Cmd) :
  lock_calls (tr ++ cs) = lock_calls tr ++ lock_calls cs.
Proof. apply omap_app. Qed.

Lemma lock_position_app (tr cs : list Cmd) (enable : Z) :
  lock_position cs = Some enable → lock_position (tr ++ cs) = Some enable.
Proof.
  unfold lock_position. rewrite lock_calls_app, last_app. by intros ->.
Qed.

Lemma is_digit_code_nonzero (key_down : Z) :
  is_digit_code key_down → key_down ≠ 0.
Proof.
  unfold is_digit_code. rewrite !elem_of_cons, elem_of_nil. lia.
Qed.

Lemma switch_digit_when_full (key_down : Z) (st : State) :
  is_digit_code key_down → key_index st = 6 →
  switch_key_down key_down st = Some st.
Proof.
  unfold is_digit_code. rewrite !elem_of_cons, elem_of_nil. intros Hcode Hfull.
  repeat (destruct Hcode as [->|Hcode]); [..|done];
    cbn [switch_key_down]; unfold digit_key, append_digit;
    by rewrite Hfull.
Qed.

Lemma switch_key_downs_app (xs ys : list Z) (st : State) :
  switch_key_downs (xs ++ ys) st =
  switch_key_downs xs st ≫= switch_key_downs ys.
Proof.
  revert st. induction xs as [|x xs IH]; intros st; [done|].
  simpl. destruct (switch_key_down x st) as [st'|]; [|done].
  simpl. apply IH.
Qed.

Lemma switch_key_downs_inv (key_downs : list Z) (st : State) :
  inv st → ∃ st', switch_key_downs key_downs st = Some st' ∧ inv st'.
Proof.
  revert st. induction key_downs as [|k ks IH]; intros st Hinv.
  - by exists st.
  - destruct (switch_key_down_inv k st Hinv) as (st1 & Hst1 & Hinv1).
    destruct (IH st1 Hinv1) as (st2 & Hst2 & Hinv2).
    exists st2. split; [|done]. simpl. by rewrite Hst1.
Qed.

(** ** The claims on the key task *)

(** C3.  In every state the two tasks can reach, [key_index] is between 0 and
    6; a digit key arriving when [key_index] is 6 changes nothing: the switch
    returns the state as it was, and the whole loop iteration leaves
    [key_index] and [key_temp] as they were. *)
Theorem key_index_bounded_and_saturates :
  (∀ st, reachable st → 0 <= key_index st <= 6)
  ∧ (∀ st key_down,
       is_digit_code key_down → key_index st = 6 →
       switch_key_down key_down st = Some st)
  ∧ (∀ st key_val,
       is_digit_code (edge_detect key_val (key_old st)) → key_index st = 6 →
       ∃ st', key_process_loop_body key_val st = Some st'
              ∧ key_index st' = 6
              ∧ key_temp st' = key_temp st).
Proof.
  split; [|split].
  - intros st Hreach. by destruct (reachable_inv st Hreach) as [_ ?].
  - intros st key_down. apply switch_digit_when_full.
  - intros st key_val Hcode Hfull. unfold key_process_loop_body.
    rewrite decide_True by (by apply is_digit_code_nonzero).
    rewrite switch_digit_when_full by done.
    eexists. split; [done|]. by split.
Qed.

Lemma key_index_bounded_and_saturates_witness :
  0 <= key_index
         (mkState [1; 2; 3; 4; 5; 6] [1; 2; 0; 0; 0; 0; 0] 2 255 2
            (replicate 3 (rt_thread_mdelay 10))) <= 6
  ∧ switch_key_down 5 (set_key_index 6 initial_state)
    = Some (set_key_index 6 initial_state).
Proof.
  destruct key_index_bounded_and_saturates as (Hbound & Hfull & _).
  split.
  - apply Hbound.
    eapply rtc_l; [by apply (step_key 1); [unfold is_u8; lia|]|].
    eapply rtc_l; [by apply (step_key 0); [unfold is_u8; lia|]|].
    eapply rtc_l; [by apply (step_key 2); [unfold is_u8; lia|]|].
    apply rtc_refl.
  - apply Hfull; [|reflexivity].
    unfold is_digit_code. rewrite !elem_of_cons. auto 10.
Defined.

(** C8.  The clear key, from any state: [key_index] becomes 0 and each of the
    seven slots of [key_temp] becomes 0, nothing else changes; so it is after
    any sequence of key events followed by the clear key. *)
Theorem clear_key_resets :
  (∀ st, length (key_temp st) = 7%nat →
     ∃ st', switch_key_down 13 st = Some st'
            ∧ key_index st' = 0
            ∧ key_temp st' = [0; 0; 0; 0; 0; 0; 0]
            ∧ (∀ i : nat, (i < 7)%nat → key_temp st' !! i = Some 0)
            ∧ trace st' = trace st
            ∧ password st' = password st)
  ∧ (∀ key_downs : list Z,
       ∃ st', switch_key_downs (key_downs ++ [13]) initial_state = Some st'
              ∧ key_index st' = 0
              ∧ key_temp st' = [0; 0; 0; 0; 0; 0; 0]).
Proof.
  assert (∀ st, length (key_temp st) = 7%nat →
     ∃ st', switch_key_down 13 st = Some st'
            ∧ key_index st' = 0
            ∧ key_temp st' = [0; 0; 0; 0; 0; 0; 0]
            ∧ (∀ i : nat, (i < 7)%nat → key_temp st' !! i = Some 0)
            ∧ trace st' = trace st
            ∧ password st' = password st) as Hclear.
  { intros st Hkt. cbn [switch_key_down]. rewrite clear_key_spec by done.
    eexists. split; [done|]. simpl. repeat split.
    intros i Hi. by do 7 (destruct i as [|i]; [done|]); lia. }
  split; [exact Hclear|].
  intros key_downs.
  destruct (switch_key_downs_inv key_downs initial_state initial_state_inv)
    as (st1 & Hst1 & [[Hkt _] _]).
  destruct (Hclear st1 Hkt) as (st2 & Hst2 & Hki & Hzero & _).
  exists st2. rewrite switch_key_downs_app, Hst1.
  change (Some st1 ≫= switch_key_downs [13])
    with (switch_key_down 13 st1 ≫= Some).
  rewrite Hst2. by repeat split.
Qed.

Lemma clear_key_resets_witness :
  ∃ st', switch_key_down 13
           (mkState [1; 2; 3; 4; 5; 6] [4; 2; 0; 0; 0; 0; 0] 2 2 0 []) = Some st'
         ∧ key_index st' = 0
         ∧ key_temp st' = [0; 0; 0; 0; 0; 0; 0].
Proof.
  destruct clear_key_resets as [Hclear _].
  destruct (Hclear (mkState [1; 2; 3; 4; 5; 6] [4; 2; 0; 0; 0; 0; 0] 2 2 0 []))
    as (st' & Hst' & Hki & Hkt & _); [reflexivity|].
  by exists st'.
Defined.

Lemma switch_confirm_spec (st : State) :
  arrays_ok st →
  ∃ ok, string_chek (key_temp st) (password st) 6 = Some ok
        ∧ (ok = 1 ∨ ok = 0)
        ∧ switch_key_down 15 st =
          Some (mkState (password st) [0; 0; 0; 0; 0; 0; 0] 0
                        (key_index_old st) (key_old st)
                        (trace st ++ if decide (ok ≠ 0) then unlock_sequence
                                     else alarm_sequence)).
Proof. apply confirm_key_spec. Qed.

(** C4.  The confirm key, from any state and whatever the check returns:
    [key_index] becomes 0 and the seven slots of [key_temp] become 0, and the
    last actuator command is [lock 1]; when the check fails, the calls made
    are those of the alarm branch, whose only actuator command is [lock 1]. *)
Theorem confirm_clears_and_failure_locks (st : State) :
  arrays_ok st →
  ∃ st' ok,
    string_chek (key_temp st) (password st) 6 = Some ok
    ∧ (ok = 1 ∨ ok = 0)
    ∧ switch_key_down 15 st = Some st'
    ∧ key_index st' = 0
    ∧ key_temp st' = [0; 0; 0; 0; 0; 0; 0]
    ∧ lock_position (trace st') = Some 1
    ∧ (ok = 0 →
       trace st' = trace st ++ alarm_sequence
       ∧ lock_calls (trace st') = lock_calls (trace st) ++ [1]).
Proof.
  intros Hok.
  destruct (switch_confirm_spec st Hok) as (ok & Hchk & Hcases & Hsw).
  eexists _, ok. split; [done|]. split; [done|]. split; [exact Hsw|].
  cbn [key_index key_temp trace]. split; [done|]. split; [done|]. split.
  - apply lock_position_app. by destruct Hcases as [-> | ->].
  - intros ->. rewrite decide_False by auto. split; [done|].
    by rewrite lock_calls_app.
Qed.

Lemma confirm_clears_and_failure_locks_witness :
  ∃ st', switch_key_down 15
           (mkState [1; 2; 3; 4; 5; 6] [1; 2; 3; 0; 0; 0; 0] 3 3 0 []) = Some st'
         ∧ key_index st' = 0
         ∧ key_temp st' = [0; 0; 0; 0; 0; 0; 0]
         ∧ lock_position (trace st') = Some 1.
Proof.
  destruct (confirm_clears_and_failure_locks
              (mkState [1; 2; 3; 4; 5; 6] [1; 2; 3; 0; 0; 0; 0] 3 3 0 []))
    as (st' & ok & _ & _ & Hsw & Hki & Hkt & Hlock & _).
  - split; reflexivity.
  - by exists st'.
Defined.

(** C5.  The confirm key when the check succeeds: the calls made are
    [lock 0], the success picture, the 5 s delay, [lock 1], then the idle
    screen, so the unlock is followed by a lock within the same handling and
    [key_index] is 0 afterwards; whatever the check returns, the last actuator
    command after the confirm key is [lock 1].  From the initial state, the
    key events 1, 2, 3, 4, 5, 6, confirm (codes 1, 2, 3, 5, 6, 7, 15), fed to
    the switch or scanned with a release between two keys, issue [lock 0] then
    [lock 1] and leave [key_index] at 0. *)
Theorem confirm_success_unlocks_then_locks :
  (∀ st, arrays_ok st →
     string_chek (key_temp st) (password st) 6 = Some 1 →
     ∃ st', switch_key_down 15 st = Some st'
            ∧ trace st' = trace st ++ unlock_sequence
            ∧ lock_calls (trace st') = lock_calls (trace st) ++ [0; 1]
            ∧ lock_position (trace st') = Some 1
            ∧ key_index st' = 0)
  ∧ (∀ st, arrays_ok st →
       ∃ st', switch_key_down 15 st = Some st'
              ∧ lock_position (trace st') = Some 1)
  ∧ (∃ st', switch_key_downs [1; 2; 3; 5; 6; 7; 15] initial_state = Some st'
            ∧ trace st' = unlock_sequence
            ∧ lock_calls (trace st') = [0; 1]
            ∧ key_index st' = 0)
  ∧ (∃ st', key_process_thread_entry
              [1; 0; 2; 0; 3; 0; 5; 0; 6; 0; 7; 0; 15] initial_state = Some st'
            ∧ lock_calls (trace st') = [0; 1]
            ∧ key_index st' = 0).
Proof.
  split; [|split; [|split]].
  - intros st Hok Hchk.
    destruct (switch_confirm_spec st Hok) as (ok & Hchk' & _ & Hsw).
    rewrite Hchk in Hchk'. injection Hchk' as <-.
    rewrite decide_True in Hsw by done.
    eexists. split; [exact Hsw|]. cbn [trace key_index].
    split; [done|]. split; [by rewrite lock_calls_app|].
    split; [by apply lock_position_app|done].
  - intros st Hok.
    destruct (switch_confirm_spec st Hok) as (ok & _ & Hcases & Hsw).
    eexists. split; [exact Hsw|]. cbn [trace].
    apply lock_position_app. by destruct Hcases as [-> | ->].
  - eexists. split; [vm_compute; reflexivity|]. by repeat split.
  - eexists. split; [vm_compute; reflexivity|]. by repeat split.
Qed.

Lemma confirm_success_unlocks_then_locks_witness :
  ∃ st', switch_key_down 15
           (mkState [1; 2; 3; 4; 5; 6] [1; 2; 3; 4; 5; 6; 0] 6 6 0 []) = Some st'
         ∧ lock_calls (trace st') = [0; 1]
         ∧ key_index st' = 0.
Proof.
  destruct confirm_success_unlocks_then_locks as [Hunlock _].
  destruct (Hunlock (mkState [1; 2; 3; 4; 5; 6] [1; 2; 3; 4; 5; 6; 0] 6 6 0 []))
    as (st' & Hsw & _ & Hlocks & _ & Hki).
  - split; reflexivity.
  - reflexivity.
  - by exists st'.
Defined.

(** ** The claims on the display task *)

(** The display task is not a pure reader of [key_index]: with [key_index] at
    7 and unequal to [key_index_old], an iteration stores 6 into it. *)
Lemma lcd_refresh_writes_key_index :
  ¬ (∀ st st',
       arrays_ok st → is_u8 (key_index st) → is_u8 (key_index_old st) →
       lcd_refresh_loop_body st = Some st' →
       key_index st' = key_index st ∧ key_temp st' = key_temp st).
Proof.
  intros Hframe.
  destruct (Hframe (set_key_index 7 initial_state)
              (mkState [1; 2; 3; 4; 5; 6] [0; 0; 0; 0; 0; 0; 0] 6 6 0
                 (LCD_Fill 16 45 112 60 YELLOW
                    :: digit_glyphs 6 [0; 0; 0; 0; 0; 0; 0]
                    ++ [rt_thread_mdelay 100])))
    as [Hki _].
  - split; reflexivity.
  - simpl. unfold is_u8. lia.
  - simpl. unfold is_u8. lia.
  - reflexivity.
  - discriminate Hki.
Qed.

(** C7.  An iteration of the display task never changes [key_temp];
    it leaves [key_index] as it was when [key_index] is at most 6 or equal to
    [key_index_old], and stores 6 into it when it is above 6 and unequal to
    [key_index_old]; in every reachable state it changes neither. *)
Theorem lcd_refresh_frame :
  (∀ st, length (key_temp st) = 7%nat →
     ∃ st', lcd_refresh_loop_body st = Some st'
            ∧ key_temp st' = key_temp st
            ∧ (key_index st <= 6 ∨ key_index st = key_index_old st →
               key_index st' = key_index st)
            ∧ (6 < key_index st → key_index st ≠ key_index_old st →
               key_index st' = 6))
  ∧ (∀ st, reachable st →
       ∃ st', lcd_refresh_loop_body st = Some st'
              ∧ key_index st' = key_index st
              ∧ key_temp st' = key_temp st).
Proof.
  assert (∀ st, length (key_temp st) = 7%nat →
     ∃ st', lcd_refresh_loop_body st = Some st'
            ∧ key_temp st' = key_temp st
            ∧ (key_index st <= 6 ∨ key_index st = key_index_old st →
               key_index st' = key_index st)
            ∧ (6 < key_index st → key_index st ≠ key_index_old st →
               key_index st' = 6)) as Hframe.
  { intros st Hkt.
    destruct (decide (key_index st = key_index_old st)) as [Heq|Hne].
    - rewrite lcd_refresh_idle by done. eexists. split; [done|].
      split; [done|]. split; [done|]. intros _ Hne. by destruct Hne.
    - rewrite lcd_refresh_redraw by done. eexists. split; [done|].
      cbn [key_temp key_index]. split; [done|]. split.
      + intros [Hle|Heq]; [|done]. by rewrite decide_False by lia.
      + intros Hgt _. by rewrite decide_True by lia. }
  split; [exact Hframe|].
  intros st [[Hkt _] Hki]%reachable_inv.
  destruct (Hframe st Hkt) as (st' & Hst' & Hkt' & Hsame & _).
  exists st'. split; [done|]. split; [|done]. apply Hsame. left. lia.
Qed.

Lemma lcd_refresh_frame_witness :
  ∃ st', lcd_refresh_loop_body initial_state = Some st'
         ∧ key_index st' = key_index initial_state
         ∧ key_temp st' = key_temp initial_state.
Proof.
  destruct lcd_refresh_frame as [_ Hreach].
  apply (Hreach initial_state). apply rtc_refl.
Defined.

Lemma length_digit_glyphs (n : nat) (buf : list Z) :
  (n ≤ length buf)%nat → length (digit_glyphs n buf) = n.
Proof.
  intros Hn. unfold digit_glyphs. rewrite length_imap, length_take. lia.
Qed.

Lemma lookup_digit_glyphs (n j : nat) (buf : list Z) (d : Z) :
  (j < n)%nat → buf !! j = Some d →
  digit_glyphs n buf !! j =
  Some (LCD_ShowChar (wrap16 (20 + 16 * Z.of_nat j)) 45 (wrap8 (d + 48))
                     RED YELLOW 16 0).
Proof.
  intros Hj Hd. unfold digit_glyphs.
  by rewrite list_lookup_imap, lookup_take_lt, Hd by done.
Qed.

(** C9.  An iteration of the display task redraws exactly when [key_index]
    differs from [key_index_old]: it then fills the entry area, draws one
    glyph per entered digit and stores the [key_index] it rendered into
    [key_index_old]; otherwise it only sleeps and [key_index_old] keeps its
    value.  With [key_index_old] at its initial 255 and [key_index] between 0
    and 6 the iteration redraws.  After any iteration [key_index_old] equals
    [key_index].  The count rendered is the [key_index] the iteration found,
    6 standing for a count above 6: with a count between 0 and 6 the
    iteration leaves [key_index] as it was, draws exactly [key_index] glyphs,
    glyph [j] showing the digit of slot [j] of the entry buffer at the column
    [20 + 16 j], and stores that count into [key_index_old]; the entry buffer,
    the passcode and [key_old] are never written. *)
Theorem lcd_refresh_redraws_on_change (st : State) :
  length (key_temp st) = 7%nat →
  ∃ st', lcd_refresh_loop_body st = Some st'
         ∧ (redrawn st st' ↔ key_index st ≠ key_index_old st)
         ∧ (key_index st ≠ key_index_old st →
            trace st' =
              trace st ++ LCD_Fill 16 45 112 60 YELLOW
                :: digit_glyphs (Z.to_nat (key_index st')) (key_temp st)
                ++ [rt_thread_mdelay 100])
         ∧ (key_index st = key_index_old st →
            trace st' = trace st ++ [rt_thread_mdelay 100]
            ∧ key_index_old st' = key_index_old st)
         ∧ (key_index_old st = 255 → 0 <= key_index st <= 6 → redrawn st st')
         ∧ key_index_old st' = key_index st'
         ∧ key_index st' =
           (if decide (key_index st ≠ key_index_old st ∧ key_index st > 6)
            then 6 else key_index st)
         ∧ key_temp st' = key_temp st
         ∧ password st' = password st
         ∧ key_old st' = key_old st
         ∧ (key_index st ≠ key_index_old st → 0 <= key_index st <= 6 →
            key_index st' = key_index st
            ∧ key_index_old st' = key_index st
            ∧ trace st' =
                trace st ++ LCD_Fill 16 45 112 60 YELLOW
                  :: digit_glyphs (Z.to_nat (key_index st)) (key_temp st)
                  ++ [rt_thread_mdelay 100]
            ∧ Z.of_nat (length (digit_glyphs (Z.to_nat (key_index st))
                                  (key_temp st))) = key_index st
            ∧ ∀ (j : nat) (d : Z),
                Z.of_nat j < key_index st → key_temp st !! j = Some d →
                digit_glyphs (Z.to_nat (key_index st)) (key_temp st) !! j =
                Some (LCD_ShowChar (wrap16 (20 + 16 * Z.of_nat j)) 45
                                   (wrap8 (d + 48)) RED YELLOW 16 0)).
Proof.
  intros Hkt.
  destruct (decide (key_index st = key_index_old st)) as [Heq|Hne].
  - rewrite lcd_refresh_idle by done. eexists. split; [done|].
    cbn [trace call key_index key_index_old key_temp password key_old].
    assert (¬ redrawn st (call (rt_thread_mdelay 100) st)) as Hidle.
    { intros [glyphs Htr]. cbn [trace call] in Htr.
      apply app_inv_head in Htr. destruct glyphs; discriminate Htr. }
    split; [split; [by intros ?%Hidle | by intros ?] |].
    split; [by intros ?|]. split; [done|].
    split; [intros Hold Hki; rewrite Hold in Heq; lia|].
    split; [done|].
    split; [by rewrite decide_False by (by intros [? _])|].
    do 3 (split; [done|]). by intros ?.
  - rewrite lcd_refresh_redraw by done. eexists. split; [done|].
    cbn [trace key_index key_index_old key_temp password key_old].
    assert (redrawn st
              (mkState (password st) (key_temp st)
                 (if decide (key_index st > 6) then 6 else key_index st)
                 (if decide (key_index st > 6) then 6 else key_index st)
                 (key_old st)
                 (trace st ++ LCD_Fill 16 45 112 60 YELLOW
                    :: digit_glyphs
                         (Z.to_nat (if decide (key_index st > 6) then 6
                                    else key_index st)) (key_temp st)
                    ++ [rt_thread_mdelay 100]))) as Hdrawn.
    { by eexists. }
    split; [by split|]. split; [done|]. split; [by intros ?|].
    split; [done|]. split; [done|].
    split; [repeat case_decide; first [done | tauto | lia]|].
    do 3 (split; [done|]).
    intros _ Hki. rewrite decide_False by lia.
    split; [done|]. split; [done|]. split; [done|].
    split; [rewrite length_digit_glyphs; lia|].
    intros j d Hj Hd. apply lookup_digit_glyphs; [lia|done].
Qed.

Lemma lcd_refresh_redraws_on_change_witness :
  (∃ st', lcd_refresh_loop_body
            (mkState [1; 2; 3; 4; 5; 6] [1; 2; 0; 0; 0; 0; 0] 2 1 2 []) = Some st'
          ∧ key_index st' = 2
          ∧ key_index_old st' = 2
          ∧ trace st' =
              [ LCD_Fill 16 45 112 60 YELLOW;
                LCD_ShowChar 20 45 49 RED YELLOW 16 0;
                LCD_ShowChar 36 45 50 RED YELLOW 16 0;
                rt_thread_mdelay 100 ])
  ∧ ∃ st', lcd_refresh_loop_body initial_state = Some st'
           ∧ redrawn initial_state st'
           ∧ key_index_old st' = key_index st'.
Proof.
  split.
  - destruct (lcd_refresh_redraws_on_change
                (mkState [1; 2; 3; 4; 5; 6] [1; 2; 0; 0; 0; 0; 0] 2 1 2 []))
      as (st' & Hst' & _ & _ & _ & _ & _ & _ & _ & _ & _ & Hdigits);
      [reflexivity|].
    destruct Hdigits as (Hki & Hold & Htrace & _); [simpl; lia..|].
    exists st'. split; [exact Hst'|]. split; [exact Hki|].
    split; [exact Hold|]. rewrite Htrace. reflexivity.
  - destruct (lcd_refresh_redraws_on_change initial_state)
      as (st' & Hst' & _ & _ & _ & Hfirst & Hold & _); [reflexivity|].
    exists st'. split; [exact Hst'|]. split; [|exact Hold].
    apply Hfirst; [reflexivity | simpl; lia].
Defined.

(** ** Further properties of the key task *)

(* The switch, as a table: a digit key appends its digit, 13 clears, 15
   confirms, every other code is ignored. *)
Lemma switch_key_down_by_digit (key_down : Z) (st : State) :
  switch_key_down key_down st =
  match digit_of key_down with
  | Some d => append_digit d st
  | None =>
      if decide (key_down = 13) then clear_key st
      else if decide (key_down = 15) then confirm_key st
      else Some st
  end.
Proof.
  destruct key_down as [|p|p]; [done| |done].
  do 4 (try destruct p as [p|p|]); try reflexivity.
Qed.

Lemma digit_of_range (key_down d : Z) :
  digit_of key_down = Some d → 0 <= d <= 9.
Proof.
  destruct key_down as [|p|p]; [done| |done].
  do 4 (try destruct p as [p|p|]); simpl; intros Hd;
    try discriminate Hd; injection Hd as <-; lia.
Qed.

Lemma digit_of_not_command (key_down d : Z) :
  digit_of key_down = Some d → key_down ≠ 13 ∧ key_down ≠ 15.
Proof. intros Hd. split; intros ->; discriminate Hd. Qed.

Lemma append_digit_room (d : Z) (st : State) :
  length (key_temp st) = 7%nat → 0 <= key_index st < 6 →
  append_digit d st =
  Some (mkState (password st) (<[Z.to_nat (key_index st) := d]> (key_temp st))
                (key_index st + 1) (key_index_old st) (key_old st) (trace st)).
Proof.
  intros Hkt Hki. unfold append_digit. rewrite decide_True by lia.
  rewrite store_in_range by lia. cbn [mbind option_bind].
  unfold set_key_index, set_key_temp. cbn.
  by rewrite wrap8_small by (unfold is_u8; lia).
Qed.

Lemma append_digit_full (d : Z) (st : State) :
  6 <= key_index st → append_digit d st = Some st.
Proof. intros Hki. unfold append_digit. by rewrite decide_False by lia. Qed.

(** Typing digits into an entry that holds [pre]. *)
Lemma digits_fill_from (codes digits pre : list Z) (st : State) :
  digits_of codes digits →
  (length pre ≤ 6)%nat →
  key_index st = Z.of_nat (length pre) →
  key_temp st = pre ++ replicate (7 - length pre) 0 →
  switch_key_downs codes st =
  Some (mkState (password st)
          (take 6 (pre ++ digits)
             ++ replicate (7 - length (take 6 (pre ++ digits))) 0)
          (Z.of_nat (length (take 6 (pre ++ digits))))
          (key_index_old st) (key_old st) (trace st)).
Proof.
  intros Hcodes. revert pre st.
  induction Hcodes as [|code d codes digits Hd _ IH]; intros pre st Hpre Hki Hkt.
  - cbn [switch_key_downs]. rewrite app_nil_r, firstn_all2 by lia.
    rewrite <- Hki, <- Hkt. by destruct st.
  - cbn [switch_key_downs]. rewrite switch_key_down_by_digit, Hd.
    destruct (decide (length pre = 6%nat)) as [Hfull|Hroom].
    + rewrite append_digit_full by lia. cbn [mbind option_bind].
      rewrite (IH pre st) by done. do 2 f_equal.
      all: by rewrite !take_app_le by lia.
    + rewrite append_digit_room;
        [|rewrite Hkt, length_app, length_replicate; lia|lia].
      cbn [mbind option_bind].
      rewrite (IH (pre ++ [d])); cbn [password key_temp key_index
                                      key_index_old key_old trace].
      * by rewrite <- !app_assoc.
      * rewrite length_app. simpl. lia.
      * rewrite length_app. simpl. lia.
      * rewrite Hkt, Hki, Nat2Z.id.
        replace (7 - length pre)%nat with (S (7 - length (pre ++ [d])))
          by (rewrite length_app; simpl; lia).
        rewrite <- (Nat.add_0_r (length pre)) at 1.
        rewrite insert_app_r. cbn. by rewrite <- app_assoc.
Qed.

(** Typing digits into an empty entry: the first six are stored in order,
    the rest of the buffer stays 0, the count is the number stored, which is
    at most 6, and nothing else changes. *)
Theorem digits_fill_buffer (codes digits : list Z) (st : State) :
  digits_of codes digits →
  cleared st →
  switch_key_downs codes st =
  Some (mkState (password st)
          (take 6 digits ++ replicate (7 - length (take 6 digits)) 0)
          (Z.of_nat (length (take 6 digits)))
          (key_index_old st) (key_old st) (trace st)).
Proof.
  intros Hcodes [Hki Hkt].
  apply (digits_fill_from codes digits [] st Hcodes); simpl; [lia|done..].
Qed.

Lemma digits_fill_buffer_witness :
  switch_key_downs [1; 5; 9; 14; 2; 6; 10; 3] initial_state =
  Some (mkState [1; 2; 3; 4; 5; 6] [1; 4; 7; 0; 2; 5; 0] 6 255 0 []).
Proof.
  apply (digits_fill_buffer [1; 5; 9; 14; 2; 6; 10; 3]
                            [1; 4; 7; 0; 2; 5; 8; 3] initial_state).
  - unfold digits_of. repeat constructor.
  - by split.
Defined.

Lemma string_chek_take (a b : list Z) (n : nat) :
  (n ≤ length a)%nat → (n ≤ length b)%nat →
  string_chek_from n a b = Some 1 ↔ take n a = take n b.
Proof.
  intros Ha Hb. rewrite string_chek_from_match by done. split.
  - intros Hall. apply list_eq. intros i. rewrite !lookup_take.
    case_decide; [by apply Hall|done].
  - intros Heq i Hi.
    by rewrite <- (lookup_take_lt a n i), <- (lookup_take_lt b n i), Heq.
Qed.

(** The confirm key compares the first six slots with the passcode. *)
Lemma confirm_key_match (st : State) :
  arrays_ok st →
  confirm_key st =
  Some (mkState (password st) [0; 0; 0; 0; 0; 0; 0] 0
          (key_index_old st) (key_old st)
          (trace st ++ if decide (take 6 (key_temp st) = password st)
                       then unlock_sequence else alarm_sequence)).
Proof.
  intros Hok. pose proof Hok as [Hkt Hpw].
  destruct (confirm_key_spec st Hok) as (ok & Hchk & Hcases & ->).
  do 3 f_equal. unfold string_chek in Hchk.
  change (Z.to_nat 6) with 6%nat in Hchk.
  assert (take 6 (password st) = password st) as Hpw6
    by (apply firstn_all2; lia).
  destruct Hcases as [-> | ->].
  - apply string_chek_take in Hchk; [|lia..].
    rewrite Hpw6 in Hchk. by rewrite !decide_True.
  - rewrite decide_False by auto. rewrite decide_False; [done|].
    intros Heq. rewrite <- Hpw6 in Heq.
    apply string_chek_take in Heq; [|lia..]. congruence.
Qed.

Lemma entered_take (digits : list Z) :
  take 6 (take 6 digits ++ replicate (7 - length (take 6 digits)) 0)
  = entered digits.
Proof.
  unfold entered.
  destruct (decide (6 ≤ length digits)%nat) as [Hlong|Hshort].
  - rewrite !take_app_le by (rewrite ?length_take; lia).
    rewrite take_take. f_equal.
  - rewrite (firstn_all2 digits) by lia.
    rewrite !take_app_ge, !take_replicate by lia. do 2 f_equal. lia.
Qed.

(** Typing digits into an empty entry and confirming: the door is unlocked
    exactly when the first six digits typed, completed with zeros when fewer
    than six were typed, are the passcode; the entry is empty afterwards. *)
Theorem confirm_unlocks_iff_entry_matches (codes digits : list Z) (st : State) :
  digits_of codes digits →
  arrays_ok st →
  cleared st →
  switch_key_downs (codes ++ [15]) st =
  Some (mkState (password st) [0; 0; 0; 0; 0; 0; 0] 0
          (key_index_old st) (key_old st)
          (trace st ++ if decide (entered digits = password st)
                       then unlock_sequence else alarm_sequence)).
Proof.
  intros Hcodes [Hkt Hpw] [Hki Hzero].
  assert (switch_key_downs codes st =
          Some (mkState (password st)
                  (take 6 digits ++ replicate (7 - length (take 6 digits)) 0)
                  (Z.of_nat (length (take 6 digits)))
                  (key_index_old st) (key_old st) (trace st))) as Hfill
    by (apply (digits_fill_from codes digits [] st Hcodes); simpl;
        [lia|done..]).
  rewrite switch_key_downs_app, Hfill.
  cbn [mbind option_bind switch_key_downs switch_key_down].
  rewrite confirm_key_match.
  - cbn [password key_temp key_index_old key_old trace mbind option_bind].
    by rewrite entered_take.
  - split; cbn [key_temp password]; [|done].
    rewrite length_app, length_replicate, length_take. lia.
Qed.

Lemma confirm_unlocks_iff_entry_matches_witness :
  switch_key_downs ([1; 2; 3] ++ [15])
    (mkState [1; 2; 3; 0; 0; 0] [0; 0; 0; 0; 0; 0; 0] 0 0 0 []) =
  Some (mkState [1; 2; 3; 0; 0; 0] [0; 0; 0; 0; 0; 0; 0] 0 0 0
          unlock_sequence)
  ∧ switch_key_downs ([1; 2; 3; 5; 6; 7; 9; 10] ++ [15]) initial_state =
    Some (mkState [1; 2; 3; 4; 5; 6] [0; 0; 0; 0; 0; 0; 0] 0 255 0
            unlock_sequence).
Proof.
  split.
  - apply (confirm_unlocks_iff_entry_matches [1; 2; 3] [1; 2; 3]
             (mkState [1; 2; 3; 0; 0; 0] [0; 0; 0; 0; 0; 0; 0] 0 0 0 [])).
    + unfold digits_of. repeat constructor.
    + by split.
    + by split.
  - apply (confirm_unlocks_iff_entry_matches [1; 2; 3; 5; 6; 7; 9; 10]
             [1; 2; 3; 4; 5; 6; 7; 8] initial_state).
    + unfold digits_of. repeat constructor.
    + by split.
    + by split.
Defined.

Lemma append_digit_trace (d : Z) (st st' : State) :
  append_digit d st = Some st' →
  trace st' = trace st ∧ key_index_old st' = key_index_old st
  ∧ password st' = password st ∧ key_old st' = key_old st.
Proof.
  unfold append_digit. case_decide; [|by intros [= <-]].
  destruct (store (key_temp st) (key_index st) d); [|done].
  by intros [= <-].
Qed.

(** What one iteration of the key task adds to the trace. *)
Lemma key_process_loop_body_trace (key_val : Z) (st st' : State) :
  arrays_ok st →
  key_process_loop_body key_val st = Some st' →
  key_index_old st' = key_index_old st
  ∧ password st' = password st
  ∧ key_old st' = key_val
  ∧ trace st' =
    trace st
      ++ (if decide (edge_detect key_val (key_old st) = 15) then
            if decide (take 6 (key_temp st) = password st)
            then unlock_sequence else alarm_sequence
          else [])
      ++ [rt_thread_mdelay 10].
Proof.
  intros Hok. unfold key_process_loop_body.
  set (key_down := edge_detect key_val (key_old st)).
  assert (arrays_ok (set_key_old key_val st)) as Hok' by done.
  destruct (decide (key_down ≠ 0)) as [Hev|Hno].
  - rewrite switch_key_down_by_digit.
    destruct (digit_of key_down) as [d|] eqn:Hd.
    + destruct (digit_of_not_command _ _ Hd) as [_ Hne].
      rewrite (decide_False (P := key_down = 15)) by done.
      destruct (append_digit d (set_key_old key_val st)) as [st1|] eqn:Hst1;
        [|done].
      apply append_digit_trace in Hst1 as (Htr & Hold & Hpw & Hko).
      cbn [mbind option_bind]. intros [= <-]. cbn.
      by rewrite Htr, Hold, Hpw, Hko.
    + destruct (decide (key_down = 13)) as [H13|_].
      * rewrite (decide_False (P := key_down = 15)) by lia.
        rewrite clear_key_spec by apply Hok'.
        cbn [mbind option_bind]. by intros [= <-].
      * destruct (decide (key_down = 15)) as [_|_].
        -- rewrite confirm_key_match by done.
           cbn [mbind option_bind]. intros [= <-]. cbn.
           by rewrite <- app_assoc.
        -- cbn [mbind option_bind]. by intros [= <-].
  - assert (key_down = 0) as -> by lia.
    rewrite (decide_False (P := 0 = 15)) by done.
    cbn [mbind option_bind]. by intros [= <-].
Qed.

(** The door is unlocked only through the confirm key on a matching entry:
    the calls one iteration of the key task makes contain [lock 0] exactly
    when the key event is 15 and the first six slots of the entry buffer are
    the passcode; [lock 0] is then followed by [lock 1]. *)
Theorem unlock_only_on_match (key_val : Z) (st st' : State) :
  arrays_ok st →
  key_process_loop_body key_val st = Some st' →
  ∃ new, trace st' = trace st ++ new
         ∧ (lock 0 ∈ new ↔
            edge_detect key_val (key_old st) = 15
            ∧ take 6 (key_temp st) = password st)
         ∧ (lock 0 ∈ new → lock_calls new = [0; 1])
         ∧ (lock 0 ∉ new → lock_calls new = [] ∨ lock_calls new = [1]).
Proof.
  intros Hok Hbody.
  destruct (key_process_loop_body_trace _ _ _ Hok Hbody) as (_ & _ & _ & ->).
  eexists. split; [done|].
  destruct (decide (edge_detect key_val (key_old st) = 15)) as [Hev|Hev];
    [destruct (decide (take 6 (key_temp st) = password st)) as [Hm|Hm]|].
  - split; [|split].
    + split; [done|]. intros _. apply list_elem_of_here.
    + done.
    + intros Hnot. exfalso. apply Hnot, list_elem_of_here.
  - assert (lock 0 ∉ alarm_sequence ++ [rt_thread_mdelay 10]) as Hnot.
    { unfold alarm_sequence. cbn [app].
      rewrite !not_elem_of_cons. repeat split; try done. apply not_elem_of_nil. }
    split; [|split].
    + split; [done|]. by intros [_ ?].
    + done.
    + intros _. by right.
  - assert (lock 0 ∉ [] ++ [rt_thread_mdelay 10]) as Hnot.
    { cbn [app]. rewrite not_elem_of_cons. split; [done|apply not_elem_of_nil]. }
    split; [|split].
    + split; [done|]. by intros [? _].
    + done.
    + intros _. by left.
Qed.

Lemma unlock_only_on_match_witness :
  ∃ new,
    trace (mkState [1; 2; 3; 4; 5; 6] [0; 0; 0; 0; 0; 0; 0] 0 6 15
             (unlock_sequence ++ [rt_thread_mdelay 10]))
    = trace (mkState [1; 2; 3; 4; 5; 6] [1; 2; 3; 4; 5; 6; 0] 6 6 0 [])
      ++ new
    ∧ lock_calls new = [0; 1].
Proof.
  destruct (unlock_only_on_match 15
              (mkState [1; 2; 3; 4; 5; 6] [1; 2; 3; 4; 5; 6; 0] 6 6 0 [])
              (mkState [1; 2; 3; 4; 5; 6] [0; 0; 0; 0; 0; 0; 0] 0 6 15
                 (unlock_sequence ++ [rt_thread_mdelay 10])))
    as (new & Htr & Hiff & Hlocks & _).
  - by split.
  - reflexivity.
  - exists new. split; [exact Htr|]. apply Hlocks, Hiff. by split.
Defined.

(** ** The entry buffer in reachable states *)

Lemma zeros_entry_ok (pw : list Z) (ki kio ko : Z) (tr : list Cmd) :
  pw = [1; 2; 3; 4; 5; 6] →
  entry_ok (mkState pw [0; 0; 0; 0; 0; 0; 0] ki kio ko tr).
Proof.
  intros ->. split; [done|]. split.
  - cbn. repeat constructor; lia.
  - cbn. intros i [_ Hi].
    by do 7 (destruct i as [|i]; [done|]); lia.
Qed.

Lemma append_digit_entry_ok (d : Z) (st st' : State) :
  0 <= d <= 9 → inv st → entry_ok st →
  append_digit d st = Some st' → entry_ok st'.
Proof.
  intros Hd [[Hkt Hpw] Hki] (Hpass & Hdigits & Hzero).
  destruct (decide (key_index st < 6)) as [Hroom|Hfull].
  - rewrite append_digit_room by (done || lia). intros [= <-].
    split; [done|]. split; cbn.
    + by apply Forall_insert.
    + intros i Hi. rewrite list_lookup_insert_ne by lia. apply Hzero. lia.
  - rewrite append_digit_full by lia. by intros [= <-].
Qed.

Lemma key_process_loop_body_entry_ok (key_val : Z) (st st' : State) :
  inv st → entry_ok st →
  key_process_loop_body key_val st = Some st' → entry_ok st'.
Proof.
  intros Hinv Hentry. pose proof Hinv as [Hok Hki].
  pose proof Hentry as (Hpass & Hdigits & Hzero).
  unfold key_process_loop_body.
  set (key_down := edge_detect key_val (key_old st)).
  assert (inv (set_key_old key_val st)) as Hinv' by done.
  assert (entry_ok (set_key_old key_val st)) as Hentry' by done.
  destruct (decide (key_down ≠ 0)) as [Hev|Hno];
    [|cbn [mbind option_bind]; by intros [= <-]].
  rewrite switch_key_down_by_digit.
  destruct (digit_of key_down) as [d|] eqn:Hd.
  - destruct (append_digit d (set_key_old key_val st)) as [st1|] eqn:Hst1;
      [|done].
    cbn [mbind option_bind]. intros [= <-].
    by apply (append_digit_entry_ok d _ st1 (digit_of_range _ _ Hd) Hinv').
  - destruct (decide (key_down = 13)) as [_|_];
      [|destruct (decide (key_down = 15)) as [_|_]].
    + rewrite clear_key_spec by apply Hok.
      cbn [mbind option_bind]. intros [= <-]. by apply zeros_entry_ok.
    + rewrite confirm_key_match by done.
      cbn [mbind option_bind]. intros [= <-]. by apply zeros_entry_ok.
    + cbn [mbind option_bind]. by intros [= <-].
Qed.

Lemma lcd_refresh_loop_body_entry_ok (st st' : State) :
  inv st → entry_ok st →
  lcd_refresh_loop_body st = Some st' → entry_ok st'.
Proof.
  intros [[Hkt Hpw] Hki] Hentry.
  destruct (decide (key_index st = key_index_old st)) as [Heq|Hne].
  - rewrite lcd_refresh_idle by done. by intros [= <-].
  - rewrite lcd_refresh_redraw by done. rewrite decide_False by lia.
    by intros [= <-].
Qed.

Lemma reachable_inv_entry_ok (st : State) :
  reachable st → inv st ∧ entry_ok st.
Proof.
  intros Hreach. revert st Hreach.
  apply (rtc_ind_r (R := step) (λ s, inv s ∧ entry_ok s) initial_state).
  - split; [apply initial_state_inv|by apply zeros_entry_ok].
  - intros y z _ Hstep [Hinv Hentry].
    split; [by eapply step_inv|].
    destruct Hstep as [key_val s s' _ Hbody|s s' Hbody].
    + by eapply key_process_loop_body_entry_ok.
    + by eapply lcd_refresh_loop_body_entry_ok.
Qed.

(** In every state the two tasks can reach: the passcode is the compiled
    one, every slot of the entry buffer holds a digit between 0 and 9, and
    the slots from [key_index] on, the seventh among them, hold 0. *)
Theorem reachable_entry_ok (st : State) : reachable st → entry_ok st.
Proof. intros Hreach. by destruct (reachable_inv_entry_ok st Hreach). Qed.

Lemma reachable_entry_ok_witness :
  entry_ok (mkState [1; 2; 3; 4; 5; 6] [1; 2; 0; 0; 0; 0; 0] 2 255 2
              (replicate 3 (rt_thread_mdelay 10))).
Proof.
  apply reachable_entry_ok.
  eapply rtc_l; [by apply (step_key 1); [unfold is_u8; lia|]|].
  eapply rtc_l; [by apply (step_key 0); [unfold is_u8; lia|]|].
  eapply rtc_l; [by apply (step_key 2); [unfold is_u8; lia|]|].
  apply rtc_refl.
Defined.

(** ** What the display task draws *)

Lemma digit_glyphs_reachable (st : State) :
  reachable st →
  ∀ (j : nat) (c : Cmd),
    digit_glyphs (Z.to_nat (key_index st)) (key_temp st) !! j = Some c →
    ∃ d, key_temp st !! j = Some d
         ∧ 0 <= d <= 9
         ∧ (j < 6)%nat
         ∧ c = LCD_ShowChar (20 + 16 * Z.of_nat j) 45 (48 + d)
                            RED YELLOW 16 0.
Proof.
  intros Hreach j c Hc.
  destruct (reachable_inv st Hreach) as [_ Hki].
  destruct (reachable_inv_entry_ok st Hreach) as (_ & _ & Hdigits & _).
  unfold digit_glyphs in Hc. rewrite list_lookup_imap in Hc.
  destruct (take (Z.to_nat (key_index st)) (key_temp st) !! j) as [d|] eqn:Hd;
    [|done].
  apply lookup_take_Some in Hd as [Hd Hj].
  assert (0 <= d <= 9) as Hrange.
  { rewrite Forall_lookup in Hdigits. by eapply Hdigits. }
  injection Hc as <-. exists d.
  split; [done|]. split; [done|]. split; [lia|].
  unfold wrap16, wrap8. rewrite !Z.mod_small by lia. f_equal. lia.
Qed.

(** A redraw in a reachable state: after [LCD_Fill] the display task draws
    [key_index] glyphs and nothing else; glyph [j] is the ASCII character of
    the digit in slot [j], 16 pixels high, at row 45 and column [20 + 16 j],
    so that its 8 columns lie inside the columns 16 to 111 just painted. *)
Theorem refresh_draws_digits (st : State) :
  reachable st →
  key_index st ≠ key_index_old st →
  ∃ st' glyphs,
    lcd_refresh_loop_body st = Some st'
    ∧ trace st' = trace st ++ LCD_Fill 16 45 112 60 YELLOW :: glyphs
                           ++ [rt_thread_mdelay 100]
    ∧ Z.of_nat (length glyphs) = key_index st
    ∧ ∀ (j : nat) (c : Cmd),
        glyphs !! j = Some c →
        ∃ d, key_temp st !! j = Some d
             ∧ 0 <= d <= 9
             ∧ c = LCD_ShowChar (20 + 16 * Z.of_nat j) 45 (48 + d)
                                RED YELLOW 16 0
             ∧ 16 <= 20 + 16 * Z.of_nat j
             ∧ 20 + 16 * Z.of_nat j + 8 <= 112.
Proof.
  intros Hreach Hne.
  destruct (reachable_inv st Hreach) as [[Hkt _] Hki].
  rewrite lcd_refresh_redraw by done. rewrite !decide_False by lia.
  eexists _, _. split; [done|]. cbn [trace]. split; [done|]. split.
  - unfold digit_glyphs. rewrite length_imap, length_take. lia.
  - intros j c Hc.
    destruct (digit_glyphs_reachable st Hreach j c Hc)
      as (d & Hd & Hrange & Hj & ->).
    exists d. repeat split; try done; lia.
Qed.

Lemma refresh_draws_digits_witness :
  ∃ st' glyphs,
    lcd_refresh_loop_body
      (mkState [1; 2; 3; 4; 5; 6] [1; 2; 0; 0; 0; 0; 0] 2 255 2
         (replicate 3 (rt_thread_mdelay 10))) = Some st'
    ∧ trace st' = replicate 3 (rt_thread_mdelay 10)
                    ++ LCD_Fill 16 45 112 60 YELLOW :: glyphs
                    ++ [rt_thread_mdelay 100]
    ∧ Z.of_nat (length glyphs) = 2.
Proof.
  destruct (refresh_draws_digits
              (mkState [1; 2; 3; 4; 5; 6] [1; 2; 0; 0; 0; 0; 0] 2 255 2
                 (replicate 3 (rt_thread_mdelay 10))))
    as (st' & glyphs & Hst' & Htr & Hlen & _).
  - eapply rtc_l; [by apply (step_key 1); [unfold is_u8; lia|]|].
    eapply rtc_l; [by apply (step_key 0); [unfold is_u8; lia|]|].
    eapply rtc_l; [by apply (step_key 2); [unfold is_u8; lia|]|].
    apply rtc_refl.
  - simpl. lia.
  - by exists st', glyphs.
Defined.

(** ** The two tasks together, further *)

Lemma key_process_thread_entry_frame (codes : list Z) (st st' : State) :
  inv st →
  key_process_thread_entry codes st = Some st' →
  inv st' ∧ key_index_old st' = key_index_old st.
Proof.
  revert st. induction codes as [|code codes IH]; intros st Hinv.
  - by intros [= <-].
  - cbn [key_process_thread_entry].
    destruct (key_process_loop_body_inv code st Hinv) as (st1 & Hst1 & Hinv1).
    rewrite Hst1. cbn [mbind option_bind]. intros Hrest.
    destruct (IH st1 Hinv1 Hrest) as [Hinv' Hold]. split; [done|].
    destruct Hinv as [Hok _].
    destruct (key_process_loop_body_trace _ _ _ Hok Hst1) as (Hold1 & _).
    congruence.
Qed.

(** The display task compares counts, not contents: when the key task has
    run since the last redraw and [key_index] is again the count last
    rendered, the next iteration of the display task draws nothing, whatever
    the entry buffer holds by then. *)
Theorem display_misses_same_count (codes : list Z) (st st' : State) :
  inv st →
  key_index st = key_index_old st →
  key_process_thread_entry codes st = Some st' →
  key_index st' = key_index st →
  lcd_refresh_loop_body st' = Some (call (rt_thread_mdelay 100) st').
Proof.
  intros Hinv Hsync Hkeys Hsame.
  destruct (key_process_thread_entry_frame codes st st' Hinv Hkeys)
    as [_ Hold].
  apply lcd_refresh_idle. congruence.
Qed.

Lemma display_misses_same_count_witness :
  key_temp (mkState [1; 2; 3; 4; 5; 6] [2; 0; 0; 0; 0; 0; 0] 1 1 2
              (replicate 4 (rt_thread_mdelay 10)))
  ≠ key_temp (mkState [1; 2; 3; 4; 5; 6] [1; 0; 0; 0; 0; 0; 0] 1 1 1 [])
  ∧ lcd_refresh_loop_body
      (mkState [1; 2; 3; 4; 5; 6] [2; 0; 0; 0; 0; 0; 0] 1 1 2
         (replicate 4 (rt_thread_mdelay 10)))
    = Some (call (rt_thread_mdelay 100)
              (mkState [1; 2; 3; 4; 5; 6] [2; 0; 0; 0; 0; 0; 0] 1 1 2
                 (replicate 4 (rt_thread_mdelay 10)))).
Proof.
  split; [discriminate|].
  apply (display_misses_same_count [0; 13; 0; 2]
           (mkState [1; 2; 3; 4; 5; 6] [1; 0; 0; 0; 0; 0; 0] 1 1 1 [])).
  - repeat split; simpl; lia.
  - reflexivity.
  - reflexivity.
  - reflexivity.
Defined.

(** ** Edge detection, further *)

Lemma land_lxor_ldiff (a b : Z) : Z.land a (Z.lxor a b) = Z.ldiff a b.
Proof.
  apply Z.bits_inj'. intros n Hn.
  rewrite Z.land_spec, Z.lxor_spec, Z.ldiff_spec.
  by destruct (Z.testbit a n), (Z.testbit b n).
Qed.

Lemma ldiff_u8 (a b : Z) : is_u8 a → wrap8 (Z.ldiff a b) = Z.ldiff a b.
Proof.
  intros Ha. unfold wrap8. change 256 with (2 ^ 8).
  rewrite <- Z.land_ones by lia.
  rewrite Z.ldiff_land, <- Z.land_assoc, (Z.land_comm (Z.lnot b)).
  rewrite Z.land_assoc, Z.land_ones by lia.
  change (2 ^ 8) with 256. by rewrite Z.mod_small.
Qed.

(** The key event is the code read with the bits of the previous code
    cleared; it is the code read itself exactly when the two codes share no
    bit. *)
Theorem edge_detect_clears_old_bits (key_val key_old : Z) :
  is_u8 key_val →
  edge_detect key_val key_old = Z.ldiff key_val key_old
  ∧ (edge_detect key_val key_old = key_val ↔ Z.land key_val key_old = 0).
Proof.
  intros Hval.
  assert (edge_detect key_val key_old = Z.ldiff key_val key_old) as Hedge.
  { unfold edge_detect. rewrite land_lxor_ldiff. by apply ldiff_u8. }
  split; [done|]. rewrite Hedge. split.
  - intros Heq. rewrite <- Heq. apply Z.land_ldiff.
  - intros Hland.
    rewrite <- (Z.lor_ldiff_and key_val key_old) at 2.
    by rewrite Hland, Z.lor_0_r.
Qed.

Lemma edge_detect_clears_old_bits_witness :
  edge_detect 6 9 = 6 ∧ edge_detect 7 5 = Z.ldiff 7 5.
Proof.
  split.
  - apply (edge_detect_clears_old_bits 6 9); [unfold is_u8; lia|reflexivity].
  - apply (edge_detect_clears_old_bits 7 5). unfold is_u8; lia.
Defined.

Lemma actions_app (tr tr' : list Cmd) :
  actions (tr ++ tr') = actions tr ++ actions tr'.
Proof. apply filter_app. Qed.

Lemma actions_ticks (n : nat) :
  actions (replicate n (rt_thread_mdelay 10)) = [].
Proof. induction n as [|n IH]; [done|]. exact IH. Qed.

Lemma same_entry_refl (st : State) : same_entry st st.
Proof. by repeat split. Qed.

Lemma same_entry_set_key_old (v : Z) (a b : State) :
  same_entry a b → same_entry (set_key_old v a) b.
Proof. intros Hsame. exact Hsame. Qed.

Lemma same_entry_ticks (n : nat) (a b : State) :
  same_entry a b → same_entry (calls (replicate n (rt_thread_mdelay 10)) a) b.
Proof.
  intros (Hp & Ht & Hi & Ho & Ha). rewrite calls_unfold.
  repeat split; cbn [password key_temp key_index key_index_old trace];
    try done.
  by rewrite actions_app, actions_ticks, app_nil_r.
Qed.

Lemma same_entry_tick (a b : State) :
  same_entry a b → same_entry (call (rt_thread_mdelay 10) a) b.
Proof. apply (same_entry_ticks 1). Qed.

(** The switch looks neither at [key_old] nor at the sleeps made so far. *)
Lemma switch_key_down_same_entry (key_down : Z) (a b a' : State) :
  inv a → same_entry a b →
  switch_key_down key_down a = Some a' →
  ∃ b', switch_key_down key_down b = Some b' ∧ same_entry a' b'.
Proof.
  intros [[Hkt Hpw] Hki] (Hp & Ht & Hi & Ho & Ha) Hsw.
  pose proof (switch_key_down_by_digit key_down b) as Hb.
  rewrite switch_key_down_by_digit in Hsw.
  destruct (digit_of key_down) as [d|].
  - destruct (decide (key_index a < 6)) as [Hroom|Hfull].
    + rewrite append_digit_room in Hsw by (done || lia).
      rewrite append_digit_room in Hb by (rewrite <- ?Ht, <- ?Hi; done || lia).
      injection Hsw as <-. eexists. split; [exact Hb|].
      repeat split;
        cbn [password key_temp key_index key_index_old trace]; congruence.
    + rewrite append_digit_full in Hsw by lia.
      rewrite append_digit_full in Hb by lia.
      injection Hsw as <-. by exists b.
  - destruct (decide (key_down = 13)).
    + rewrite clear_key_spec in Hsw by done.
      rewrite clear_key_spec in Hb by (by rewrite <- Ht).
      injection Hsw as <-. eexists. split; [exact Hb|].
      repeat split;
        cbn [password key_temp key_index key_index_old trace]; congruence.
    + destruct (decide (key_down = 15)).
      * rewrite confirm_key_match in Hsw by done.
        rewrite confirm_key_match in Hb
          by (split; [by rewrite <- Ht|by rewrite <- Hp]).
        injection Hsw as <-. eexists. split; [exact Hb|].
        repeat split;
          cbn [password key_temp key_index key_index_old trace];
          try congruence.
        rewrite !actions_app, Ha, Ht, Hp. done.
      * injection Hsw as <-. by exists b.
Qed.

Lemma key_process_loop_body_release (st : State) :
  key_process_loop_body 0 st =
  Some (call (rt_thread_mdelay 10) (set_key_old 0 st)).
Proof.
  unfold key_process_loop_body. cbv zeta. rewrite edge_detect_release.
  by rewrite decide_False by auto.
Qed.

(** One key pressed, held and released, from a state where no key was read
    last: the key task delivers the code of the key to the switch once. *)
Lemma press_release_one (code : Z) (h r : nat) (a b : State) :
  inv a → same_entry a b → key_old a = 0 → is_u8 code →
  ∃ a' b',
    key_process_thread_entry (replicate (S h) code ++ replicate (S r) 0) a
    = Some a'
    ∧ switch_key_down code b = Some b'
    ∧ inv a' ∧ same_entry a' b' ∧ key_old a' = 0.
Proof.
  intros Hinv Hsame Hold Hcode.
  destruct (key_process_loop_body_inv code a Hinv) as (a1 & Ha1 & Hinv1).
  assert (∃ b', switch_key_down code b = Some b' ∧ same_entry a1 b')
    as (b' & Hb' & Hsame1).
  { revert Ha1. unfold key_process_loop_body. cbv zeta.
    rewrite Hold, edge_detect_press by done.
    destruct (decide (code ≠ 0)) as [Hnz|Hz].
    - destruct (switch_key_down code (set_key_old code a)) as [a0|] eqn:Ha0;
        [|done].
      intros [= <-].
      destruct (switch_key_down_same_entry code (set_key_old code a) b a0)
        as (b' & Hb' & Hs); [exact Hinv|exact Hsame|done|].
      exists b'. split; [done|]. by apply same_entry_tick.
    - intros [= <-]. assert (code = 0) as -> by lia.
      exists b. split; [done|]. by apply same_entry_tick. }
  exists (calls (replicate r (rt_thread_mdelay 10))
            (call (rt_thread_mdelay 10)
               (set_key_old 0
                  (calls (replicate h (rt_thread_mdelay 10)) a1)))), b'.
  split; [|split; [done|split; [|split]]].
  - rewrite key_process_thread_entry_app.
    cbn [replicate key_process_thread_entry]. rewrite Ha1.
    cbn [mbind option_bind].
    rewrite key_process_held by (by eapply key_process_loop_body_key_old).
    cbn [mbind option_bind]. rewrite key_process_loop_body_release.
    cbn [mbind option_bind]. by rewrite key_process_held.
  - destruct Hinv1 as [[Hkt Hpw] Hki]. rewrite !calls_unfold.
    repeat split; cbn [key_temp password key_index call set_key_old];
      try done; lia.
  - by apply same_entry_ticks, same_entry_tick, same_entry_set_key_old,
      same_entry_ticks.
  - by rewrite calls_unfold.
Qed.

Lemma press_release_run (presses : list (Z * (nat * nat))) :
  ∀ a b : State,
    inv a → same_entry a b → key_old a = 0 →
    Forall (λ p, is_u8 p.1) presses →
    ∃ a' b',
      key_process_thread_entry (press_scans presses) a = Some a'
      ∧ switch_key_downs presses.*1 b = Some b'
      ∧ same_entry a' b' ∧ key_old a' = 0.
Proof.
  induction presses as [|[code [h r]] presses IH];
    intros a b Hinv Hsame Hold Hcodes.
  - by exists a, b.
  - apply Forall_cons in Hcodes as [Hcode Hcodes].
    destruct (press_release_one code h r a b)
      as (a1 & b1 & Ha1 & Hb1 & Hinv1 & Hsame1 & Hold1); [done..|].
    destruct (IH a1 b1) as (a' & b' & Ha' & Hb' & Hsame' & Hold');
      [done..|].
    exists a', b'. split; [|split; [|done]].
    + unfold press_scans in *. cbn [mbind list_bind fst snd].
      by rewrite key_process_thread_entry_app, Ha1.
    + cbn [fmap list_fmap fst switch_key_downs]. by rewrite Hb1.
Qed.

(** Keys pressed one at a time, each read on one or more scans in a row and
    followed by one or more scans that read no key, from a state where no key
    was read last: the key task returns, and it ends with the passcode, the
    entry buffer, the counts and the calls other than its own 10 ms sleeps
    that the switch gives when it is handed the codes of the keys one after
    the other.  Every press is one event, whose value is the code of the key,
    however long the key is held; no release is an event. *)
Theorem press_release_events (presses : list (Z * (nat * nat))) (st : State) :
  inv st → key_old st = 0 →
  Forall (λ p, is_u8 p.1) presses →
  ∃ st' st'',
    key_process_thread_entry (press_scans presses) st = Some st'
    ∧ switch_key_downs presses.*1 st = Some st''
    ∧ same_entry st' st''
    ∧ key_old st' = 0.
Proof.
  intros Hinv Hold Hcodes.
  by apply press_release_run; [|apply same_entry_refl|..].
Qed.

Lemma press_release_events_witness :
  ∃ st' st'',
    key_process_thread_entry
      (press_scans [(1, (2, 1)%nat); (5, (0, 0)%nat); (15, (3, 2)%nat)])
      initial_state = Some st'
    ∧ switch_key_downs [1; 5; 15] initial_state = Some st''
    ∧ same_entry st' st''
    ∧ key_old st' = 0.
Proof.
  apply (press_release_events
           [(1, (2, 1)%nat); (5, (0, 0)%nat); (15, (3, 2)%nat)]
           initial_state).
  - apply initial_state_inv.
  - reflexivity.
  - repeat constructor; unfold is_u8; simpl; lia.
Defined.

(** ** The keypad scan *)

Lemma is_line_cases (n : Z) : is_line n → n = 1 ∨ n = 2 ∨ n = 3 ∨ n = 4.
Proof. unfold is_line. lia. Qed.

(** [key_read] returns the highest code among the keys held and 0 when no
    key is held; the result is between 0 and 16. *)
Theorem key_read_highest_code (col_low : Z → Z → bool) :
  0 <= key_read col_low <= 16
  ∧ (key_read col_low = 0 ↔
     ∀ r c, is_line r → is_line c → col_low r c = false)
  ∧ (key_read col_low ≠ 0 →
     ∃ r c, is_line r ∧ is_line c ∧ col_low r c = true
            ∧ key_read col_low = key_code r c)
  ∧ (∀ r c, is_line r → is_line c → col_low r c = true →
            key_code r c <= key_read col_low).
Proof.
  unfold key_read. cbv zeta. repeat case_match.
  all: split; [lia|].
  all: split; [split|].
  all: try (intros Hzero; discriminate Hzero).
  all: try (intros Hnone;
            match goal with
            | H : _ _ _ = true |- _ =>
                rewrite Hnone in H by (unfold is_line; lia); discriminate H
            end).
  all: try (intros _ r c Hr%is_line_cases Hc%is_line_cases;
            destruct Hr as [Hr | [Hr | [Hr | Hr]]];
            destruct Hc as [Hc | [Hc | [Hc | Hc]]]; subst r c; assumption).
  all: try (intros _; reflexivity).
  all: split.
  all: try (intros _;
            match goal with
            | H : _ ?r ?c = true |- _ =>
                exists r, c; unfold is_line, key_code;
                repeat split; (assumption || lia)
            end).
  all: try (intros Hnz; by destruct Hnz).
  all: intros r c Hr%is_line_cases Hc%is_line_cases Hlow;
    destruct Hr as [Hr | [Hr | [Hr | Hr]]];
    destruct Hc as [Hc | [Hc | [Hc | Hc]]]; subst r c;
    first [ by compute
          | match goal with
            | Hyes : ?b = true, Hno : ?b = false |- _ =>
                rewrite Hyes in Hno; discriminate Hno
            end ].
Qed.

Lemma key_read_highest_code_witness :
  key_code 3 2 <=
  key_read (λ r c, (Z.eqb r 1 && Z.eqb c 4) || (Z.eqb r 3 && Z.eqb c 2)).
Proof.
  destruct (key_read_highest_code
              (λ r c, (Z.eqb r 1 && Z.eqb c 4) || (Z.eqb r 3 && Z.eqb c 2)))
    as (_ & _ & _ & Hmax).
  apply (Hmax 3 2); [unfold is_line; lia..|reflexivity].
Defined.

(** One key held: [key_read] returns [4 (r - 1) + (5 - c)] for the key at
    row [r], column [c]. *)
Theorem key_read_only_key (r c : Z) :
  is_line r → is_line c → key_read (only_key r c) = key_code r c.
Proof.
  intros Hr%is_line_cases Hc%is_line_cases.
  destruct Hr as [-> | [-> | [-> | ->]]];
    destruct Hc as [-> | [-> | [-> | ->]]]; reflexivity.
Qed.

Lemma key_read_only_key_witness : key_read (only_key 4 2) = 15.
Proof. apply (key_read_only_key 4 2); unfold is_line; lia. Defined.

(** The keypad as the scan and the switch together decode it: the keys of
    column 1 do nothing; in rows 1 to 3 the keys of columns 4, 3, 2 are the
    digits [3 (r - 1) + 1] to [3 (r - 1) + 3]; in row 4 column 4 clears,
    column 3 is the digit 0 and column 2 confirms. *)
Theorem keypad_layout (r c : Z) (st : State) :
  is_line r → is_line c →
  switch_key_down (key_read (only_key r c)) st =
  if decide (c = 1) then Some st
  else if decide (r <= 3) then append_digit (3 * (r - 1) + (5 - c)) st
  else if decide (c = 4) then clear_key st
  else if decide (c = 3) then append_digit 0 st
  else confirm_key st.
Proof.
  intros Hr%is_line_cases Hc%is_line_cases.
  destruct Hr as [-> | [-> | [-> | ->]]];
    destruct Hc as [-> | [-> | [-> | ->]]]; reflexivity.
Qed.

Lemma keypad_layout_witness :
  switch_key_down (key_read (only_key 2 3)) initial_state
  = append_digit 5 initial_state.
Proof.
  apply (keypad_layout 2 3 initial_state); unfold is_line; lia.
Defined.

(** ** The actuator *)

Lemma servo_pulse_app (out out' : list Pwm) :
  servo_pulse (out ++ out') =
  match servo_pulse out' with
  | Some pulse => Some pulse
  | None => servo_pulse out
  end.
Proof. unfold servo_pulse. by rewrite omap_app, last_app. Qed.

Lemma servo_pulse_lock_drive (enable : Z) :
  servo_pulse (timer.lock_drive enable) =
  Some (if decide (enable = 1) then PWM_MIN_NS else PWM_90_NS).
Proof. unfold timer.lock_drive. by case_decide. Qed.

(** [lock enable] with the PWM device at hand (handle valid, or found now)
    leaves the handle valid and the servo at the locking pulse when [enable]
    is 1 and at the unlocking pulse for every other value; without the device
    it sets no pulse and does not wait, and the handle stays null. *)
Theorem lock_sets_pulse (enable : Z) (found servo_dev : bool) :
  (servo_dev || found = true →
   (timer.lock enable found servo_dev).1 = true
   ∧ servo_pulse (timer.lock enable found servo_dev).2 =
     Some (if decide (enable = 1) then PWM_MIN_NS else PWM_90_NS))
  ∧ (servo_dev || found = false →
     timer.lock enable found servo_dev = (false, [rt_kprintf msg_cant_find])).
Proof.
  destruct servo_dev, found; unfold timer.lock, timer.TIM2_PWM_Init;
    cbn [orb fst snd]; (split; [intros ? | intros ?]); try done.
  - split; [done|]. apply servo_pulse_lock_drive.
  - split; [done|]. apply servo_pulse_lock_drive.
  - split; [done|]. by rewrite servo_pulse_app, servo_pulse_lock_drive.
Qed.

Lemma lock_sets_pulse_witness :
  servo_pulse (timer.lock 0 true false).2 = Some PWM_90_NS
  ∧ servo_pulse (timer.lock 2 false true).2 = Some PWM_90_NS
  ∧ timer.lock 1 false false = (false, [rt_kprintf msg_cant_find]).
Proof.
  split; [|split].
  - by destruct (lock_sets_pulse 0 true false) as [[_ Hp] _].
  - by destruct (lock_sets_pulse 2 false true) as [[_ Hp] _].
  - destruct (lock_sets_pulse 1 false false) as [_ Hno]. by apply Hno.
Defined.

(** ** The lock calls of the tasks *)

Lemma lock_calls_none (l : list Cmd) :
  (∀ c e, c ∈ l → c ≠ lock e) → lock_calls l = [].
Proof.
  induction l as [|c l IH]; intros Hl; [done|].
  assert (lock_calls l = []) as Hrest.
  { apply IH. intros c' e Hc'. apply Hl. by right. }
  unfold lock_calls in *. cbn [omap].
  destruct c; try exact Hrest.
  by destruct (Hl (lock enable) enable (list_elem_of_here _ _)).
Qed.

Lemma lock_position_cases_app (tr new : list Cmd) :
  lock_position tr = None ∨ lock_position tr = Some 1 →
  lock_calls new = [] ∨ lock_calls new = [1] ∨ lock_calls new = [0; 1] →
  lock_position (tr ++ new) = None ∨ lock_position (tr ++ new) = Some 1.
Proof.
  unfold lock_position. rewrite lock_calls_app.
  intros Htr [-> | [-> | ->]].
  - by rewrite app_nil_r.
  - right. apply last_snoc.
  - right. by rewrite last_app.
Qed.

Lemma reachable_inv_lock_position (st : State) :
  reachable st →
  inv st ∧ (lock_position (trace st) = None
            ∨ lock_position (trace st) = Some 1).
Proof.
  intros Hreach. revert st Hreach.
  apply (rtc_ind_r (R := step)
           (λ s, inv s ∧ (lock_position (trace s) = None
                          ∨ lock_position (trace s) = Some 1))
           initial_state).
  - split; [apply initial_state_inv|by left].
  - intros y z _ Hstep [Hinv Hlock].
    split; [by eapply step_inv|].
    destruct Hinv as [[Hkt Hpw] Hki].
    destruct Hstep as [key_val s s' _ Hbody|s s' Hbody].
    + destruct (key_process_loop_body_trace key_val s s') as (_ & _ & _ & ->);
        [done..|].
      apply lock_position_cases_app; [done|].
      repeat case_decide; auto.
    + destruct (decide (key_index s = key_index_old s)) as [Heq|Hne].
      * rewrite lcd_refresh_idle in Hbody by done. injection Hbody as <-.
        apply lock_position_cases_app; [done|by left].
      * rewrite lcd_refresh_redraw in Hbody by done. injection Hbody as <-.
        apply lock_position_cases_app; [done|left].
        apply lock_calls_none. intros c e Hc.
        rewrite elem_of_cons, elem_of_app in Hc.
        destruct Hc as [-> | [Hc | Hc]]; [done| |].
        -- apply elem_of_lookup_imap_1 in Hc as (j & d & -> & _). done.
        -- apply list_elem_of_singleton in Hc as ->. done.
Qed.

(** In every state the two tasks can reach, the last [lock] call the tasks
    made, if they made one, is [lock 1]: between two loop iterations the door
    is never left unlocked. *)
Theorem reachable_relocked (st : State) :
  reachable st →
  lock_position (trace st) = None ∨ lock_position (trace st) = Some 1.
Proof.
  intros Hreach. by destruct (reachable_inv_lock_position st Hreach).
Qed.

Lemma reachable_relocked_witness :
  lock_position (alarm_sequence ++ [rt_thread_mdelay 10]) = None
  ∨ lock_position (alarm_sequence ++ [rt_thread_mdelay 10]) = Some 1.
Proof.
  apply (reachable_relocked
           (mkState [1; 2; 3; 4; 5; 6] [0; 0; 0; 0; 0; 0; 0] 0 255 15
              (alarm_sequence ++ [rt_thread_mdelay 10]))).
  eapply rtc_l; [|apply rtc_refl].
  apply (step_key 15); [unfold is_u8; lia|reflexivity].
Defined.

(** ** The servo over a whole run *)

Lemma drive_app (found : bool) (cs cs' : list MainCall) (servo_dev : bool) :
  drive found (cs ++ cs') servo_dev =
  ((drive found cs' (drive found cs servo_dev).1).1,
   (drive found cs servo_dev).2
     ++ (drive found cs' (drive found cs servo_dev).1).2).
Proof.
  revert servo_dev. induction cs as [|c cs IH]; intros servo_dev.
  - cbn [app drive fst snd]. by destruct (drive found cs' servo_dev).
  - cbn [app drive].
    destruct (match c with
              | TIM2_PWM_Init => timer.TIM2_PWM_Init found
              | task_cmd (lock enable) => timer.lock enable found servo_dev
              | _ => (servo_dev, [])
              end) as [dev out].
    rewrite IH. destruct (drive found cs dev) as [dev1 out1]. cbn [fst snd].
    destruct (drive found cs' dev1) as [dev2 out2]. cbn [fst snd].
    by rewrite app_assoc.
Qed.

Lemma drive_tasks (found : bool) (tr : list Cmd) :
  drive found (task_cmd <$> tr) true =
  (true, concat (timer.lock_drive <$> lock_calls tr)).
Proof.
  induction tr as [|c tr IH]; [done|].
  rewrite fmap_cons.
  destruct c; cbn [drive]; unfold timer.lock; by rewrite IH.
Qed.

Lemma servo_pulse_drives (enables : list Z) :
  servo_pulse (concat (timer.lock_drive <$> enables)) =
  (λ enable, if decide (enable = 1) then PWM_MIN_NS else PWM_90_NS)
    <$> last enables.
Proof.
  induction enables as [|enable enables IH] using rev_ind; [done|].
  rewrite fmap_app, concat_app, servo_pulse_app, last_snoc.
  cbn [fmap list_fmap concat option_fmap option_map].
  by rewrite app_nil_r, servo_pulse_lock_drive.
Qed.

Lemma drive_boot (key_created lcd_created servo_dev : bool) :
  (drive true ((main key_created lcd_created).2 ++ key_process_thread_init)
     servo_dev).1 = true
  ∧ servo_pulse
      (drive true ((main key_created lcd_created).2 ++ key_process_thread_init)
         servo_dev).2 = Some PWM_MIN_NS.
Proof.
  destruct key_created, lcd_created, servo_dev; split; vm_compute; reflexivity.
Qed.

(** With the PWM device present, from reset on and whatever the tasks have
    done since: between two loop iterations the device handle is valid and
    the pulse the servo was last given is the locking one. *)
Theorem servo_locked_between_iterations
    (key_created lcd_created servo_dev : bool) (st : State) :
  reachable st →
  (drive true (calls_since_reset key_created lcd_created st) servo_dev).1
  = true
  ∧ servo_pulse
      (drive true (calls_since_reset key_created lcd_created st) servo_dev).2
    = Some PWM_MIN_NS.
Proof.
  intros Hreach. unfold calls_since_reset.
  rewrite app_assoc, drive_app.
  destruct (drive_boot key_created lcd_created servo_dev) as [-> Hboot].
  rewrite drive_tasks. cbn [fst snd]. split; [done|].
  rewrite servo_pulse_app, servo_pulse_drives, Hboot.
  destruct (reachable_inv_lock_position st Hreach) as [_ [Hnone | Hlocked]];
    unfold lock_position in *.
  - by rewrite Hnone.
  - by rewrite Hlocked.
Qed.

Lemma servo_locked_between_iterations_witness :
  servo_pulse
    (drive true
       (calls_since_reset true true
          (mkState [1; 2; 3; 4; 5; 6] [0; 0; 0; 0; 0; 0; 0] 0 255 15
             (alarm_sequence ++ [rt_thread_mdelay 10]))) false).2
  = Some PWM_MIN_NS.
Proof.
  apply (servo_locked_between_iterations true true false).
  eapply rtc_l; [|apply rtc_refl].
  apply (step_key 15); [unfold is_u8; lia|reflexivity].
Defined.

(** Without the PWM device the servo is never driven: whatever calls are
    made, each [TIM2_PWM_Init] and each [lock] only prints that the device
    is missing, no pulse is set and the handle stays null. *)
Theorem servo_idle_without_device (cs : list MainCall) :
  (drive false cs false).1 = false
  ∧ Forall (λ e, e = rt_kprintf msg_cant_find) (drive false cs false).2
  ∧ servo_pulse (drive false cs false).2 = None.
Proof.
  assert ((drive false cs false).1 = false
          ∧ Forall (λ e, e = rt_kprintf msg_cant_find) (drive false cs false).2)
    as [Hdev Hout].
  { induction cs as [|c cs [IHdev IHout]]; [by split|].
    cbn [drive].
    assert ((match c with
             | TIM2_PWM_Init => timer.TIM2_PWM_Init false
             | task_cmd (lock enable) => timer.lock enable false false
             | _ => (false, [])
             end = (false, []))
            ∨ (match c with
               | TIM2_PWM_Init => timer.TIM2_PWM_Init false
               | task_cmd (lock enable) => timer.lock enable false false
               | _ => (false, [])
               end = (false, [rt_kprintf msg_cant_find]))) as [-> | ->].
    { destruct c as [| | | | |[]| |]; auto. }
    - by destruct (drive false cs false).
    - destruct (drive false cs false) as [dev out]. cbn [fst snd] in *.
      split; [done|]. by constructor. }
  split; [done|]. split; [done|].
  unfold servo_pulse.
  induction Hout as [|e out -> _ IH]; [done|]. exact IH.
Qed.

(** ** The LCD driver *)

Lemma wrap16_small (z : Z) : is_u16 z → wrap16 z = z.
Proof. intros Hz. unfold wrap16. by apply Z.mod_small. Qed.

Lemma wrap16_u16 (z : Z) : is_u16 (wrap16 z).
Proof. unfold is_u16, wrap16. apply Z.mod_pos_bound. lia. Qed.

Lemma bus_words_app (out out' : list Bus) :
  bus_words (out ++ out') = bus_words out ++ bus_words out'.
Proof. apply omap_app. Qed.

Lemma word_bytes (dat : Z) :
  is_u16 dat →
  is_u8 (wrap8 (Z.shiftr dat 8)) ∧ is_u8 (wrap8 (Z.land dat 0xff))
  ∧ wrap8 (Z.shiftr dat 8) * 256 + wrap8 (Z.land dat 0xff) = dat.
Proof.
  intros Hdat.
  rewrite Z.shiftr_div_pow2 by lia. change (2 ^ 8) with 256.
  change 255 with (Z.ones 8). rewrite Z.land_ones by lia.
  change (2 ^ 8) with 256. unfold wrap8, is_u8, is_u16 in *.
  rewrite Z.mod_mod by lia.
  rewrite (Z.mod_small (dat / 256)) by (split; [apply Z.div_pos|
    apply Z.div_lt_upper_bound]; lia).
  split; [split; [apply Z.div_pos|apply Z.div_lt_upper_bound]; lia|].
  split; [apply Z.mod_pos_bound; lia|].
  pose proof (Z.div_mod dat 256). lia.
Qed.

(** [LCD_WR_DATA] sends a 16-bit word as two bytes, high byte first, from
    which the word is read back. *)
Theorem LCD_WR_DATA_word (dat : Z) :
  is_u16 dat →
  ∃ hi lo, lcd.LCD_WR_DATA dat = [LCD_DC true; rt_spi_send [hi; lo]]
           ∧ is_u8 hi ∧ is_u8 lo
           ∧ hi * 256 + lo = dat.
Proof.
  intros Hdat. unfold lcd.LCD_WR_DATA. eexists _, _. split; [done|].
  by apply word_bytes.
Qed.

Lemma LCD_WR_DATA_word_witness :
  ∃ hi lo, lcd.LCD_WR_DATA 0xF800 = [LCD_DC true; rt_spi_send [hi; lo]]
           ∧ is_u8 hi ∧ is_u8 lo ∧ hi * 256 + lo = 0xF800.
Proof. apply (LCD_WR_DATA_word 0xF800). unfold is_u16. lia. Defined.

Lemma bus_words_WR_DATA (dat : Z) :
  is_u16 dat → bus_words (lcd.LCD_WR_DATA dat) = [dat].
Proof.
  intros Hdat. destruct (word_bytes dat Hdat) as (_ & _ & Hword).
  change (bus_words (lcd.LCD_WR_DATA dat))
    with [wrap8 (Z.shiftr dat 8) * 256 + wrap8 (Z.land dat 0xff)].
  by rewrite Hword.
Qed.

Lemma bus_words_set_window (dx dy x1 y1 x2 y2 : Z) :
  bus_words (lcd.set_window dx dy x1 y1 x2 y2) =
  [wrap16 (x1 + dx); wrap16 (x2 + dx); wrap16 (y1 + dy); wrap16 (y2 + dy)].
Proof.
  unfold lcd.set_window. rewrite !bus_words_app.
  rewrite !bus_words_WR_DATA by apply wrap16_u16. reflexivity.
Qed.

Lemma bus_words_Address_Set (x1 y1 x2 y2 : Z) :
  bus_words (lcd.LCD_Address_Set x1 y1 x2 y2) =
  [wrap16 (x1 + 2); wrap16 (x2 + 2); wrap16 (y1 + 3); wrap16 (y2 + 3)].
Proof. apply bus_words_set_window. Qed.

Lemma bus_words_repeat {A : Type} (l : list A) (out : list Bus) :
  bus_words (l ≫= λ _, out) = mjoin (replicate (length l) (bus_words out)).
Proof.
  induction l as [|a l IH]; [done|].
  cbn [mbind list_bind length replicate mjoin list_join].
  rewrite bus_words_app. f_equal. apply IH.
Qed.

Lemma join_replicate_replicate {A : Type} (n m : nat) (x : A) :
  mjoin (replicate n (replicate m x)) = replicate (n * m) x.
Proof.
  induction n as [|n IH]; [done|].
  change (replicate m x ++ mjoin (replicate n (replicate m x))
          = replicate (m + n * m) x).
  by rewrite IH, replicate_add.
Qed.

(** [LCD_Fill] sets the window, then sends one word of the given colour for
    each cell of the rectangle: [(xend - xsta) * (yend - ysta)] words, none
    when the rectangle is empty.  When the rectangle is not empty this is the
    number of cells of the window it has set. *)
Theorem LCD_Fill_area (xsta ysta xend yend color : Z) :
  is_u16 xsta → is_u16 ysta → is_u16 xend → is_u16 yend → is_u16 color →
  bus_words (lcd.LCD_Fill xsta ysta xend yend color) =
    [wrap16 (xsta + 2); wrap16 (wrap16 (xend - 1) + 2);
     wrap16 (ysta + 3); wrap16 (wrap16 (yend - 1) + 3)]
    ++ replicate (Z.to_nat (yend - ysta) * Z.to_nat (xend - xsta)) color
  ∧ (xsta < xend → ysta < yend →
     Z.of_nat (Z.to_nat (yend - ysta) * Z.to_nat (xend - xsta)) =
     (wrap16 (xend - 1) - xsta + 1) * (wrap16 (yend - 1) - ysta + 1)).
Proof.
  intros Hxs Hys Hxe Hye Hc. split.
  - unfold lcd.LCD_Fill. rewrite bus_words_app, bus_words_Address_Set.
    f_equal.
    rewrite !bus_words_repeat, !length_seqZ.
    rewrite bus_words_WR_DATA by done.
    change [color] with (replicate 1 color).
    rewrite !join_replicate_replicate. f_equal. lia.
  - intros Hx Hy. unfold is_u16 in *.
    rewrite !wrap16_small by (unfold is_u16; lia). lia.
Qed.

Lemma LCD_Fill_area_witness :
  bus_words (lcd.LCD_Fill 16 45 112 60 YELLOW) =
    [wrap16 (16 + 2); wrap16 (wrap16 (112 - 1) + 2);
     wrap16 (45 + 3); wrap16 (wrap16 (60 - 1) + 3)]
    ++ replicate (Z.to_nat (60 - 45) * Z.to_nat (112 - 16)) YELLOW.
Proof.
  destruct (LCD_Fill_area 16 45 112 60 YELLOW) as [Hwords _];
    [unfold is_u16, YELLOW; lia..|].
  exact Hwords.
Defined.

(** ** Numbers on the display *)

Lemma mypow_from_spec (n : nat) (m result : Z) :
  0 <= result < 2 ^ 32 →
  lcd.mypow_from n m result = (result * m ^ Z.of_nat n) mod 2 ^ 32.
Proof.
  revert result. induction n as [|n IH]; intros result Hres.
  - cbn [lcd.mypow_from]. rewrite Z.pow_0_r, Z.mul_1_r.
    by rewrite Z.mod_small.
  - cbn [lcd.mypow_from]. rewrite IH by (apply Z.mod_pos_bound; lia).
    unfold wrap32. rewrite Z.mul_mod_idemp_l by lia.
    rewrite Nat2Z.inj_succ, Z.pow_succ_r by lia. f_equal. lia.
Qed.

(** [mypow m n] is [m] to the power [n] in 32-bit unsigned arithmetic. *)
Theorem mypow_spec (m n : Z) :
  0 <= n → lcd.mypow m n = (m ^ n) mod 2 ^ 32.
Proof.
  intros Hn. unfold lcd.mypow. rewrite mypow_from_spec by lia.
  by rewrite Z.mul_1_l, Z2Nat.id.
Qed.

Lemma mypow_spec_witness : lcd.mypow 10 10 = (10 ^ 10) mod 2 ^ 32.
Proof. apply (mypow_spec 10 10). lia. Defined.

Lemma mypow_10_low (k : Z) :
  0 <= k <= 31 →
  (lcd.mypow 10 k = 10 ^ k ∧ 0 < 10 ^ k)
  ∨ (65535 < lcd.mypow 10 k ∧ 65535 < 10 ^ k).
Proof.
  intros Hk.
  assert (k = 0 ∨ k = 1 ∨ k = 2 ∨ k = 3 ∨ k = 4 ∨ k = 5 ∨ k = 6 ∨ k = 7
          ∨ k = 8 ∨ k = 9 ∨ k = 10 ∨ k = 11 ∨ k = 12 ∨ k = 13 ∨ k = 14
          ∨ k = 15 ∨ k = 16 ∨ k = 17 ∨ k = 18 ∨ k = 19 ∨ k = 20 ∨ k = 21
          ∨ k = 22 ∨ k = 23 ∨ k = 24 ∨ k = 25 ∨ k = 26 ∨ k = 27 ∨ k = 28
          ∨ k = 29 ∨ k = 30 ∨ k = 31) as Hcases by lia.
  repeat (destruct Hcases as [-> | Hcases]); try subst k;
    first [ left; split; [vm_compute; reflexivity | vm_compute; reflexivity]
          | right; split; vm_compute; reflexivity ].
Qed.

Lemma mypow_10_high (k : Z) : 32 <= k → lcd.mypow 10 k = 0.
Proof.
  intros Hk. unfold lcd.mypow. rewrite mypow_from_spec by lia.
  rewrite Z.mul_1_l, Z2Nat.id by lia.
  replace k with (32 + (k - 32)) by lia.
  rewrite Z.pow_add_r by lia.
  rewrite <- Z.mul_mod_idemp_l by lia.
  change (10 ^ 32 mod 2 ^ 32) with 0. by rewrite Z.mul_0_l.
Qed.

(** The digit [LCD_ShowIntNum] computes for a place below the 32nd. *)
Lemma ShowIntNum_digit (num k : Z) :
  is_u16 num → 0 <= k <= 31 →
  lcd.mypow 10 k ≠ 0
  ∧ wrap8 ((num / lcd.mypow 10 k) mod 10) = (num / 10 ^ k) mod 10
  ∧ 0 <= (num / 10 ^ k) mod 10 <= 9.
Proof.
  intros Hnum Hk. unfold is_u16 in Hnum.
  assert (0 <= (num / 10 ^ k) mod 10 <= 9) as Hdigit.
  { pose proof (Z.mod_pos_bound (num / 10 ^ k) 10). lia. }
  destruct (mypow_10_low k Hk) as [[Hp Hpos] | [Hp Hpow]].
  - rewrite Hp. split; [lia|]. split; [|done].
    by rewrite wrap8_small by (unfold is_u8; lia).
  - split; [lia|]. split; [|done].
    rewrite !Z.div_small by lia. reflexivity.
Qed.

Lemma decimal_step (acc temp num : Z) (n : nat) :
  temp = (num / 10 ^ Z.of_nat n) mod 10 →
  (10 * acc + temp) * 10 ^ Z.of_nat n + num mod 10 ^ Z.of_nat n
  = acc * 10 ^ Z.of_nat (S n) + num mod 10 ^ Z.of_nat (S n).
Proof.
  intros ->. rewrite Nat2Z.inj_succ, Z.pow_succ_r by lia.
  assert (0 < 10 ^ Z.of_nat n) as Hpos by (apply Z.pow_pos_nonneg; lia).
  rewrite (Z.mul_comm 10 (10 ^ Z.of_nat n)).
  rewrite Z.rem_mul_r by lia. lia.
Qed.

Lemma ShowIntNum_loop_spec (n : nat) (t enshow acc x y num len fc bc sizey : Z) :
  is_u16 num → len <= 32 → 0 <= t → t + Z.of_nat n = len →
  ∃ glyphs,
    lcd.ShowIntNum_loop n t enshow x y num len fc bc sizey = Some glyphs
    ∧ length glyphs = n
    ∧ foldl (λ acc d, 10 * acc + d) acc (glyph_digit <$> glyphs)
      = acc * 10 ^ Z.of_nat n + num mod 10 ^ Z.of_nat n
    ∧ ∀ (j : nat) (c : Cmd),
        glyphs !! j = Some c →
        ∃ ch, c = LCD_ShowChar (wrap16 (x + (t + Z.of_nat j) * (sizey / 2)))
                               y ch fc bc sizey 0
              ∧ (ch = 32 ∨ 48 <= ch <= 57)
              ∧ (t + Z.of_nat j = len - 1 → ch ≠ 32).
Proof.
  intros Hnum Hlen. revert t enshow acc.
  induction n as [|n IH]; intros t enshow acc Ht Htn.
  - exists []. split; [done|]. split; [done|]. split.
    + cbn. rewrite Z.mod_1_r. lia.
    + intros j c Hc. done.
  - cbn [lcd.ShowIntNum_loop].
    replace (len - t - 1) with (Z.of_nat n) by lia.
    rewrite (wrap8_small (Z.of_nat n)) by (unfold is_u8; lia).
    destruct (ShowIntNum_digit num (Z.of_nat n) Hnum ltac:(lia))
      as (Hp & Htemp & Hdigit).
    rewrite decide_False by done. rewrite Htemp.
    set (temp := (num / 10 ^ Z.of_nat n) mod 10) in *.
    assert (∀ enshow' ch,
              glyph_digit
                (LCD_ShowChar (wrap16 (x + t * (sizey / 2))) y ch fc bc sizey 0)
              = temp →
              (ch = 32 ∨ 48 <= ch <= 57) →
              (t = len - 1 → ch ≠ 32) →
              ∃ glyphs,
                (lcd.ShowIntNum_loop n (t + 1) enshow' x y num len fc bc sizey
                   ≫= λ rest,
                     Some (LCD_ShowChar (wrap16 (x + t * (sizey / 2))) y ch
                                        fc bc sizey 0 :: rest))
                = Some glyphs
                ∧ length glyphs = S n
                ∧ foldl (λ acc d, 10 * acc + d) acc (glyph_digit <$> glyphs)
                  = acc * 10 ^ Z.of_nat (S n) + num mod 10 ^ Z.of_nat (S n)
                ∧ ∀ (j : nat) (c : Cmd),
                    glyphs !! j = Some c →
                    ∃ ch', c = LCD_ShowChar
                                 (wrap16 (x + (t + Z.of_nat j) * (sizey / 2)))
                                 y ch' fc bc sizey 0
                           ∧ (ch' = 32 ∨ 48 <= ch' <= 57)
                           ∧ (t + Z.of_nat j = len - 1 → ch' ≠ 32)) as Hcons.
    { intros enshow' ch Hval Hch Hlast.
      destruct (IH (t + 1) enshow' (10 * acc + temp) ltac:(lia) ltac:(lia))
        as (rest & -> & Hlen' & Hsum & Hrest).
      eexists. split; [done|]. split; [by rewrite <- Hlen'|]. split.
      - rewrite fmap_cons. cbn [foldl]. rewrite Hval, Hsum.
        by apply decimal_step.
      - intros [|j] c Hc.
        + injection Hc as <-. exists ch.
          rewrite Z.add_0_r. split; [done|]. split; [done|].
          intros Heq. apply Hlast. lia.
        + destruct (Hrest j c Hc) as (ch' & -> & Hch' & Hlast').
          exists ch'. split; [do 3 f_equal; lia|]. split; [done|].
          intros Heq. apply Hlast'. lia. }
    destruct (decide (enshow = 0 ∧ t < len - 1)) as [[_ Hnotlast]|_];
      [destruct (decide (temp = 0)) as [Hzero|Hnz]|].
    + apply Hcons; [cbn; by rewrite decide_True|by left|lia].
    + rewrite wrap8_small by (unfold is_u8; lia).
      apply Hcons; [cbn; rewrite decide_False by lia; lia|right; lia|lia].
    + rewrite wrap8_small by (unfold is_u8; lia).
      apply Hcons; [cbn; rewrite decide_False by lia; lia|right; lia|lia].
Qed.

(** [LCD_ShowIntNum] for a field of at most 32 places: one glyph per place,
    [sizey / 2] pixels apart, each a blank or a decimal digit, the last one
    always a digit; read as a decimal number, blanks counting as 0, the
    glyphs give [num] modulo [10 ^ len], hence [num] itself when it has at
    most [len] digits. *)
Theorem LCD_ShowIntNum_decimal (x y num len fc bc sizey : Z) :
  is_u16 num → 0 <= len <= 32 →
  ∃ glyphs,
    lcd.LCD_ShowIntNum x y num len fc bc sizey = Some glyphs
    ∧ Z.of_nat (length glyphs) = len
    ∧ decimal (glyph_digit <$> glyphs) = num mod 10 ^ len
    ∧ (num < 10 ^ len → decimal (glyph_digit <$> glyphs) = num)
    ∧ ∀ (j : nat) (c : Cmd),
        glyphs !! j = Some c →
        ∃ ch, c = LCD_ShowChar (wrap16 (x + Z.of_nat j * (sizey / 2)))
                               y ch fc bc sizey 0
              ∧ (ch = 32 ∨ 48 <= ch <= 57)
              ∧ (Z.of_nat j = len - 1 → ch ≠ 32).
Proof.
  intros Hnum Hlen. unfold lcd.LCD_ShowIntNum.
  destruct (ShowIntNum_loop_spec (Z.to_nat len) 0 0 0 x y num len fc bc sizey)
    as (glyphs & -> & Hcount & Hsum & Hglyphs); [done|lia|lia|lia|].
  exists glyphs. split; [done|]. split; [lia|].
  rewrite Z2Nat.id in Hsum by lia.
  assert (decimal (glyph_digit <$> glyphs) = num mod 10 ^ len) as Hdec
    by (unfold decimal; rewrite Hsum; lia).
  split; [done|]. split.
  - intros Hfits. rewrite Hdec. apply Z.mod_small. unfold is_u16 in Hnum. lia.
  - intros j c Hc. destruct (Hglyphs j c Hc) as (ch & -> & Hch & Hlast).
    exists ch. by rewrite Z.add_0_l in *.
Qed.

Lemma LCD_ShowIntNum_decimal_witness :
  ∃ glyphs,
    lcd.LCD_ShowIntNum 0 0 123 5 RED WHITE 16 = Some glyphs
    ∧ Z.of_nat (length glyphs) = 5
    ∧ decimal (glyph_digit <$> glyphs) = 123.
Proof.
  destruct (LCD_ShowIntNum_decimal 0 0 123 5 RED WHITE 16)
    as (glyphs & Hshow & Hcount & _ & Hnum & _);
    [unfold is_u16; lia | lia |].
  exists glyphs. split; [done|]. split; [done|]. apply Hnum. lia.
Defined.

(** A field of more than 32 places makes [LCD_ShowIntNum] divide by 0: the
    first place needs [10 ^ (len - 1)], which is 0 in 32-bit arithmetic. *)
Theorem LCD_ShowIntNum_wide (x y num len fc bc sizey : Z) :
  33 <= len <= 255 →
  lcd.LCD_ShowIntNum x y num len fc bc sizey = None.
Proof.
  intros Hlen. unfold lcd.LCD_ShowIntNum.
  destruct (Z.to_nat len) as [|n] eqn:Hn; [lia|].
  cbn [lcd.ShowIntNum_loop].
  rewrite wrap8_small by (unfold is_u8; lia).
  rewrite mypow_10_high by lia. by rewrite decide_True.
Qed.

Lemma LCD_ShowIntNum_wide_witness :
  lcd.LCD_ShowIntNum 0 0 7 33 RED WHITE 16 = None.
Proof. apply (LCD_ShowIntNum_wide 0 0 7 33 RED WHITE 16). lia. Defined.

(** ** Lines *)

Lemma DrawLine_loop_mono (fuel : nat) :
  ∀ (fuel' : nat)
    (t delta_x delta_y distance incx incy xerr yerr uRow uCol : Z)
    (points : list (Z * Z)),
    (fuel ≤ fuel')%nat →
    lcd.DrawLine_loop fuel t delta_x delta_y distance incx incy
                      xerr yerr uRow uCol = Some points →
    lcd.DrawLine_loop fuel' t delta_x delta_y distance incx incy
                      xerr yerr uRow uCol = Some points.
Proof.
  induction fuel as [|fuel IH];
    intros fuel' t delta_x delta_y distance incx incy xerr yerr uRow uCol
           points Hfuel; [done|].
  destruct fuel' as [|fuel']; [lia|]. cbn [lcd.DrawLine_loop].
  case_decide; [|done].
  destruct (decide (xerr + delta_x > distance));
    destruct (decide (yerr + delta_y > distance));
    match goal with
    | |- context [lcd.DrawLine_loop fuel ?t' delta_x delta_y distance
                    incx incy ?xe ?ye ?ur ?uc] =>
        destruct (lcd.DrawLine_loop fuel t' delta_x delta_y distance
                    incx incy xe ye ur uc) as [rest|] eqn:Hrest; [|done];
        rewrite (IH fuel' t' delta_x delta_y distance incx incy
                    xe ye ur uc rest) by (done || lia)
    end; done.
Qed.

(** The loop of [LCD_DrawLine] ends when [distance] is below 65535, after
    [distance + 1] points. *)
Lemma DrawLine_loop_total (n : nat) :
  ∀ (fuel : nat) (t delta_x delta_y distance incx incy xerr yerr uRow uCol : Z),
    (n < fuel)%nat → 0 <= t → t + Z.of_nat n = distance + 1 →
    distance < 65535 →
    ∃ points,
      lcd.DrawLine_loop fuel t delta_x delta_y distance incx incy
                        xerr yerr uRow uCol = Some points
      ∧ length points = n.
Proof.
  induction n as [|n IH];
    intros fuel t delta_x delta_y distance incx incy xerr yerr uRow uCol
           Hfuel Ht Htn Hdist;
    (destruct fuel as [|fuel]; [lia|]); cbn [lcd.DrawLine_loop].
  - rewrite decide_False by lia. by exists [].
  - rewrite decide_True by lia.
    rewrite (wrap16_small (t + 1)) by (unfold is_u16; lia).
    destruct (decide (xerr + delta_x > distance));
      destruct (decide (yerr + delta_y > distance));
      match goal with
      | |- context [lcd.DrawLine_loop fuel (t + 1) delta_x delta_y distance
                      incx incy ?xe ?ye ?ur ?uc] =>
          destruct (IH fuel (t + 1) delta_x delta_y distance incx incy
                      xe ye ur uc) as (rest & -> & Hlen); [lia..|]
      end;
      eexists; (split; [done|]); cbn; by rewrite Hlen.
Qed.

(** With [distance] at 65535 the loop has no exit: the [u16] counter [t]
    is always below [distance + 1]. *)
Lemma DrawLine_loop_endless (fuel : nat) :
  ∀ (t delta_x delta_y incx incy xerr yerr uRow uCol : Z),
    is_u16 t →
    lcd.DrawLine_loop fuel t delta_x delta_y 65535 incx incy
                      xerr yerr uRow uCol = None.
Proof.
  induction fuel as [|fuel IH];
    intros t delta_x delta_y incx incy xerr yerr uRow uCol Ht; [done|].
  cbn [lcd.DrawLine_loop].
  rewrite decide_True by (unfold is_u16 in Ht; lia).
  destruct (decide (xerr + delta_x > 65535));
    destruct (decide (yerr + delta_y > 65535));
    by rewrite IH by apply wrap16_u16.
Qed.

(** The number of steps of a line is the larger of its two extents, the
    vertical one counting only when the line goes down. *)
Lemma DrawLine_points_distance (fuel : nat) (x1 y1 x2 y2 : Z) :
  ∃ delta_x delta_y incx incy,
    lcd.DrawLine_points fuel x1 y1 x2 y2 =
    lcd.DrawLine_loop fuel 0 delta_x delta_y
      (Z.max (Z.abs (x2 - x1)) (y2 - y1)) incx incy 0 0 x1 y1
    ∧ ∀ fuel', lcd.DrawLine_points fuel' x1 y1 x2 y2 =
               lcd.DrawLine_loop fuel' 0 delta_x delta_y
                 (Z.max (Z.abs (x2 - x1)) (y2 - y1)) incx incy 0 0 x1 y1.
Proof.
  unfold lcd.DrawLine_points.
  destruct (decide (x2 - x1 > 0)); [|destruct (decide (x2 - x1 = 0))];
    (destruct (decide (y2 - y1 > 0)); [|destruct (decide (y2 - y1 = 0))]);
    cbv zeta; case_decide; eexists _, _, _, _;
    (split; [|intros fuel']); f_equal; lia.
Qed.

(** [LCD_DrawLine] returns, after drawing one point more than the number of
    steps of the line, unless that number is 65535, in which case it never
    returns. *)
Theorem LCD_DrawLine_returns (x1 y1 x2 y2 color : Z) :
  is_u16 x1 → is_u16 y1 → is_u16 x2 → is_u16 y2 →
  (Z.max (Z.abs (x2 - x1)) (y2 - y1) < 65535 →
   ∃ points,
     Z.of_nat (length points) = Z.max (Z.abs (x2 - x1)) (y2 - y1) + 1
     ∧ ∀ fuel,
         (Z.max (Z.abs (x2 - x1)) (y2 - y1) + 1 < Z.of_nat fuel) →
         lcd.LCD_DrawLine fuel x1 y1 x2 y2 color =
         Some (points ≫= λ p, lcd.LCD_DrawPoint p.1 p.2 color))
  ∧ (Z.max (Z.abs (x2 - x1)) (y2 - y1) = 65535 →
     ∀ fuel, lcd.LCD_DrawLine fuel x1 y1 x2 y2 color = None).
Proof.
  intros Hx1 Hy1 Hx2 Hy2. unfold is_u16 in *.
  destruct (DrawLine_points_distance 0 x1 y1 x2 y2)
    as (dx & dy & ix & iy & _ & Hpoints).
  set (distance := Z.max (Z.abs (x2 - x1)) (y2 - y1)) in *.
  assert (0 <= distance) as Hnonneg by (subst distance; lia).
  clearbody distance.
  split.
  - intros Hdist.
    destruct (DrawLine_loop_total (Z.to_nat (distance + 1))
                (S (Z.to_nat (distance + 1))) 0 dx dy distance ix iy 0 0 x1 y1)
      as (points & Hloop & Hlen); [lia..|].
    exists points. split; [lia|]. intros fuel Hfuel.
    unfold lcd.LCD_DrawLine. rewrite Hpoints.
    rewrite (DrawLine_loop_mono (S (Z.to_nat (distance + 1))) fuel
               0 dx dy distance ix iy 0 0 x1 y1 points); [done|lia|done].
  - intros Hdist fuel. unfold lcd.LCD_DrawLine.
    rewrite Hpoints, Hdist.
    by rewrite DrawLine_loop_endless by (unfold is_u16; lia).
Qed.

Lemma LCD_DrawLine_returns_witness :
  (∃ points,
     Z.of_nat (length points) = Z.max (Z.abs (4 - 0)) (4 - 0) + 1
     ∧ lcd.LCD_DrawLine 10 0 0 4 4 RED =
       Some (points ≫= λ p, lcd.LCD_DrawPoint p.1 p.2 RED))
  ∧ lcd.LCD_DrawLine 50 0 7 65535 7 RED = None.
Proof.
  split.
  - destruct (LCD_DrawLine_returns 0 0 4 4 RED) as [Hret _];
      [unfold is_u16; lia..|].
    destruct Hret as (points & Hlen & Hfuel); [lia|].
    exists points. split; [exact Hlen|]. apply Hfuel. lia.
  - destruct (LCD_DrawLine_returns 0 7 65535 7 RED) as [_ Hloop];
      [unfold is_u16; lia..|].
    apply Hloop. lia.
Defined.

(** The loop of [LCD_DrawLine] on a line that goes straight down, once the
    first point is drawn. *)
Lemma DrawLine_loop_down (n : nat) :
  ∀ (fuel : nat) (t delta_x d incx xerr yerr x uCol : Z),
    (n < fuel)%nat → 0 <= t → t + Z.of_nat n = d + 1 → d < 65535 →
    0 < d → delta_x = 0 → xerr = 0 → yerr = d →
    is_u16 x → 0 <= uCol → uCol + Z.of_nat n <= 65536 →
    lcd.DrawLine_loop fuel t delta_x d d incx 1 xerr yerr x uCol
    = Some ((λ y, (x, y)) <$> seqZ uCol (Z.of_nat n)).
Proof.
  induction n as [|n IH];
    intros fuel t delta_x d incx xerr yerr x uCol
           Hfuel Ht Htn Hd Hpos -> -> -> Hx Hcol Hend;
    (destruct fuel as [|fuel]; [lia|]); cbn [lcd.DrawLine_loop].
  - by rewrite decide_False by lia.
  - rewrite decide_True by lia.
    rewrite decide_False by lia. rewrite decide_True by lia.
    rewrite (wrap16_small (t + 1)), (wrap16_small x), (wrap16_small uCol)
      by (unfold is_u16 in *; lia).
    rewrite (IH fuel (t + 1) 0 d incx (0 + 0) (d + d - d) x (uCol + 1))
      by (done || lia).
    cbn [mbind option_bind].
    rewrite (seqZ_cons uCol) by lia. rewrite fmap_cons.
    do 4 f_equal; lia.
Qed.

Lemma DrawLine_down_points (fuel : nat) (x y1 y2 : Z) :
  is_u16 x → is_u16 y1 → is_u16 y2 → y1 < y2 → y2 - y1 < 65535 →
  y2 - y1 + 1 < Z.of_nat fuel →
  lcd.DrawLine_points fuel x y1 x y2
  = Some ((x, y1) :: ((λ y, (x, y)) <$> seqZ y1 (y2 - y1))).
Proof.
  intros Hx Hy1 Hy2 Hlt Hd Hfuel. unfold is_u16 in *.
  unfold lcd.DrawLine_points.
  rewrite (decide_False (P := x - x > 0)) by lia.
  rewrite (decide_True (P := x - x = 0)) by lia.
  rewrite (decide_True (P := y2 - y1 > 0)) by lia. cbv zeta.
  rewrite (decide_False (P := x - x > y2 - y1)) by lia.
  destruct fuel as [|fuel]; [lia|]. cbn [lcd.DrawLine_loop].
  rewrite decide_True by lia.
  rewrite !decide_False by lia.
  rewrite (wrap16_small (0 + 1)), (wrap16_small x), (wrap16_small y1)
    by (unfold is_u16; lia).
  rewrite (DrawLine_loop_down (Z.to_nat (y2 - y1)))
    by (done || unfold is_u16 || idtac; lia).
  cbn [mbind option_bind]. by rewrite Z2Nat.id by lia.
Qed.



(** The progress bar of [main]: each of its 128 lines, asked from row 100 to
    row 128, is drawn on the rows 100 to 127 of its column, all of them on
    the 128 by 128 panel. *)
Theorem main_progress_bar_on_screen (fuel : nat) (i : Z) :
  0 <= i < 128 → (30 ≤ fuel)%nat →
  LCD_DrawLine i 100 i 128 RED ∈ (main true true).2
  ∧ ∃ points,
      lcd.DrawLine_points fuel i 100 i 128 = Some points
      ∧ Forall (λ p, p.1 = i ∧ 100 <= p.2 < 128) points
      ∧ ∀ y, 100 <= y < 128 → (i, y) ∈ points.
Proof.
  intros Hi Hfuel. split.
  - unfold main. cbn [snd]. rewrite !elem_of_app. right. left.
    apply list_elem_of_bind. exists i. split; [apply list_elem_of_here|].
    apply elem_of_seqZ. lia.
  - rewrite (DrawLine_down_points fuel i 100 128) by (unfold is_u16; lia).
    eexists. split; [done|]. split.
    + constructor; [cbn; lia|]. apply Forall_fmap, Forall_forall.
      intros y Hy%elem_of_seqZ. cbn. lia.
    + intros y Hy. right. apply list_elem_of_fmap. exists y.
      split; [done|]. apply elem_of_seqZ. lia.
Qed.

Lemma main_progress_bar_on_screen_witness :
  LCD_DrawLine 127 100 127 128 RED ∈ (main true true).2.
Proof.
  apply (main_progress_bar_on_screen 30 127); lia.
Defined.

(** Once [yerr] and [delta_y] are not positive the row never changes, and
    what they and [incy] are does not matter. *)
Lemma DrawLine_loop_flat (fuel : nat) :
  ∀ (t delta_x delta_y delta_y' distance distance' incx incy incy'
     xerr yerr yerr' uRow uCol : Z),
    distance = distance' → 0 <= distance →
    delta_y <= 0 → delta_y' <= 0 → yerr <= 0 → yerr' <= 0 →
    lcd.DrawLine_loop fuel t delta_x delta_y distance incx incy
                      xerr yerr uRow uCol
    = lcd.DrawLine_loop fuel t delta_x delta_y' distance' incx incy'
                        xerr yerr' uRow uCol.
Proof.
  induction fuel as [|fuel IH];
    intros t delta_x delta_y delta_y' distance distance' incx incy incy'
           xerr yerr yerr' uRow uCol <- Hdist Hdy Hdy' Hyerr Hyerr'; [done|].
  cbn [lcd.DrawLine_loop]. case_decide; [|done].
  rewrite (decide_False (P := yerr + delta_y > distance)) by lia.
  rewrite (decide_False (P := yerr' + delta_y' > distance)) by lia.
  destruct (decide (xerr + delta_x > distance));
    f_equal; apply IH; first [done | lia].
Qed.

(** A line whose end lies above its start is drawn as the level line from
    its start towards the column of its end: the rise is lost. *)
Theorem LCD_DrawLine_up_is_level (fuel : nat) (x1 y1 x2 y2 color : Z) :
  y2 < y1 →
  lcd.DrawLine_points fuel x1 y1 x2 y2 = lcd.DrawLine_points fuel x1 y1 x2 y1
  ∧ lcd.LCD_DrawLine fuel x1 y1 x2 y2 color
    = lcd.LCD_DrawLine fuel x1 y1 x2 y1 color.
Proof.
  intros Hup.
  assert (lcd.DrawLine_points fuel x1 y1 x2 y2
          = lcd.DrawLine_points fuel x1 y1 x2 y1) as Hpts.
  { unfold lcd.DrawLine_points.
    destruct (decide (x2 - x1 > 0)); [|destruct (decide (x2 - x1 = 0))];
      cbv beta iota zeta;
      rewrite (decide_False (P := y2 - y1 > 0)) by lia;
      rewrite (decide_False (P := y2 - y1 = 0)) by lia;
      rewrite (decide_False (P := y1 - y1 > 0)) by lia;
      rewrite (decide_True (P := y1 - y1 = 0)) by lia;
      cbv beta iota zeta; repeat case_decide;
      apply DrawLine_loop_flat; lia. }
  split; [done|]. unfold lcd.LCD_DrawLine. by rewrite Hpts.
Qed.

Lemma LCD_DrawLine_up_is_level_witness :
  lcd.DrawLine_points 20 5 10 9 7 = lcd.DrawLine_points 20 5 10 9 10.
Proof. apply (LCD_DrawLine_up_is_level 20 5 10 9 7 RED). lia. Defined.

(** ** Pictures *)

Lemma times_add {S : Type} (n m : nat) (body : S → option S) (s : S) :
  lcd.times (n + m) body s = lcd.times n body s ≫= lcd.times m body.
Proof.
  revert s. induction n as [|n IH]; intros s; [done|].
  cbn [Nat.add lcd.times]. destruct (body s) as [s'|]; [|done].
  cbn [mbind option_bind]. apply IH.
Qed.

Lemma times_times {S : Type} (n m : nat) (body : S → option S) (s : S) :
  lcd.times n (lcd.times m body) s = lcd.times (n * m) body s.
Proof.
  revert s. induction n as [|n IH]; intros s; [done|].
  cbn [Nat.mul lcd.times]. rewrite times_add.
  destruct (lcd.times m body s) as [s'|]; [|done].
  cbn [mbind option_bind]. apply IH.
Qed.

Lemma ShowPicture_pairs (pic : list Z) (init : list Bus) (n : nat) :
  Z.of_nat n <= 65536 → (2 * n ≤ length pic)%nat →
  lcd.times n (lcd.ShowPicture_body pic) (0, init)
  = Some (wrap16 (Z.of_nat n),
          init ++ (take (2 * n) pic ≫= lcd.LCD_WR_DATA8)).
Proof.
  induction n as [|n IH]; intros Hn Hpic.
  - cbn. by rewrite app_nil_r.
  - replace (S n) with (n + 1)%nat by lia.
    rewrite times_add, IH by lia. cbn [mbind option_bind lcd.times].
    unfold lcd.ShowPicture_body. cbn [fst snd].
    rewrite (wrap16_small (Z.of_nat n)) by (unfold is_u16; lia).
    unfold load. rewrite !decide_True by lia.
    replace (Z.to_nat (Z.of_nat n * 2)) with (2 * n)%nat by lia.
    replace (Z.to_nat (Z.of_nat n * 2 + 1)) with (S (2 * n)) by lia.
    destruct (lookup_lt_is_Some_2 pic (2 * n)) as [a Ha]; [lia|].
    destruct (lookup_lt_is_Some_2 pic (S (2 * n))) as [b Hb]; [lia|].
    rewrite Ha, Hb. cbn [mbind option_bind].
    replace (2 * (n + 1))%nat with (S (S (2 * n))) by lia.
    rewrite (take_S_r pic (S (2 * n)) b Hb), (take_S_r pic (2 * n) a Ha).
    rewrite !bind_app. cbn [mbind list_bind]. rewrite !app_nil_r.
    rewrite <- !app_assoc. do 3 f_equal. lia.
Qed.

Lemma ShowPicture_short (pic : list Z) (s : Z * list Bus) (n m : nat) :
  Z.of_nat n < 65536 → s.1 = Z.of_nat n → (length pic < 2 * n + 2)%nat →
  lcd.times (S m) (lcd.ShowPicture_body pic) s = None.
Proof.
  intros Hn Hk Hpic. cbn [lcd.times]. unfold lcd.ShowPicture_body, load.
  rewrite Hk. rewrite !decide_True by lia.
  destruct (pic !! Z.to_nat (Z.of_nat n * 2)) as [a|]; [|done].
  cbn [mbind option_bind].
  rewrite (lookup_ge_None_2 pic (Z.to_nat (Z.of_nat n * 2 + 1))) by lia.
  done.
Qed.

(** [LCD_ShowPicture] for a picture of at most 65536 pixels: when the array
    holds the [2 * length * width] bytes of the picture, these bytes are sent
    in order, one by one, after the window is set, and nothing more; when the
    array is shorter, the function reads past its end. *)
Theorem LCD_ShowPicture_streams (x y length width : Z) (pic : list Z) :
  0 <= length → 0 <= width → length * width <= 65536 →
  (2 * length * width <= Z.of_nat (List.length pic) →
   lcd.LCD_ShowPicture x y length width pic
   = Some (lcd.LCD_Address_Set x y (wrap16 (x + length - 1))
                               (wrap16 (y + width - 1))
             ++ (take (Z.to_nat (2 * length * width)) pic
                   ≫= lcd.LCD_WR_DATA8)))
  ∧ (Z.of_nat (List.length pic) < 2 * length * width →
     lcd.LCD_ShowPicture x y length width pic = None).
Proof.
  intros Hl Hw Hsize. unfold lcd.LCD_ShowPicture. rewrite times_times.
  assert (Z.of_nat (Z.to_nat length * Z.to_nat width) = length * width)
    as Hcount by (rewrite Nat2Z.inj_mul, !Z2Nat.id by lia; lia).
  generalize dependent (Z.to_nat length * Z.to_nat width)%nat.
  intros m Hcount.
  split.
  - intros Hpic. rewrite ShowPicture_pairs by lia.
    cbn [mbind option_bind snd]. do 4 f_equal. lia.
  - intros Hpic.
    set (n := (List.length pic / 2)%nat).
    assert (2 * n ≤ List.length pic < 2 * n + 2)%nat as Hn.
    { subst n. pose proof (Nat.div_mod_eq (List.length pic) 2).
      pose proof (Nat.mod_upper_bound (List.length pic) 2). lia. }
    replace m with (n + S (m - S n))%nat by lia.
    rewrite times_add, ShowPicture_pairs by lia.
    cbn [mbind option_bind].
    rewrite (ShowPicture_short pic _ n); [done|lia| |lia].
    cbn [fst]. apply wrap16_small. unfold is_u16. lia.
Qed.

Lemma LCD_ShowPicture_streams_witness :
  lcd.LCD_ShowPicture 0 0 2 2 [1; 2; 3; 4; 5; 6; 7; 8; 9]
  = Some (lcd.LCD_Address_Set 0 0 (wrap16 (0 + 2 - 1)) (wrap16 (0 + 2 - 1))
            ++ (take (Z.to_nat (2 * 2 * 2)) [1; 2; 3; 4; 5; 6; 7; 8; 9]
                  ≫= lcd.LCD_WR_DATA8))
  ∧ lcd.LCD_ShowPicture 0 0 2 2 [1; 2; 3; 4; 5; 6; 7] = None.
Proof.
  split.
  - destruct (LCD_ShowPicture_streams 0 0 2 2 [1; 2; 3; 4; 5; 6; 7; 8; 9])
      as [Hok _]; [lia..|].
    apply Hok. simpl. lia.
  - destruct (LCD_ShowPicture_streams 0 0 2 2 [1; 2; 3; 4; 5; 6; 7])
      as [_ Hshort]; [lia..|].
    apply Hshort. simpl. lia.
Defined.

(** ** Characters *)

Lemma land_bit (a t : Z) :
  0 <= t → Z.land a (Z.shiftl 1 t) ≠ 0 ↔ Z.testbit a t = true.
Proof.
  intros Ht. rewrite Z.shiftl_1_l. split.
  - intros Hnz. destruct (Z.testbit a t) eqn:Hbit; [done|].
    exfalso. apply Hnz. apply Z.bits_inj'. intros n Hn.
    rewrite Z.land_spec, Z.bits_0, Z.pow2_bits_eqb by lia.
    destruct (Z.eqb_spec t n) as [->|_]; [by rewrite Hbit|].
    apply andb_false_r.
  - intros Hbit Hzero.
    assert (Z.testbit (Z.land a (2 ^ t)) t = true) as Hset
      by (by rewrite Z.land_spec, Hbit, Z.pow2_bits_true).
    by rewrite Hzero, Z.bits_0 in Hset.
Qed.

Lemma ShowChar_byte_pixels (temp fc bc : Z) :
  lcd.ShowChar_byte temp fc bc
  = ((λ t, if Z.testbit temp t then fc else bc) <$> seqZ 0 8)
      ≫= lcd.LCD_WR_DATA.
Proof.
  unfold lcd.ShowChar_byte.
  assert (Forall (λ t, 0 <= t) (seqZ 0 8)) as Hpos.
  { apply Forall_forall. intros t Ht%elem_of_seqZ. lia. }
  induction Hpos as [|t ts Ht _ IH]; [done|].
  rewrite fmap_cons. cbn [mbind list_bind]. f_equal; [|apply IH].
  destruct (Z.testbit temp t) eqn:Hbit.
  - rewrite decide_True; [done|]. by apply land_bit.
  - rewrite decide_False; [done|]. rewrite land_bit by done. congruence.
Qed.

Lemma ShowChar_loop_pixels (font16 font32 : list (list Z)) (row : list Z)
    (n : nat) (i : nat) (x y x0 num fc bc sizex : Z) :
  font16 !! Z.to_nat num = Some row →
  (i + n ≤ length row)%nat →
  lcd.ShowChar_loop font16 font32 n (Z.of_nat i) x y x0 num fc bc 16 sizex 0
  = Some ((take n (drop i row) ≫= λ temp,
             (λ t, if Z.testbit temp t then fc else bc) <$> seqZ 0 8)
            ≫= lcd.LCD_WR_DATA).
Proof.
  intros Hrow. revert i. induction n as [|n IH]; intros i Hlen; [done|].
  cbn [lcd.ShowChar_loop].
  rewrite decide_True by (by left). rewrite !decide_True by done.
  rewrite Hrow. cbn [mbind option_bind]. unfold load.
  rewrite decide_True by lia. rewrite Nat2Z.id.
  destruct (lookup_lt_is_Some_2 row i) as [temp Htemp]; [lia|].
  rewrite Htemp. cbn [mbind option_bind].
  replace (Z.of_nat i + 1) with (Z.of_nat (S i)) by lia.
  rewrite IH by lia. cbn [mbind option_bind].
  rewrite (drop_S _ _ _ Htemp). cbn [take mbind list_bind].
  by rewrite bind_app, ShowChar_byte_pixels.
Qed.

Lemma length_bind_const {A B : Type} (f : A → list B) (l : list A) (k : nat) :
  (∀ a, length (f a) = k) → length (l ≫= f) = (length l * k)%nat.
Proof.
  intros Hf. induction l as [|a l IH]; [done|].
  cbn [mbind list_bind length]. rewrite length_app, Hf.
  fold (mbind (M := list) f l). rewrite IH. lia.
Qed.

Lemma ShowChar_cell (font16 font32 : list (list Z))
    (row : list Z) (x y num fc bc : Z) :
  font16 !! Z.to_nat (wrap8 (num - 32)) = Some row →
  length row = 16%nat →
  lcd.LCD_ShowChar font16 font32 x y num fc bc 16 0
  = Some (lcd.LCD_Address_Set x y (wrap16 (x + 8 - 1)) (wrap16 (y + 16 - 1))
            ++ ((row ≫= λ temp,
                   (λ t, if Z.testbit temp t then fc else bc) <$> seqZ 0 8)
                  ≫= lcd.LCD_WR_DATA)).
Proof.
  intros Hrow Hlen.
  unfold lcd.LCD_ShowChar. change (16 / 2) with 8.
  change (Z.to_nat (wrap16 (8 / 8 * 16))) with 16%nat.
  rewrite (ShowChar_loop_pixels font16 font32 row 16 0) by (done || lia).
  cbn [mbind option_bind]. rewrite drop_0.
  by rewrite firstn_all2 by lia.
Qed.

Lemma ShowChar_cell_pixels (row : list Z) (fc bc : Z) :
  length row = 16%nat →
  length (row ≫= λ temp,
            (λ t, if Z.testbit temp t then fc else bc) <$> seqZ 0 8)
  = 128%nat.
Proof.
  intros Hlen. rewrite (length_bind_const _ _ 8); [lia|]. intros temp.
  by rewrite length_fmap, length_seqZ.
Qed.

(** [LCD_ShowChar] for the 8 by 16 font in the mode that overwrites, the
    character being in the font: the window is set to the 8 by 16 cell at
    [(x, y)] and filled with 128 pixels, eight for each of the 16 bytes of
    the glyph, the lowest bit first, in the character colour where the bit
    is set and in the background colour elsewhere. *)
Theorem LCD_ShowChar_fills_cell (font16 font32 : list (list Z))
    (row : list Z) (x y num fc bc : Z) :
  font16 !! Z.to_nat (wrap8 (num - 32)) = Some row →
  length row = 16%nat →
  ∃ pixels,
    lcd.LCD_ShowChar font16 font32 x y num fc bc 16 0
    = Some (lcd.LCD_Address_Set x y (wrap16 (x + 8 - 1)) (wrap16 (y + 16 - 1))
              ++ (pixels ≫= lcd.LCD_WR_DATA))
    ∧ pixels = (row ≫= λ temp,
                  (λ t, if Z.testbit temp t then fc else bc) <$> seqZ 0 8)
    ∧ length pixels = 128%nat
    ∧ Forall (λ p, p = fc ∨ p = bc) pixels.
Proof.
  intros Hrow Hlen. eexists.
  split; [by apply ShowChar_cell|]. split; [reflexivity|].
  split; [by apply ShowChar_cell_pixels|].
  apply Forall_forall. intros p Hp.
  apply list_elem_of_bind in Hp as (temp & Hp & _).
  apply list_elem_of_fmap in Hp as (t & -> & _).
  destruct (Z.testbit temp t); auto.
Qed.

Lemma LCD_ShowChar_fills_cell_witness :
  ∃ pixels,
    lcd.LCD_ShowChar (replicate 95 (replicate 16 0x81)) [] 20 45 48 RED YELLOW
                     16 0
    = Some (lcd.LCD_Address_Set 20 45 (wrap16 (20 + 8 - 1))
                                (wrap16 (45 + 16 - 1))
              ++ (pixels ≫= lcd.LCD_WR_DATA))
    ∧ length pixels = 128%nat.
Proof.
  destruct (LCD_ShowChar_fills_cell (replicate 95 (replicate 16 0x81)) []
              (replicate 16 0x81) 20 45 48 RED YELLOW)
    as (pixels & Hshow & _ & Hlen & _); [reflexivity..|].
  by exists pixels.
Defined.

(** The glyphs the display task draws are in the font: with the 95
    characters of 16 bytes of the 8 by 16 font, every [LCD_ShowChar] of a
    redraw in a reachable state reads the font inside its table and fills
    its cell with 128 pixels. *)
Theorem refresh_glyphs_in_font (font16 font32 : list (list Z)) (st : State) :
  reachable st →
  length font16 = 95%nat →
  Forall (λ row, length row = 16%nat) font16 →
  ∀ c, c ∈ digit_glyphs (Z.to_nat (key_index st)) (key_temp st) →
    ∃ x y num pixels,
      c = LCD_ShowChar x y num RED YELLOW 16 0
      ∧ lcd.LCD_ShowChar font16 font32 x y num RED YELLOW 16 0
        = Some (lcd.LCD_Address_Set x y (wrap16 (x + 8 - 1))
                                    (wrap16 (y + 16 - 1))
                  ++ (pixels ≫= lcd.LCD_WR_DATA))
      ∧ length pixels = 128%nat.
Proof.
  intros Hreach Hfont Hrows c Hc.
  apply list_elem_of_lookup in Hc as [j Hj].
  destruct (digit_glyphs_reachable st Hreach j c Hj)
    as (d & Hd & Hrange & _ & ->).
  assert (wrap8 (48 + d - 32) = 16 + d) as Hnum
    by (rewrite wrap8_small by (unfold is_u8; lia); lia).
  destruct (lookup_lt_is_Some_2 font16 (Z.to_nat (16 + d))) as [row Hrow];
    [lia|].
  assert (length row = 16%nat) as Hlen.
  { rewrite Forall_lookup in Hrows. by eapply Hrows. }
  eexists _, _, _, _. split; [done|].
  split; [apply (ShowChar_cell font16 font32 row); [by rewrite Hnum|done]|].
  by apply ShowChar_cell_pixels.
Qed.

Lemma refresh_glyphs_in_font_witness :
  ∃ x y num pixels,
    LCD_ShowChar 20 45 49 RED YELLOW 16 0
    = LCD_ShowChar x y num RED YELLOW 16 0
    ∧ lcd.LCD_ShowChar (replicate 95 (replicate 16 0)) [] x y num
                       RED YELLOW 16 0
      = Some (lcd.LCD_Address_Set x y (wrap16 (x + 8 - 1))
                                  (wrap16 (y + 16 - 1))
                ++ (pixels ≫= lcd.LCD_WR_DATA))
    ∧ length pixels = 128%nat.
Proof.
  apply (refresh_glyphs_in_font (replicate 95 (replicate 16 0)) []
           (mkState [1; 2; 3; 4; 5; 6] [1; 0; 0; 0; 0; 0; 0] 1 255 1
              [rt_thread_mdelay 10])).
  - eapply rtc_l; [|apply rtc_refl].
    apply (step_key 1); [unfold is_u8; lia|reflexivity].
  - reflexivity.
  - by apply Forall_replicate.
  - apply list_elem_of_here.
Defined.

(** ** Chinese text *)

Lemma ShowChinese_loop_pairs (n : nat) :
  ∀ (s : list Z) (offset x y x0 q j fc bc sizey mode : Z),
    length s = (2 * n)%nat → Forall (λ c, c ≠ 0) s →
    sizey = 16 ∨ sizey = 24 ∨ sizey = 32 →
    0 <= x0 → sizey * q <= 120 - x0 < sizey * (q + 1) →
    0 <= j <= q → x = x0 + sizey * j → is_u16 y →
    ∃ glyphs,
      lcd.ShowChinese_loop s offset x y x0 fc bc sizey mode = Some glyphs
      ∧ length glyphs = n
      ∧ ∀ k : nat, (k < n)%nat →
          glyphs !! k =
          Some (chinese_glyph sizey
                  (x0 + sizey * ((j + Z.of_nat k) mod (q + 1)))
                  (wrap16 (y + sizey * ((j + Z.of_nat k) / (q + 1))))
                  (offset + 2 * Z.of_nat k) fc bc mode).
Proof.
  induction n as [|n IH];
    intros s offset x y x0 q j fc bc sizey mode Hlen Hnz Hsize Hx0 Hq Hj -> Hy.
  - destruct s; [|simpl in Hlen; lia]. exists []. split; [done|].
    split; [done|]. intros k Hk. lia.
  - destruct s as [|c [|c' s]]; [simpl in Hlen; lia..|].
    apply Forall_cons in Hnz as [Hc Hnz]. apply Forall_cons in Hnz as [_ Hnz].
    cbn [lcd.ShowChinese_loop].
    rewrite (decide_False (P := c = 0)) by done.
    rewrite (decide_True (P := sizey = 16 ∨ sizey = 24 ∨ sizey = 32)) by done.
    fold (chinese_glyph sizey (x0 + sizey * j) y offset fc bc mode).
    assert (0 <= q) as Hq0 by lia.
    assert (wrap16 (x0 + sizey * j + sizey) = x0 + sizey * (j + 1)) as ->.
    { rewrite wrap16_small; [lia|]. unfold is_u16. nia. }
    assert ((j mod (q + 1) = j) ∧ j / (q + 1) = 0) as [Hjm Hjd]
      by (split; [apply Z.mod_small|apply Z.div_small]; lia).
    destruct (decide (x0 + sizey * (j + 1) > 120)) as [Hwrap|Hroom].
    + assert (j = q) as -> by nia.
      destruct (IH s (offset + 2) x0 (wrap16 (y + sizey)) x0 q 0
                  fc bc sizey mode)
        as (rest & -> & Hrest & Hpos);
        [cbn in Hlen; lia|done|done|done|done|lia|lia|apply wrap16_u16|].
      eexists. split; [done|]. split; [cbn; lia|].
      intros [|k] Hk.
      * cbn [lookup list_lookup]. rewrite Z.add_0_r, Hjm, Hjd.
        rewrite Z.mul_0_r, Z.add_0_r, (wrap16_small y) by done.
        do 2 f_equal. lia.
      * cbn [lookup list_lookup]. rewrite Hpos by lia. do 2 f_equal.
        -- replace (q + Z.of_nat (S k)) with (0 + Z.of_nat k + 1 * (q + 1))
             by lia.
           by rewrite Z_mod_plus_full.
        -- replace (q + Z.of_nat (S k)) with (0 + Z.of_nat k + 1 * (q + 1))
             by lia.
           rewrite Z_div_plus_full by lia. unfold wrap16.
           rewrite Z.add_mod_idemp_l by lia. f_equal. lia.
        -- lia.
    + assert (j + 1 <= q) as Hnext by nia.
      destruct (IH s (offset + 2) (x0 + sizey * (j + 1)) y x0 q (j + 1)
                  fc bc sizey mode)
        as (rest & -> & Hrest & Hpos);
        [cbn in Hlen; lia|done|done|done|done|lia|done|done|].
      eexists. split; [done|]. split; [cbn; lia|].
      intros [|k] Hk.
      * cbn [lookup list_lookup]. rewrite Z.add_0_r, Hjm, Hjd.
        rewrite Z.mul_0_r, Z.add_0_r, (wrap16_small y) by done.
        do 2 f_equal. lia.
      * cbn [lookup list_lookup]. rewrite Hpos by lia.
        replace (j + 1 + Z.of_nat k) with (j + Z.of_nat (S k)) by lia.
        do 2 f_equal. lia.
Qed.

Lemma ShowChinese_loop_odd (n : nat) :
  ∀ (s : list Z) (offset x y x0 fc bc sizey mode : Z),
    length s = S (2 * n) → Forall (λ c, c ≠ 0) s →
    sizey = 16 ∨ sizey = 24 ∨ sizey = 32 →
    lcd.ShowChinese_loop s offset x y x0 fc bc sizey mode = None.
Proof.
  induction n as [|n IH]; intros s offset x y x0 fc bc sizey mode Hlen Hnz Hsize.
  - destruct s as [|c [|c' s]]; [simpl in Hlen; lia| |simpl in Hlen; lia].
    apply Forall_cons in Hnz as [Hc _]. cbn [lcd.ShowChinese_loop].
    rewrite (decide_False (P := c = 0)) by done.
    rewrite (decide_True (P := sizey = 16 ∨ sizey = 24 ∨ sizey = 32)) by done.
    by case_decide.
  - destruct s as [|c [|c' s]]; [simpl in Hlen; lia..|].
    apply Forall_cons in Hnz as [Hc Hnz]. apply Forall_cons in Hnz as [_ Hnz].
    cbn [lcd.ShowChinese_loop].
    rewrite (decide_False (P := c = 0)) by done.
    rewrite (decide_True (P := sizey = 16 ∨ sizey = 24 ∨ sizey = 32)) by done.
    case_decide; by rewrite IH by (done || (cbn in Hlen; lia)).
Qed.

(** [LCD_ShowChinese] with a size of 16, 24 or 32 and a start column of at
    most 120.  On a string of two bytes per character it draws the
    characters in order, [(120 - x) / sizey + 1] to a line, [sizey] pixels
    apart in both directions, each line starting at column [x]; on a string
    with an odd number of bytes it steps over the terminator and reads
    outside the string. *)
Theorem LCD_ShowChinese_layout (x y : Z) (s : list Z) (fc bc sizey mode : Z) :
  sizey = 16 ∨ sizey = 24 ∨ sizey = 32 →
  0 <= x <= 120 → is_u16 y → Forall (λ c, c ≠ 0) s →
  (∀ n : nat, length s = (2 * n)%nat →
     ∃ glyphs,
       lcd.LCD_ShowChinese x y s fc bc sizey mode = Some glyphs
       ∧ length glyphs = n
       ∧ ∀ k : nat, (k < n)%nat →
           glyphs !! k =
           Some (chinese_glyph sizey
                   (x + sizey * (Z.of_nat k mod ((120 - x) / sizey + 1)))
                   (wrap16 (y + sizey * (Z.of_nat k / ((120 - x) / sizey + 1))))
                   (2 * Z.of_nat k) fc bc mode))
  ∧ (∀ n : nat, length s = S (2 * n) →
       lcd.LCD_ShowChinese x y s fc bc sizey mode = None).
Proof.
  intros Hsize Hx Hy Hnz. split.
  - intros n Hlen.
    assert (0 < sizey) as Hpos by lia.
    pose proof (Z.mul_div_le (120 - x) sizey Hpos) as Hlow.
    pose proof (Z.mul_succ_div_gt (120 - x) sizey Hpos) as Hhigh.
    assert (0 <= (120 - x) / sizey) as Hq by (apply Z.div_pos; lia).
    destruct (ShowChinese_loop_pairs n s 0 x y x ((120 - x) / sizey) 0
                fc bc sizey mode)
      as (glyphs & Hshow & Hcount & Hglyphs); [done|done|done|lia|lia|lia|lia|done|].
    exists glyphs. split; [done|]. split; [done|].
    intros k Hk. rewrite (Hglyphs k Hk).
    by rewrite !Z.add_0_l.
  - intros n Hlen. by apply (ShowChinese_loop_odd n).
Qed.

Lemma LCD_ShowChinese_layout_witness :
  (∃ glyphs,
     lcd.LCD_ShowChinese 0 0 (replicate 20 0xC3) BLUE WHITE 16 0 = Some glyphs
     ∧ glyphs !! 9%nat
       = Some (chinese_glyph 16
                 (0 + 16 * (Z.of_nat 9 mod ((120 - 0) / 16 + 1)))
                 (wrap16 (0 + 16 * (Z.of_nat 9 / ((120 - 0) / 16 + 1))))
                 (2 * Z.of_nat 9) BLUE WHITE 0))
  ∧ lcd.LCD_ShowChinese 0 0 (replicate 3 0xC3) BLUE WHITE 16 0 = None.
Proof.
  split.
  - destruct (LCD_ShowChinese_layout 0 0 (replicate 20 0xC3) BLUE WHITE 16 0)
      as [Heven _];
      [by left|lia|unfold is_u16; lia|by apply Forall_replicate|].
    destruct (Heven 10%nat) as (glyphs & Hshow & _ & Hpos); [reflexivity|].
    exists glyphs. split; [done|]. apply Hpos. lia.
  - destruct (LCD_ShowChinese_layout 0 0 (replicate 3 0xC3) BLUE WHITE 16 0)
      as [_ Hodd];
      [by left|lia|unfold is_u16; lia|by apply Forall_replicate|].
    by apply (Hodd 1%nat).
Defined.

(** ** Rectangles *)

Lemma DrawLine_loop_right (n : nat) :
  ∀ (fuel : nat) (t delta_y d incy xerr yerr uRow y : Z),
    (n < fuel)%nat → 0 <= t → t + Z.of_nat n = d + 1 → d < 65535 →
    0 < d → delta_y = 0 → xerr = d → yerr = 0 →
    is_u16 y → 0 <= uRow → uRow + Z.of_nat n <= 65536 →
    lcd.DrawLine_loop fuel t d delta_y d 1 incy xerr yerr uRow y
    = Some ((λ x, (x, y)) <$> seqZ uRow (Z.of_nat n)).
Proof.
  induction n as [|n IH];
    intros fuel t delta_y d incy xerr yerr uRow y
           Hfuel Ht Htn Hd Hpos -> -> -> Hy Hrow Hend;
    (destruct fuel as [|fuel]; [lia|]); cbn [lcd.DrawLine_loop].
  - by rewrite decide_False by lia.
  - rewrite decide_True by lia.
    rewrite decide_True by lia. rewrite decide_False by lia.
    rewrite (wrap16_small (t + 1)), (wrap16_small y), (wrap16_small uRow)
      by (unfold is_u16 in *; lia).
    rewrite (IH fuel (t + 1) 0 d incy (d + d - d) (0 + 0) (uRow + 1) y)
      by (done || lia).
    cbn [mbind option_bind].
    rewrite (seqZ_cons uRow) by lia. rewrite fmap_cons.
    do 4 f_equal; lia.
Qed.

Lemma DrawLine_right_points (fuel : nat) (x1 x2 y : Z) :
  is_u16 x1 → is_u16 x2 → is_u16 y → x1 < x2 → x2 - x1 < 65535 →
  x2 - x1 + 1 < Z.of_nat fuel →
  lcd.DrawLine_points fuel x1 y x2 y
  = Some ((x1, y) :: ((λ x, (x, y)) <$> seqZ x1 (x2 - x1))).
Proof.
  intros Hx1 Hx2 Hy Hlt Hd Hfuel. unfold is_u16 in *.
  unfold lcd.DrawLine_points.
  rewrite (decide_True (P := x2 - x1 > 0)) by lia. cbv beta iota zeta.
  rewrite (decide_False (P := y - y > 0)) by lia.
  rewrite (decide_True (P := y - y = 0)) by lia. cbv beta iota zeta.
  rewrite (decide_True (P := x2 - x1 > y - y)) by lia.
  destruct fuel as [|fuel]; [lia|]. cbn [lcd.DrawLine_loop].
  rewrite decide_True by lia.
  rewrite !decide_False by lia.
  rewrite (wrap16_small (0 + 1)), (wrap16_small x1), (wrap16_small y)
    by (unfold is_u16; lia).
  rewrite (DrawLine_loop_right (Z.to_nat (x2 - x1)))
    by (done || unfold is_u16 || idtac; lia).
  cbn [mbind option_bind]. by rewrite Z2Nat.id by lia.
Qed.

Lemma elem_of_level_run (p : Z * Z) (a y n : Z) :
  0 < n →
  p ∈ (a, y) :: ((λ x, (x, y)) <$> seqZ a n) ↔ p.2 = y ∧ a <= p.1 < a + n.
Proof.
  intros Hn. destruct p as [px py]. cbn [fst snd].
  rewrite elem_of_cons, list_elem_of_fmap. split.
  - intros [[= -> ->] | (x & [= -> ->] & Hx%elem_of_seqZ)]; lia.
  - intros (-> & Hpx). right. exists px. split; [done|].
    apply elem_of_seqZ. lia.
Qed.

Lemma elem_of_upright_run (p : Z * Z) (x b n : Z) :
  0 < n →
  p ∈ (x, b) :: ((λ y, (x, y)) <$> seqZ b n) ↔ p.1 = x ∧ b <= p.2 < b + n.
Proof.
  intros Hn. destruct p as [px py]. cbn [fst snd].
  rewrite elem_of_cons, list_elem_of_fmap. split.
  - intros [[= -> ->] | (y & [= -> ->] & Hy%elem_of_seqZ)]; lia.
  - intros (-> & Hpy). right. exists py. split; [done|].
    apply elem_of_seqZ. lia.
Qed.

(** [LCD_DrawRectangle] on a rectangle with [x1 < x2] and [y1 < y2]: the
    points drawn are those of the border except the corner [(x2, y2)],
    which no line of the four reaches. *)
Theorem LCD_DrawRectangle_misses_corner (fuel : nat) (x1 y1 x2 y2 color : Z) :
  is_u16 x1 → is_u16 y1 → is_u16 x2 → is_u16 y2 →
  x1 < x2 → y1 < y2 → x2 - x1 < 65535 → y2 - y1 < 65535 →
  x2 - x1 + 1 < Z.of_nat fuel → y2 - y1 + 1 < Z.of_nat fuel →
  ∃ points,
    lcd.LCD_DrawRectangle fuel x1 y1 x2 y2 color
    = Some (points ≫= λ p, lcd.LCD_DrawPoint p.1 p.2 color)
    ∧ ((x2, y2) ∉ points)
    ∧ ∀ x y,
        (x, y) ∈ points ↔
        x1 <= x <= x2 ∧ y1 <= y <= y2
        ∧ (x = x1 ∨ x = x2 ∨ y = y1 ∨ y = y2)
        ∧ (x, y) ≠ (x2, y2).
Proof.
  intros Hx1 Hy1 Hx2 Hy2 Hx Hy Hw Hh Hfw Hfh.
  unfold lcd.LCD_DrawRectangle, lcd.DrawRectangle_points.
  rewrite !DrawLine_right_points, !DrawLine_down_points by done.
  cbn [mbind option_bind]. eexists. split; [done|].
  assert (∀ x y,
            (x, y) ∈ ((x1, y1) :: ((λ x, (x, y1)) <$> seqZ x1 (x2 - x1)))
                     ++ ((x1, y1) :: ((λ y, (x1, y)) <$> seqZ y1 (y2 - y1)))
                     ++ ((x1, y2) :: ((λ x, (x, y2)) <$> seqZ x1 (x2 - x1)))
                     ++ ((x2, y1) :: ((λ y, (x2, y)) <$> seqZ y1 (y2 - y1)))
            ↔ x1 <= x <= x2 ∧ y1 <= y <= y2
              ∧ (x = x1 ∨ x = x2 ∨ y = y1 ∨ y = y2)
              ∧ (x, y) ≠ (x2, y2)) as Hpoints.
  { intros x y. rewrite !elem_of_app.
    rewrite !elem_of_level_run, !elem_of_upright_run by lia.
    cbn [fst snd]. split.
    - intros Hin. repeat split; try lia.
      intros [= -> ->]. lia.
    - intros (Hxr & Hyr & Hside & Hne).
      assert (x ≠ x2 ∨ y ≠ y2) as Hcorner.
      { destruct (decide (x = x2)) as [->|Hnx]; [|by left].
        right. intros ->. by apply Hne. }
      lia. }
  split; [|exact Hpoints].
  intros Hin%Hpoints. by destruct Hin as (_ & _ & _ & Hne).
Qed.

Lemma LCD_DrawRectangle_misses_corner_witness :
  ∃ points,
    lcd.LCD_DrawRectangle 10 2 3 6 5 RED
    = Some (points ≫= λ p, lcd.LCD_DrawPoint p.1 p.2 RED)
    ∧ ((6, 5) ∉ points).
Proof.
  destruct (LCD_DrawRectangle_misses_corner 10 2 3 6 5 RED)
    as (points & Hrect & Hcorner & _); [unfold is_u16; lia..|].
  by exists points.
Defined.


(** ** Text *)

Lemma ShowString_loop_places (p : list Z) :
  ∀ (x y x0 q j fc bc sizey mode : Z),
    Forall (λ c, c ≠ 0) p → is_u8 sizey → 0 < sizey / 2 →
    0 <= x0 → sizey / 2 * q <= 120 - x0 < sizey / 2 * (q + 1) →
    0 <= j <= q → x = x0 + sizey / 2 * j → is_u16 y →
    length (lcd.ShowString_loop p x y x0 fc bc sizey mode) = length p
    ∧ ∀ (k : nat) (c : Z), p !! k = Some c →
        lcd.ShowString_loop p x y x0 fc bc sizey mode !! k =
        Some (LCD_ShowChar
                (x0 + sizey / 2 * ((j + Z.of_nat k) mod (q + 1)))
                (wrap16 (y + sizey * ((j + Z.of_nat k) / (q + 1))))
                c fc bc sizey mode).
Proof.
  induction p as [|c p IH];
    intros x y x0 q j fc bc sizey mode Hnz Hsize Hsx Hx0 Hq Hj -> Hy.
  - split; [done|]. intros k c Hk. done.
  - apply Forall_cons in Hnz as [Hc Hnz].
    cbn [lcd.ShowString_loop].
    rewrite (decide_False (P := c = 0)) by done.
    assert (sizey / 2 < 128) as Hsx'
      by (apply Z.div_lt_upper_bound; unfold is_u8 in Hsize; lia).
    assert (0 <= q) as Hq0 by lia.
    assert (wrap16 (x0 + sizey / 2 * j + sizey / 2)
            = x0 + sizey / 2 * (j + 1)) as ->.
    { rewrite wrap16_small; [lia|]. unfold is_u16. nia. }
    assert ((j mod (q + 1) = j) ∧ j / (q + 1) = 0) as [Hjm Hjd]
      by (split; [apply Z.mod_small|apply Z.div_small]; lia).
    destruct (decide (x0 + sizey / 2 * (j + 1) > 120)) as [Hwrap|Hroom];
      cbv beta iota zeta.
    + assert (j = q) as -> by nia.
      destruct (IH x0 (wrap16 (y + sizey)) x0 q 0 fc bc sizey mode)
        as (Hrest & Hpos);
        [done|done|done|done|done|lia|lia|apply wrap16_u16|].
      split; [cbn [length]; by rewrite Hrest|].
      intros [|k] c' Hk.
      * injection Hk as <-. cbn [lookup list_lookup].
        rewrite Z.add_0_r, Hjm, Hjd.
        rewrite Z.mul_0_r, Z.add_0_r, (wrap16_small y) by done. done.
      * cbn [lookup list_lookup] in Hk |- *.
        etrans; [exact (Hpos k c' Hk)|].
        do 2 f_equal.
        -- replace (q + Z.of_nat (S k)) with (0 + Z.of_nat k + 1 * (q + 1))
             by lia.
           by rewrite Z_mod_plus_full.
        -- replace (q + Z.of_nat (S k)) with (0 + Z.of_nat k + 1 * (q + 1))
             by lia.
           rewrite Z_div_plus_full by lia. unfold wrap16.
           rewrite Z.add_mod_idemp_l by lia. f_equal. lia.
    + assert (j + 1 <= q) as Hnext by nia.
      destruct (IH (x0 + sizey / 2 * (j + 1)) y x0 q (j + 1)
                  fc bc sizey mode)
        as (Hrest & Hpos);
        [done|done|done|done|done|lia|done|done|].
      split; [cbn [length]; by rewrite Hrest|].
      intros [|k] c' Hk.
      * injection Hk as <-. cbn [lookup list_lookup].
        rewrite Z.add_0_r, Hjm, Hjd.
        rewrite Z.mul_0_r, Z.add_0_r, (wrap16_small y) by done. done.
      * cbn [lookup list_lookup] in Hk |- *.
        etrans; [exact (Hpos k c' Hk)|].
        by replace (j + 1 + Z.of_nat k) with (j + Z.of_nat (S k)) by lia.
Qed.

(** [LCD_ShowString] with a start column of at most 120 and a size of at
    least 2: one [LCD_ShowChar] for each character of the string, in order,
    [(120 - x) / (sizey / 2) + 1] to a line, [sizey / 2] pixels apart along
    the line and [sizey] pixels from line to line, each line starting at
    column [x]. *)
Theorem LCD_ShowString_layout (x y : Z) (p : list Z) (fc bc sizey mode : Z) :
  is_u8 sizey → 2 <= sizey → 0 <= x <= 120 → is_u16 y →
  Forall (λ c, c ≠ 0) p →
  length (lcd.LCD_ShowString x y p fc bc sizey mode) = length p
  ∧ ∀ (k : nat) (c : Z), p !! k = Some c →
      lcd.LCD_ShowString x y p fc bc sizey mode !! k =
      Some (LCD_ShowChar
              (x + sizey / 2
                   * (Z.of_nat k mod ((120 - x) / (sizey / 2) + 1)))
              (wrap16 (y + sizey
                           * (Z.of_nat k / ((120 - x) / (sizey / 2) + 1))))
              c fc bc sizey mode).
Proof.
  intros Hsize Hmin Hx Hy Hnz.
  assert (0 < sizey / 2) as Hsx by (apply Z.div_str_pos; lia).
  pose proof (Z.mul_div_le (120 - x) (sizey / 2) Hsx) as Hlow.
  pose proof (Z.mul_succ_div_gt (120 - x) (sizey / 2) Hsx) as Hhigh.
  assert (0 <= (120 - x) / (sizey / 2)) as Hq by (apply Z.div_pos; lia).
  destruct (ShowString_loop_places p x y x ((120 - x) / (sizey / 2)) 0
              fc bc sizey mode) as (Hlen & Hpos);
    [done|done|done|lia|lia|lia|lia|done|].
  split; [exact Hlen|].
  intros k c Hk. unfold lcd.LCD_ShowString. rewrite (Hpos k c Hk).
  by rewrite !Z.add_0_l.
Qed.

Lemma LCD_ShowString_layout_witness :
  lcd.LCD_ShowString 100 0 [72; 105; 33; 63] RED WHITE 16 0 !! 3%nat =
  Some (LCD_ShowChar
          (100 + 16 / 2 * (Z.of_nat 3 mod ((120 - 100) / (16 / 2) + 1)))
          (wrap16 (0 + 16 * (Z.of_nat 3 / ((120 - 100) / (16 / 2) + 1))))
          63 RED WHITE 16 0).
Proof.
  destruct (LCD_ShowString_layout 100 0 [72; 105; 33; 63] RED WHITE 16 0)
    as (_ & Hpos);
    [unfold is_u8; lia|lia|lia|unfold is_u16; lia|
     repeat constructor; lia|].
  by apply Hpos.
Defined.
